(** * MEDimage: slice stitching, coordinate conventions, ROI index store
    and series/structure-set association

  A shallow embedding of
    - [MEDimage/wrangling/combine_slices.py]  (module [CombineSlices]),
    - the [scan], [volume] and [ROI] inner classes of [MEDimage/MEDimage.py]
      (module [MEDimage]),
    - the directory scan, the association, scheduling and accumulation
      code and the file-name and summary bookkeeping of
      [MEDimage/wrangling/DataManager.py]  (module [DataManager]),
    - the first-crossing lookups of [MEDimage/biomarkers/utils.py]
      (module [Biomarkers]).

  Numbers.  numpy and Python floats are modelled by exact rationals [Q]:
  every theorem about arithmetic is a theorem about the real-number
  reading of the code, and equality of computed numbers is [Qeq] ([==]).
  Where a concrete scenario sits exactly on a threshold it is re-checked in
  IEEE binary64 with Rocq's primitive floats. *)

From Stdlib Require Import QArith Qabs Qminmax Lqa Floats.
From Stdlib Require Import Sorting.Sorted Sorting.Permutation.
From stdpp Require Import gmap strings list pretty.

(** ** Python exceptions and fallible computations *)

Module Py.

(** The exceptions the modelled code can raise.  [ValueError] carries the
    message text without the values that the source formats into it. *)
Inductive exn : Type :=
| IndexError
| TypeError
| KeyError (key : string)
| ValueError (msg : string).

Inductive result (A : Type) : Type :=
| Ok (a : A)
| Raise (e : exn).
Arguments Ok {A} a.
Arguments Raise {A} e.

#[global] Instance result_ret : MRet result := λ A a, Ok a.

#[global] Instance result_bind : MBind result := λ A B k r,
  match r with
  | Ok a => k a
  | Raise e => Raise e
  end.

#[global] Instance result_fmap : FMap result := λ A B f r,
  match r with
  | Ok a => Ok (f a)
  | Raise e => Raise e
  end.

Definition is_ok {A} (r : result A) : bool :=
  match r with Ok _ => true | Raise _ => false end.

End Py.

Import Py.

(** ** numpy arrays *)

Module Numpy.

Inductive dtype : Type :=
| uint8 | int8 | uint16 | int16 | uint32 | int32 | float32 | float64.

Definition is_floating (t : dtype) : bool :=
  match t with float32 | float64 => true | _ => false end.

(** A two-dimensional array: dtype, shape (rows, columns) and the rows. *)
Record ndarray2 (A : Type) : Type := Nd2 {
  dtype2 : dtype;
  shape2 : nat * nat;
  cells2 : list (list A)
}.
Arguments Nd2 {A} _ _ _.
Arguments dtype2 {A} _.
Arguments shape2 {A} _.
Arguments cells2 {A} _.

(** A three-dimensional array, indexed [cells3 !! i !! j !! k]. *)
Record ndarray3 (A : Type) : Type := Nd3 {
  dtype3 : dtype;
  shape3 : nat * nat * nat;
  cells3 : list (list (list A))
}.
Arguments Nd3 {A} _ _ _.
Arguments dtype3 {A} _.
Arguments shape3 {A} _.
Arguments cells3 {A} _.

(** The cells agree with the declared shape. *)
Definition wf2 {A} (a : ndarray2 A) : Prop :=
  length (cells2 a) = fst (shape2 a) ∧
  Forall (λ row, length row = snd (shape2 a)) (cells2 a).

Definition wf3 {A} (a : ndarray3 A) : Prop :=
  let '(n0, n1, n2) := shape3 a in
  length (cells3 a) = n0 ∧
  Forall (λ plane, length plane = n1 ∧
                   Forall (λ line, length line = n2) plane) (cells3 a).

Definition cells_wf {A} (n0 n1 n2 : nat) (cells : list (list (list A)))
  : Prop :=
  length cells = n0 ∧
  Forall (λ plane, length plane = n1 ∧
                   Forall (λ line, length line = n2) plane) cells.

Definition at2 {A} (a : ndarray2 A) (i j : nat) : option A :=
  row ← cells2 a !! i; row !! j.

Definition at3 {A} (a : ndarray3 A) (i j k : nat) : option A :=
  plane ← cells3 a !! i; line ← plane !! j; line !! k.

Fixpoint transpose_rows {A} (ncols : nat) (rows : list (list A))
  : list (list A) :=
  match rows with
  | [] => replicate ncols []
  | r :: rs => zip_with cons r (transpose_rows ncols rs)
  end.

(** [a.T] *)
Definition np_T {A} (a : ndarray2 A) : ndarray2 A :=
  let '(r, c) := shape2 a in
  Nd2 (dtype2 a) (c, r) (transpose_rows c (cells2 a)).

(** Elementwise arithmetic that yields an array of dtype [t]. *)
Definition nd2_map {A B} (t : dtype) (f : A → B) (a : ndarray2 A)
  : ndarray2 B :=
  Nd2 t (shape2 a) (map (map f) (cells2 a)).

(** [np.empty(shape, dtype)]; [junk] is what the fresh memory holds. *)
Definition np_empty {A} (junk : A) (shape : nat * nat * nat) (t : dtype)
  : ndarray3 A :=
  let '(n0, n1, n2) := shape in
  Nd3 t shape (replicate n0 (replicate n1 (replicate n2 junk))).

(** [voxels[:, :, k] = m].  numpy raises when [k] is out of range or the
    shapes cannot be broadcast; broadcasting proper (a value of shape (1, n),
    say) is not modelled and counts as a mismatch. *)
Definition setitem_slice {A} (voxels : ndarray3 A) (k : nat) (m : ndarray2 A)
  : result (ndarray3 A) :=
  let '(n0, n1, n2) := shape3 voxels in
  if negb (k <? n2)%nat then Raise IndexError
  else if negb (bool_decide (shape2 m = (n0, n1)))
  then Raise (ValueError "could not broadcast input array")
  else Ok (Nd3 (dtype3 voxels) (shape3 voxels)
             (zip_with (zip_with (λ line x, <[k:=x]> line))
                       (cells3 voxels) (cells2 m))).

(** [np.flip(a, 0)] and [np.flip(a, 1)] *)
Definition np_flip0 {A} (a : ndarray3 A) : ndarray3 A :=
  Nd3 (dtype3 a) (shape3 a) (rev (cells3 a)).

Definition np_flip1 {A} (a : ndarray3 A) : ndarray3 A :=
  Nd3 (dtype3 a) (shape3 a) (map (@rev _) (cells3 a)).

(** [a.size] *)
Definition np_size {A} (a : ndarray3 A) : nat :=
  let '(n0, n1, n2) := shape3 a in n0 * n1 * n2.

(** [a.flatten()], C order. *)
Definition np_flatten {A} (a : ndarray3 A) : list A :=
  concat (concat (cells3 a)).

(** [np.zeros_like(a)] *)
Definition np_zeros_like (a : ndarray3 Q) : ndarray3 Q :=
  Nd3 (dtype3 a) (shape3 a) (map (map (map (λ _, 0%Q))) (cells3 a)).

(** [flat.reshape(shape)] for a one-dimensional [flat] of dtype [t]. *)
Definition np_reshape {A} (t : dtype) (flat : list A) (shape : nat * nat * nat)
  : result (ndarray3 A) :=
  let '(n0, n1, n2) := shape in
  if negb (length flat =? n0 * n1 * n2)%nat
  then Raise (ValueError "cannot reshape array")
  else Ok (Nd3 t shape
             (map (reshape (replicate n1 n2))
                  (reshape (replicate n0 (n1 * n2)%nat) flat))).

(** [np.nonzero(flat)] for a one-dimensional [flat]: the positions of the
    non-zero entries, ascending. *)
Fixpoint nonzero_from (i : nat) (flat : list Q) : list nat :=
  match flat with
  | [] => []
  | x :: rest =>
      if Qeq_bool x 0 then nonzero_from (S i) rest
      else i :: nonzero_from (S i) rest
  end.

Definition np_nonzero (flat : list Q) : list nat := nonzero_from 0 flat.

(** [flat[indexes] = v]: every index is checked against the length. *)
Fixpoint setitem_indexes {A} (flat : list A) (indexes : list nat) (v : A)
  : result (list A) :=
  match indexes with
  | [] => Ok flat
  | i :: rest =>
      if (i <? length flat)%nat
      then setitem_indexes (<[i:=v]> flat) rest v
      else Raise IndexError
  end.

(** [np.identity(n)] *)
Definition np_identity (n : nat) : list (list Q) :=
  map (λ i, map (λ j, if (i =? j)%nat then 1%Q else 0%Q) (seq 0 n)) (seq 0 n).

End Numpy.

Import Numpy.

(** ** combine_slices.py *)

Module CombineSlices.

Local Open Scope Q_scope.

(** *** Three-vectors ([np.array] of length 3) *)

Definition vec3 : Type := Q * Q * Q.

Definition np_dot (a b : vec3) : Q :=
  let '(a1, a2, a3) := a in
  let '(b1, b2, b3) := b in
  a1 * b1 + a2 * b2 + a3 * b3.

Definition np_cross (a b : vec3) : vec3 :=
  let '(a1, a2, a3) := a in
  let '(b1, b2, b3) := b in
  (a2 * b3 - a3 * b2, a3 * b1 - a1 * b3, a1 * b2 - a2 * b1).

Definition vscale (a : vec3) (s : Q) : vec3 :=
  let '(a1, a2, a3) := a in (a1 * s, a2 * s, a3 * s).

Definition vec3_eq (a b : vec3) : Prop :=
  let '(a1, a2, a3) := a in
  let '(b1, b2, b3) := b in
  a1 == b1 ∧ a2 == b2 ∧ a3 == b3.

Definition vec3_eqb (a b : vec3) : bool :=
  let '(a1, a2, a3) := a in
  let '(b1, b2, b3) := b in
  Qeq_bool a1 b1 && Qeq_bool a2 b2 && Qeq_bool a3 b3.

(** *** pydicom datasets *)

(** One slice as [pydicom] hands it over, restricted to the attributes that
    combine_slices.py reads.  [ImageOrientationPatient] is the six-number
    attribute, kept as the two halves that [_extract_cosines] cuts it into
    ([image_orientation[:3]], [image_orientation[3:]]).  [PixelSpacing] is
    (row spacing, column spacing).  [RescaleSlope] and [RescaleIntercept]
    are the two attributes whose presence the code tests with [hasattr].
    [pixel_array] is the decoded pixel grid, of shape ([Rows], [Columns]). *)
Record Dataset : Type := {
  Modality : string;
  SOPClassUID : string;
  SeriesInstanceUID : string;
  Rows : nat;
  Columns : nat;
  ImageOrientationPatient : vec3 * vec3;
  PixelSpacing : Q * Q;
  PixelRepresentation : Z;
  BitsAllocated : Z;
  BitsStored : Z;
  HighBit : Z;
  ImagePositionPatient : vec3;
  RescaleSlope : option Q;
  RescaleIntercept : option Q;
  pixel_array : ndarray2 Z
}.

(** What the code uses of its libraries without the repository defining it:
    [np.linalg.norm] on a three-vector, and [==] between two pydicom
    datasets (reached when [sorted] meets two tuples with equal keys). *)
Class Externals : Type := {
  np_linalg_norm : vec3 → Q;
  dataset_eq : Dataset → Dataset → bool
}.

(** *** Helpers of the source, in source order where possible *)

Definition _extract_cosines (image_orientation : vec3 * vec3)
  : vec3 * vec3 * vec3 :=
  let row_cosine := fst image_orientation in
  let column_cosine := snd image_orientation in
  let slice_cosine := np_cross row_cosine column_cosine in
  (row_cosine, column_cosine, slice_cosine).

Definition _slice_positions (slice_datasets : list Dataset)
  : result (list Q) :=
  match slice_datasets with
  | [] => Raise IndexError
  | d0 :: _ =>
      let '(_, _, slice_cosine) :=
        _extract_cosines (ImageOrientationPatient d0) in
      Ok (map (λ d, np_dot slice_cosine (ImagePositionPatient d))
              slice_datasets)
  end.

(** [sorted] on a list of floats: a stable insertion sort that, like
    Python, only asks [<]. *)
Definition Qltb (x y : Q) : bool :=
  match x ?= y with Lt => true | _ => false end.

Fixpoint insert_float (x : Q) (l : list Q) : list Q :=
  match l with
  | [] => [x]
  | y :: l' => if Qltb y x then y :: insert_float x l' else x :: y :: l'
  end.

Fixpoint sorted (l : list Q) : list Q :=
  match l with
  | [] => []
  | x :: l' => insert_float x (sorted l')
  end.

(** [np.diff]: out[i] = a[i+1] - a[i]. *)
Fixpoint np_diff (l : list Q) : list Q :=
  match l with
  | x :: ((y :: _) as l') => (y - x) :: np_diff l'
  | _ => []
  end.

Definition Qsum (l : list Q) : Q := foldr Qplus 0 l.

(** [np.mean] of a non-empty one-dimensional array. *)
Definition np_mean (l : list Q) : Q :=
  Qsum l / inject_Z (Z.of_nat (length l)).

(** [np.allclose(a, b, atol, rtol)] with a scalar [b]:
    every |a_i - b| <= atol + rtol * |b|. *)
Definition np_allclose (a : list Q) (b atol rtol : Q) : bool :=
  forallb (λ x, Qle_bool (Qabs (x - b)) (atol + rtol * Qabs b)) a.

Inductive warning : Type :=
| NonUniformSpacing (diffs : list Q)
| NotQuiteOrthogonal
| RowNotQuiteUnit
| ColumnNotQuiteUnit.

Definition MissingSlices : exn :=
  ValueError "It appears there are missing slices".

(** The warnings issued so far, and how the call ended. *)
Definition _check_for_missing_slices (slice_positions : list Q)
  : list warning * result unit :=
  let slice_positions_diffs := np_diff (sorted slice_positions) in
  match slice_positions_diffs with
  | [] => ([], Raise IndexError)
  | d0 :: _ =>
      let w :=
        if np_allclose slice_positions_diffs d0 0 (1 # 100000)
        then [] else [NonUniformSpacing slice_positions_diffs] in
      if np_allclose slice_positions_diffs d0 0 (1 # 10)
      then (w, Ok tt) else (w, Raise MissingSlices)
  end.

(** [d] deviates from the first step [d0] by more than the fraction [tol]:
    |d - d0| / |d0| > tol, written without the division so that a zero
    first step needs no special case. *)
Definition deviates (tol d0 d : Q) : Prop := tol * Qabs d0 < Qabs (d - d0).

(** The same test in IEEE binary64, as numpy evaluates it. *)
Definition np_allclose_binary64 (a : list float) (b atol rtol : float) : bool :=
  forallb (λ x, PrimFloat.leb (PrimFloat.abs (PrimFloat.sub x b))
                  (PrimFloat.add atol (PrimFloat.mul rtol (PrimFloat.abs b)))) a.

(** *** Attribute comparison *)

(** The values [getattr] can return for the attributes the validator
    compares. *)
Inductive attr_value : Type :=
| AStr (s : string)
| ANat (n : nat)
| AInt (z : Z)
| AFloats (l : list Q).

Fixpoint floats_eqb (l m : list Q) : bool :=
  match l, m with
  | [], [] => true
  | x :: l', y :: m' => Qeq_bool x y && floats_eqb l' m'
  | _, _ => false
  end.

(** Python's [==] on these values. *)
Definition attr_eqb (a b : attr_value) : bool :=
  match a, b with
  | AStr s, AStr t => String.eqb s t
  | ANat n, ANat m => (n =? m)%nat
  | AInt x, AInt y => (x =? y)%Z
  | ANat n, AInt y => (Z.of_nat n =? y)%Z
  | AInt x, ANat m => (x =? Z.of_nat m)%Z
  | AFloats l, AFloats m => floats_eqb l m
  | _, _ => false
  end.

Definition vec3_list (v : vec3) : list Q :=
  let '(a, b, c) := v in [a; b; c].

(** [getattr(dataset, property_name, None)] *)
Definition getattr (d : Dataset) (property_name : string)
  : option attr_value :=
  if String.eqb property_name "Modality" then Some (AStr (Modality d))
  else if String.eqb property_name "SOPClassUID"
  then Some (AStr (SOPClassUID d))
  else if String.eqb property_name "SeriesInstanceUID"
  then Some (AStr (SeriesInstanceUID d))
  else if String.eqb property_name "Rows" then Some (ANat (Rows d))
  else if String.eqb property_name "Columns" then Some (ANat (Columns d))
  else if String.eqb property_name "ImageOrientationPatient"
  then Some (AFloats (vec3_list (fst (ImageOrientationPatient d)) ++
                      vec3_list (snd (ImageOrientationPatient d))))
  else if String.eqb property_name "PixelSpacing"
  then Some (AFloats [fst (PixelSpacing d); snd (PixelSpacing d)])
  else if String.eqb property_name "PixelRepresentation"
  then Some (AInt (PixelRepresentation d))
  else if String.eqb property_name "BitsAllocated"
  then Some (AInt (BitsAllocated d))
  else if String.eqb property_name "BitsStored" then Some (AInt (BitsStored d))
  else if String.eqb property_name "HighBit" then Some (AInt (HighBit d))
  else None.

Definition option_attr_eqb (a b : option attr_value) : bool :=
  match a, b with
  | Some x, Some y => attr_eqb x y
  | None, None => true
  | _, _ => false
  end.

Definition GridInconsistency (property_name : string) : exn :=
  ValueError ("All slices must have the same value for " +:+ property_name).

Definition _slice_attribute_equal (slice_datasets : list Dataset)
  (property_name : string) : result unit :=
  match slice_datasets with
  | [] => Raise IndexError
  | d0 :: rest =>
      let initial_value := getattr d0 property_name in
      if forallb (λ dataset,
                    option_attr_eqb (getattr dataset property_name)
                                    initial_value) rest
      then Ok tt
      else Raise (GridInconsistency property_name)
  end.

Definition invariant_properties : list string :=
  [ "Modality"; "SOPClassUID"; "SeriesInstanceUID"; "Rows"; "Columns";
    "ImageOrientationPatient"; "PixelSpacing"; "PixelRepresentation";
    "BitsAllocated"; "BitsStored"; "HighBit" ]%string.

(** *** Orientation check *)

Definition is_close (a b rel_tol abs_tol : Q) : bool :=
  Qle_bool (Qabs (a - b))
           (Qmax (rel_tol * Qmax (Qabs a) (Qabs b)) abs_tol).

Definition rel_tol_default : Q := 1 # 1000000000.

Definition _almost_zero (value abs_tol : Q) : bool :=
  is_close value 0 rel_tol_default abs_tol.

Definition _almost_one (value abs_tol : Q) : bool :=
  is_close value 1 rel_tol_default abs_tol.

Definition hard_tol : Q := 1 # 10000.
Definition soft_tol : Q := 1 # 100000000.

Definition _validate_image_orientation `{Externals}
  (image_orientation : vec3 * vec3) : list warning * result unit :=
  let '(row_cosine, column_cosine, _) := _extract_cosines image_orientation in
  let d := np_dot row_cosine column_cosine in
  if negb (_almost_zero d hard_tol)
  then ([], Raise (ValueError "Non-orthogonal direction cosines"))
  else
    let w1 := if negb (_almost_zero d soft_tol)
              then [NotQuiteOrthogonal] else [] in
    let nr := np_linalg_norm row_cosine in
    if negb (_almost_one nr hard_tol)
    then (w1, Raise (ValueError
                       "The row direction cosine's magnitude is not 1"))
    else
      let w2 := w1 ++ (if negb (_almost_one nr soft_tol)
                       then [RowNotQuiteUnit] else []) in
      let nc := np_linalg_norm column_cosine in
      if negb (_almost_one nc hard_tol)
      then (w2, Raise (ValueError
                         "The column direction cosine's magnitude is not 1"))
      else
        (w2 ++ (if negb (_almost_one nc soft_tol)
                then [ColumnNotQuiteUnit] else []), Ok tt).

(** *** The validator *)

Fixpoint check_each (slice_datasets : list Dataset) (names : list string)
  : result unit :=
  match names with
  | [] => Ok tt
  | property_name :: rest =>
      _ ← _slice_attribute_equal slice_datasets property_name;
      check_each slice_datasets rest
  end.

Definition _validate_slices_form_uniform_grid `{Externals}
  (slice_datasets : list Dataset) : list warning * result unit :=
  match check_each slice_datasets invariant_properties with
  | Raise e => ([], Raise e)
  | Ok _ =>
      match slice_datasets with
      | [] => ([], Raise IndexError)
      | d0 :: _ =>
          let '(w, r) :=
            _validate_image_orientation (ImageOrientationPatient d0) in
          match r with
          | Raise e => (w, Raise e)
          | Ok _ =>
              match _slice_positions slice_datasets with
              | Raise e => (w, Raise e)
              | Ok slice_positions =>
                  let '(w', r') := _check_for_missing_slices slice_positions in
                  (w ++ w', r')
              end
          end
      end
  end.

(** *** Slice order and spacing *)

Definition _slice_spacing (slice_datasets : list Dataset) : result Q :=
  if (1 <? length slice_datasets)%nat then
    slice_positions ← _slice_positions slice_datasets;
    let slice_positions_diffs := np_diff (sorted slice_positions) in
    Ok (np_mean slice_positions_diffs)
  else Ok 0.

(** [a < b] on the tuples [(key, dataset)] that [sorted(zip(...))] compares:
    the keys decide; on equal keys Python goes on to the datasets, finds them
    equal or asks [<] of two pydicom datasets, which raises [TypeError]. *)
Definition tuple_lt `{Externals} (a b : Q * Dataset) : result bool :=
  match fst a ?= fst b with
  | Lt => Ok true
  | Gt => Ok false
  | Eq => if dataset_eq (snd a) (snd b) then Ok false else Raise TypeError
  end.

Fixpoint insert_item `{Externals} (x : Q * Dataset) (l : list (Q * Dataset))
  : result (list (Q * Dataset)) :=
  match l with
  | [] => Ok [x]
  | y :: l' =>
      b ← tuple_lt y x;
      if b : bool then (r ← insert_item x l'; Ok (y :: r))
      else Ok (x :: y :: l')
  end.

Fixpoint sorted_items `{Externals} (l : list (Q * Dataset))
  : result (list (Q * Dataset)) :=
  match l with
  | [] => Ok []
  | x :: l' => s ← sorted_items l'; insert_item x s
  end.

Definition _sort_by_slice_spacing `{Externals} (slice_datasets : list Dataset)
  : result (list Dataset) :=
  slice_spacing ← _slice_positions slice_datasets;
  s ← sorted_items (zip slice_spacing slice_datasets);
  Ok (map snd s).

(** *** Volume assembly *)

Definition _requires_rescaling (dataset : Dataset) : bool :=
  bool_decide (is_Some (RescaleSlope dataset)) ||
  bool_decide (is_Some (RescaleIntercept dataset)).

(** [dataset.pixel_array.T.astype(np.float32)*slope + intercept] *)
Definition rescaled_slice (dataset : Dataset) : ndarray2 Q :=
  let slope := default 1 (RescaleSlope dataset) in
  let intercept := default 0 (RescaleIntercept dataset) in
  nd2_map float32 (λ raw, inject_Z raw * slope + intercept)
          (np_T (pixel_array dataset)).

(** [dataset.pixel_array.T], its integers read as numbers.  (A slice of
    another dtype than the volume's would be cast on assignment; the model
    stores the value itself.) *)
Definition plain_slice (dataset : Dataset) : ndarray2 Q :=
  let t := np_T (pixel_array dataset) in
  nd2_map (dtype2 t) inject_Z t.

(** [for k, dataset in enumerate(sorted_slice_datasets): voxels[:, :, k] = ...] *)
Fixpoint fill_slices (slice_of : Dataset → ndarray2 Q) (voxels : ndarray3 Q)
  (k : nat) (sorted_slice_datasets : list Dataset) : result (ndarray3 Q) :=
  match sorted_slice_datasets with
  | [] => Ok voxels
  | dataset :: rest =>
      v ← setitem_slice voxels k (slice_of dataset);
      fill_slices slice_of v (S k) rest
  end.

Definition _merge_slice_pixel_arrays `{Externals} (junk : Q)
  (slice_datasets : list Dataset) : result (ndarray3 Q) :=
  match slice_datasets with
  | [] => Raise IndexError
  | first_dataset :: _ =>
      let num_rows := Rows first_dataset in
      let num_columns := Columns first_dataset in
      let num_slices := length slice_datasets in
      sorted_slice_datasets ← _sort_by_slice_spacing slice_datasets;
      if existsb _requires_rescaling sorted_slice_datasets then
        let voxels :=
          np_empty junk (num_columns, num_rows, num_slices) float32 in
        fill_slices rescaled_slice voxels 0 sorted_slice_datasets
      else
        let dtype := dtype2 (pixel_array first_dataset) in
        let voxels :=
          np_empty junk (num_columns, num_rows, num_slices) dtype in
        fill_slices plain_slice voxels 0 sorted_slice_datasets
  end.

(** *** Affine matrix *)

(** [m[:3, j] = v] *)
Definition set_col3 (m : list (list Q)) (j : nat) (v : vec3)
  : list (list Q) :=
  let '(v0, v1, v2) := v in
  imap (λ i row, match i with
                 | 0%nat => <[j:=v0]> row
                 | 1%nat => <[j:=v1]> row
                 | 2%nat => <[j:=v2]> row
                 | _ => row
                 end) m.

(** [m[i, j] = x] *)
Definition set_cell (m : list (list Q)) (i j : nat) (x : Q)
  : list (list Q) :=
  alter (λ row, <[j:=x]> row) i m.

Definition _ijk_to_patient_xyz_transform_matrix `{Externals}
  (slice_datasets : list Dataset)
  : result (list (list Q) * list (list Q) * list (list Q)) :=
  s ← _sort_by_slice_spacing slice_datasets;
  match s with
  | [] => Raise IndexError
  | first_dataset :: _ =>
      let image_orientation := ImageOrientationPatient first_dataset in
      let '(row_cosine, column_cosine, slice_cosine) :=
        _extract_cosines image_orientation in
      let '(row_spacing, column_spacing) := PixelSpacing first_dataset in
      slice_spacing ← _slice_spacing slice_datasets;
      let transform := np_identity 4 in
      let rotation := np_identity 3 in
      let scaling := np_identity 3 in
      let transform := set_col3 transform 0 (vscale row_cosine column_spacing) in
      let transform := set_col3 transform 1 (vscale column_cosine row_spacing) in
      let transform := set_col3 transform 2 (vscale slice_cosine slice_spacing) in
      let transform := set_col3 transform 3 (ImagePositionPatient first_dataset) in
      let rotation := set_col3 rotation 0 row_cosine in
      let rotation := set_col3 rotation 1 column_cosine in
      let rotation := set_col3 rotation 2 slice_cosine in
      let rotation := transpose_rows 3 rotation in
      let scaling := set_cell scaling 0 0 column_spacing in
      let scaling := set_cell scaling 1 1 row_spacing in
      let scaling := set_cell scaling 2 2 slice_spacing in
      Ok (transform, rotation, scaling)
  end.

(** *** combine_slices *)

Definition combine_slices `{Externals} (junk : Q)
  (slice_datasets : list Dataset)
  : list warning *
    result (ndarray3 Q * list (list Q) * list (list Q) * list (list Q)) :=
  match slice_datasets with
  | [] => ([], Raise (ValueError "Must provide at least one DICOM dataset"))
  | _ =>
      let '(w, r) := _validate_slices_form_uniform_grid slice_datasets in
      (w, _ ← r;
          voxels ← _merge_slice_pixel_arrays junk slice_datasets;
          '(transform, rotation, scaling) ←
            _ijk_to_patient_xyz_transform_matrix slice_datasets;
          Ok (voxels, transform, rotation, scaling))
  end.

(** *** Vocabulary of the statements *)

(** The scalar sort key of a slice: its position projected on the normal of
    the orientation [image_orientation]. *)
Definition slice_key (image_orientation : vec3 * vec3) (d : Dataset) : Q :=
  let '(_, _, slice_cosine) := _extract_cosines image_orientation in
  np_dot slice_cosine (ImagePositionPatient d).

(** No two of the numbers are equal. *)
Fixpoint distinct (l : list Q) : Prop :=
  match l with
  | [] => True
  | x :: r => Forall (λ y, ¬ x == y) r ∧ distinct r
  end.

Definition tag (key : Dataset → Q) (d : Dataset) : Q * Dataset := (key d, d).

Definition by_key (key : Dataset → Q) (a b : Dataset) : Prop :=
  key a < key b.

Definition le_fst (a b : Q * Dataset) : Prop := fst a <= fst b.

Definition le_key (key : Dataset → Q) (a b : Dataset) : Prop :=
  key a <= key b.

Definition orientation_eq (a b : vec3 * vec3) : Prop :=
  vec3_eq (fst a) (fst b) ∧ vec3_eq (snd a) (snd b).

(** Column [j] of a matrix given by its rows, down to row [n]. *)
Definition column (m : list (list Q)) (j n : nat) : list (option Q) :=
  map (λ i, row ← m !! i; row !! j) (seq 0 n).

Definition diagonal (m : list (list Q)) (n : nat) : list (option Q) :=
  map (λ i, row ← m !! i; row !! i) (seq 0 n).

(** The pixel grid of a dataset has the shape its attributes announce, as
    pydicom builds it. *)
Definition pixel_grid_ok (d : Dataset) : Prop :=
  shape2 (pixel_array d) = (Rows d, Columns d) ∧ wf2 (pixel_array d).

(** The raw value of pixel (row [r], column [c]). *)
Definition raw (d : Dataset) (r c : nat) : option Z := at2 (pixel_array d) r c.


(** *** Sample data: axial slices of a CT series *)

Definition axial_slice (z : Q) (pixels : list (list Z))
  (slope intercept : option Q) : Dataset :=
  {| Modality := "CT";
     SOPClassUID := "1.2.840.10008.5.1.4.1.1.2";
     SeriesInstanceUID := "1.2.3";
     Rows := 2;
     Columns := 2;
     ImageOrientationPatient := ((1, 0, 0), (0, 1, 0));
     PixelSpacing := (1, 1);
     PixelRepresentation := 1;
     BitsAllocated := 16;
     BitsStored := 16;
     HighBit := 15;
     ImagePositionPatient := (0, 0, z);
     RescaleSlope := slope;
     RescaleIntercept := intercept;
     pixel_array := Nd2 int16 (2%nat, 2%nat) pixels |}.

(** Sagittal slices: rows run along y, columns along z, the normal is x. *)
Definition sagittal_slice (x : Q) (pixels : list (list Z)) : Dataset :=
  {| Modality := "MR";
     SOPClassUID := "1.2.840.10008.5.1.4.1.1.4";
     SeriesInstanceUID := "1.2.4";
     Rows := 2;
     Columns := 2;
     ImageOrientationPatient := ((0, 1, 0), (0, 0, 1));
     PixelSpacing := (3, 5);
     PixelRepresentation := 0;
     BitsAllocated := 16;
     BitsStored := 12;
     HighBit := 11;
     ImagePositionPatient := (x, 20, 30);
     RescaleSlope := None;
     RescaleIntercept := None;
     pixel_array := Nd2 uint16 (2%nat, 2%nat) pixels |}.

(** Externals for the sample data.  Its direction cosines are axis-aligned,
    and on such vectors the Euclidean norm is the sum of the absolute
    values; its slices are different files, which pydicom never finds
    equal. *)
Definition sample_externals : Externals :=
  {| np_linalg_norm := λ v, let '(a, b, c) := v in Qabs a + Qabs b + Qabs c;
     dataset_eq := λ _ _, false |}.

End CombineSlices.

(** ** MEDimage.py: the [scan] class and its [volume] and [ROI] *)

Module MEDimage.

Local Open Scope Q_scope.

(** *** Spatial reference *)

(** Modelled from the spec: the class [imref3d] (MEDimage/utils/imref.py) is
    not among the sources.  The record has the attributes that MEDimage.py
    reads and writes on it; the extents along Z, which the code never names,
    follow the spec's per-axis data model ("per-axis pixel extent, world
    limits, intrinsic limits, and grid size"). *)
Record imref3d : Type := {
  ImageSize : list nat;
  PixelExtentInWorldX : Q;
  PixelExtentInWorldY : Q;
  PixelExtentInWorldZ : Q;
  ImageExtentInWorldX : Q;
  ImageExtentInWorldY : Q;
  ImageExtentInWorldZ : Q;
  XIntrinsicLimits : Q * Q;
  YIntrinsicLimits : Q * Q;
  ZIntrinsicLimits : Q * Q;
  XWorldLimits : Q * Q;
  YWorldLimits : Q * Q;
  ZWorldLimits : Q * Q
}.

(** *** class volume *)

(** An attribute that [__init__] leaves at [None] reads [None] here. *)
Record volume : Type := {
  spatialRef : option imref3d;
  scan_rot : option (list (list Q));
  data : option (ndarray3 Q)
}.

Definition AttributeError : exn := ValueError "AttributeError".
Definition AxisError : exn := ValueError "AxisError".

Definition update_spatialRef (self : volume) (spatialRef_value : imref3d)
  : volume :=
  {| spatialRef := Some spatialRef_value;
     scan_rot := scan_rot self;
     data := data self |}.

Definition update_data (self : volume) (data_value : ndarray3 Q) : volume :=
  {| spatialRef := spatialRef self;
     scan_rot := scan_rot self;
     data := Some data_value |}.

(** [volume.convert_to_LPS]: flip x, then flip y. *)
Definition convert_to_LPS (self : volume) : result volume :=
  match data self with
  | None => Raise AxisError
  | Some d => Ok (update_data self (np_flip1 (np_flip0 d)))
  end.

(** The four swaps of [convert_spatialRef], in order, on the object that
    [self.spatialRef] refers to. *)
Definition swap_spatialRef (r : imref3d) : imref3d :=
  let temp := ImageExtentInWorldX r in
  let r := {| ImageSize := ImageSize r;
              PixelExtentInWorldX := PixelExtentInWorldX r;
              PixelExtentInWorldY := PixelExtentInWorldY r;
              PixelExtentInWorldZ := PixelExtentInWorldZ r;
              ImageExtentInWorldX := ImageExtentInWorldY r;
              ImageExtentInWorldY := temp;
              ImageExtentInWorldZ := ImageExtentInWorldZ r;
              XIntrinsicLimits := XIntrinsicLimits r;
              YIntrinsicLimits := YIntrinsicLimits r;
              ZIntrinsicLimits := ZIntrinsicLimits r;
              XWorldLimits := XWorldLimits r;
              YWorldLimits := YWorldLimits r;
              ZWorldLimits := ZWorldLimits r |} in
  let temp := PixelExtentInWorldX r in
  let r := {| ImageSize := ImageSize r;
              PixelExtentInWorldX := PixelExtentInWorldY r;
              PixelExtentInWorldY := temp;
              PixelExtentInWorldZ := PixelExtentInWorldZ r;
              ImageExtentInWorldX := ImageExtentInWorldX r;
              ImageExtentInWorldY := ImageExtentInWorldY r;
              ImageExtentInWorldZ := ImageExtentInWorldZ r;
              XIntrinsicLimits := XIntrinsicLimits r;
              YIntrinsicLimits := YIntrinsicLimits r;
              ZIntrinsicLimits := ZIntrinsicLimits r;
              XWorldLimits := XWorldLimits r;
              YWorldLimits := YWorldLimits r;
              ZWorldLimits := ZWorldLimits r |} in
  let temp := XIntrinsicLimits r in
  let r := {| ImageSize := ImageSize r;
              PixelExtentInWorldX := PixelExtentInWorldX r;
              PixelExtentInWorldY := PixelExtentInWorldY r;
              PixelExtentInWorldZ := PixelExtentInWorldZ r;
              ImageExtentInWorldX := ImageExtentInWorldX r;
              ImageExtentInWorldY := ImageExtentInWorldY r;
              ImageExtentInWorldZ := ImageExtentInWorldZ r;
              XIntrinsicLimits := YIntrinsicLimits r;
              YIntrinsicLimits := temp;
              ZIntrinsicLimits := ZIntrinsicLimits r;
              XWorldLimits := XWorldLimits r;
              YWorldLimits := YWorldLimits r;
              ZWorldLimits := ZWorldLimits r |} in
  let temp := XWorldLimits r in
  {| ImageSize := ImageSize r;
     PixelExtentInWorldX := PixelExtentInWorldX r;
     PixelExtentInWorldY := PixelExtentInWorldY r;
     PixelExtentInWorldZ := PixelExtentInWorldZ r;
     ImageExtentInWorldX := ImageExtentInWorldX r;
     ImageExtentInWorldY := ImageExtentInWorldY r;
     ImageExtentInWorldZ := ImageExtentInWorldZ r;
     XIntrinsicLimits := XIntrinsicLimits r;
     YIntrinsicLimits := YIntrinsicLimits r;
     ZIntrinsicLimits := ZIntrinsicLimits r;
     XWorldLimits := YWorldLimits r;
     YWorldLimits := temp;
     ZWorldLimits := ZWorldLimits r |}.

Definition convert_spatialRef (self : volume) : result volume :=
  match spatialRef self with
  | None => Raise AttributeError
  | Some r => Ok (update_spatialRef self (swap_spatialRef r))
  end.

(** *** class ROI *)

(** What the four dicts of an ROI store hold, and the empty dict that the
    getters return for "nothing there". *)
Inductive value : Type :=
| VIndexes (flat_indexes : list nat)
| VStr (s : string)
| VEmptyDict.

(** Python dicts are objects: an attribute holds a reference, and two
    attributes may hold the same one.  The heap lists the dicts alive; a
    reference is a position in it. *)
Abbreviation loc := nat.
Abbreviation pydict := (gmap string value).
Abbreviation heap := (list (gmap string value)).

Definition alloc (h : heap) (d : pydict) : loc * heap := (length h, h ++ [d]).

(** Truth value of the object behind an optional argument: [None] and the
    empty dict are false. *)
Definition truthy (h : heap) (arg : option loc) : bool :=
  match arg with
  | None => false
  | Some l => match h !! l with
              | Some d => bool_decide (d ≠ ∅)
              | None => false
              end
  end.

(** [arg if arg else {}] *)
Definition arg_or_empty (arg : option loc) (h : heap) : loc * heap :=
  match arg with
  | Some l => if truthy h arg then (l, h) else alloc h ∅
  | None => alloc h ∅
  end.

Record ROI : Type := {
  indexes : loc;
  roi_names : loc;
  nameSet : loc;
  nameSetInfo : loc
}.

(** [ROI.__init__(indexes=None, roi_names=None)] *)
Definition ROI_init (indexes_arg roi_names_arg : option loc) (h : heap)
  : ROI * heap :=
  let '(l_indexes, h) := arg_or_empty indexes_arg h in
  let '(l_roi_names, h) := arg_or_empty roi_names_arg h in
  let '(l_nameSet, h) := arg_or_empty roi_names_arg h in
  let '(l_nameSetInfo, h) := arg_or_empty roi_names_arg h in
  ({| indexes := l_indexes;
      roi_names := l_roi_names;
      nameSet := l_nameSet;
      nameSetInfo := l_nameSetInfo |}, h).

(** A key as callers pass it: an integer, or [None]. *)
Definition str (key : option Z) : string :=
  match key with
  | Some z => pretty z
  | None => "None"
  end.

(** The common body of the four getters:
    [if not d or key is None: return {} else: return d[str(key)]]. *)
Definition dict_get (h : heap) (l : loc) (key : option Z) : result value :=
  match h !! l with
  | None => Raise AttributeError
  | Some d =>
      if bool_decide (d = ∅) || bool_decide (key = None) then Ok VEmptyDict
      else match d !! str key with
           | Some v => Ok v
           | None => Raise (KeyError (str key))
           end
  end.

Definition get_indexes (self : ROI) (key : option Z) (h : heap)
  : result value := dict_get h (indexes self) key.

Definition get_ROIname (self : ROI) (key : option Z) (h : heap)
  : result value := dict_get h (roi_names self) key.

Definition get_nameSet (self : ROI) (key : option Z) (h : heap)
  : result value := dict_get h (nameSet self) key.

Definition get_nameSetInfo (self : ROI) (key : option Z) (h : heap)
  : result value := dict_get h (nameSetInfo self) key.

(** What the guard of a getter makes of a dict [d] behind attribute [attr]:
    the empty answer for an empty dict or the key [None], [KeyError] for a
    key that a non-empty dict does not hold. *)
Definition getter_behaviour (get : ROI → option Z → heap → result value)
  (attr : ROI → loc) (self : ROI) (h : heap) (key : option Z) : Prop :=
  ∀ d, h !! attr self = Some d →
    (d = ∅ ∨ key = None → get self key h = Ok VEmptyDict) ∧
    (d ≠ ∅ → key ≠ None → d !! str key = None →
       get self key h = Raise (KeyError (str key))).

(** The common body of the four updates: [d[str(key)] = v].  (The [except]
    clause of the source is never entered: assignment into a dict under a
    string key cannot fail.) *)
Definition dict_set (h : heap) (l : loc) (key : option Z) (v : value) : heap :=
  alter (λ d, <[str key := v]> d) l h.

Definition update_indexes (self : ROI) (key : option Z) (v : value) (h : heap)
  : heap := dict_set h (indexes self) key v.

Definition update_ROIname (self : ROI) (key : option Z) (v : value) (h : heap)
  : heap := dict_set h (roi_names self) key v.

Definition update_nameSet (self : ROI) (key : option Z) (v : value) (h : heap)
  : heap := dict_set h (nameSet self) key v.

Definition update_nameSetInfo (self : ROI) (key : option Z) (v : value)
  (h : heap) : heap := dict_set h (nameSetInfo self) key v.

(** [ROI.convert_to_LPS(data)] *)
Definition ROI_convert_to_LPS (d : ndarray3 Q) : ndarray3 Q :=
  np_flip1 (np_flip0 d).

(** *** class scan *)

Record scan : Type := {
  scan_volume : volume;
  scan_ROI : ROI
}.

(** [scan.get_ROI_from_indexes(key)].  An index that is no integer array
    (the [{}] of an unset key) makes numpy raise.  Without data,
    [np.zeros_like(None).flatten()] is an array of one zero: the index
    assignment goes ahead, and the call ends where it reads
    [self.volume.data.shape]. *)
Definition get_ROI_from_indexes (self : scan) (key : option Z) (h : heap)
  : result (ndarray3 Q) :=
  match data (scan_volume self) with
  | None =>
      let roi_volume := [0] in
      idx ← get_indexes (scan_ROI self) key h;
      match idx with
      | VIndexes l =>
          roi_volume ← setitem_indexes roi_volume l 1;
          Raise AttributeError
      | _ => Raise IndexError
      end
  | Some d =>
      let roi_volume := np_flatten (np_zeros_like d) in
      idx ← get_indexes (scan_ROI self) key h;
      match idx with
      | VIndexes l =>
          roi_volume ← setitem_indexes roi_volume l 1;
          np_reshape (dtype3 d) roi_volume (shape3 d)
      | _ => Raise IndexError
      end
  end.

(** Re-extraction as the repository does it when it stores an ROI:
    [np.nonzero(roi_data.flatten())]. *)
Definition extract_indexes (roi_data : ndarray3 Q) : list nat :=
  np_nonzero (np_flatten roi_data).

(** What an update through [update] followed by a get through [get] does,
    for the dict behind attribute [attr] and integer keys: the value set is
    the value read, the last of two updates wins, an entry under another
    key stays as it was, and another key that has no entry raises
    [KeyError] afterwards, also when the dict was empty before (and the
    get answered [{}]). *)
Definition update_get_laws
  (get : ROI → option Z → heap → result value)
  (update : ROI → option Z → value → heap → heap)
  (attr : ROI → loc) : Prop :=
  ∀ (self : ROI) (h : heap) (d : pydict) (k k' : Z) (v v' : value),
    h !! attr self = Some d →
    get self (Some k) (update self (Some k) v h) = Ok v ∧
    get self (Some k)
      (update self (Some k) v' (update self (Some k) v h)) = Ok v' ∧
    (k ≠ k' →
     ∀ w, d !! str (Some k') = Some w →
       get self (Some k') (update self (Some k) v h) = Ok w) ∧
    (k ≠ k' → d !! str (Some k') = None →
     get self (Some k') (update self (Some k) v h)
     = Raise (KeyError (str (Some k')))).

(** *** Sample data *)

(** A 2 x 1 x 3 volume with anisotropic voxels and its spatial reference. *)
Definition sample_spatialRef : imref3d :=
  {| ImageSize := [2; 1; 3]%nat;
     PixelExtentInWorldX := 1 # 2;
     PixelExtentInWorldY := 3 # 4;
     PixelExtentInWorldZ := 5;
     ImageExtentInWorldX := 1;
     ImageExtentInWorldY := 3 # 4;
     ImageExtentInWorldZ := 15;
     XIntrinsicLimits := (1 # 2, 5 # 2);
     YIntrinsicLimits := (1 # 2, 3 # 2);
     ZIntrinsicLimits := (1 # 2, 7 # 2);
     XWorldLimits := (-10, -9);
     YWorldLimits := (20, 83 # 4);
     ZWorldLimits := (100, 115) |}.

Definition sample_volume : volume :=
  {| spatialRef := Some sample_spatialRef;
     scan_rot := None;
     data := Some (Nd3 float64 (2%nat, 1%nat, 3%nat)
                     [[[5; 6; 7]]; [[8; 9; 10]]]) |}.

Definition sample_scan : scan :=
  {| scan_volume :=
       {| spatialRef := None; scan_rot := None;
          data := Some (Nd3 float64 (2%nat, 1%nat, 3%nat)
                          [[[5; 6; 7]]; [[8; 9; 10]]]) |};
     scan_ROI := {| indexes := 0%nat; roi_names := 1%nat; nameSet := 2%nat;
                    nameSetInfo := 3%nat |} |}.

End MEDimage.

(** ** DataManager.py *)

Module DataManager.

(** *** Association of structure sets with series *)

(** The lists of the [DICOM] dataclass.  Paths and UIDs are strings. *)
Record DICOM : Type := {
  stack_series_rs : list string;
  stack_path_rs : list string;
  stack_frame_rs : list string;
  cell_series_id : list string;
  cell_path_rs : list (list string);
  cell_path_images : list (list string);
  cell_frame_rs : list string;
  cell_frame_id : list string
}.

Definition set_cell_path_rs (st : DICOM) (c : list (list string)) : DICOM :=
  {| stack_series_rs := stack_series_rs st;
     stack_path_rs := stack_path_rs st;
     stack_frame_rs := stack_frame_rs st;
     cell_series_id := cell_series_id st;
     cell_path_rs := c;
     cell_path_images := cell_path_images st;
     cell_frame_rs := cell_frame_rs st;
     cell_frame_id := cell_frame_id st |}.

(** [[i for i, e in enumerate(cell) if e == uid]], counting from [i]. *)
Fixpoint matching_from (i : nat) (uid : string) (cell : list string)
  : list nat :=
  match cell with
  | [] => []
  | e :: rest =>
      if String.eqb e uid then i :: matching_from (S i) uid rest
      else matching_from (S i) uid rest
  end.

Definition __find_uid_cell_index (uid : string) (cell : list string)
  : list nat :=
  if bool_decide (uid ∈ cell) then matching_from 0 uid cell
  else [length cell].

(** [for n in range(len(ind)): cell_path_rs[ind[n]] += [path]]: the lists
    are updated in place, so what was appended before an [IndexError]
    stays appended. *)
Fixpoint append_to_cells (cells : list (list string)) (ind : list nat)
  (path : string) : list (list string) * result unit :=
  match ind with
  | [] => (cells, Ok tt)
  | n :: rest =>
      match cells !! n with
      | None => (cells, Raise IndexError)
      | Some l => append_to_cells (<[n := l ++ [path]]> cells) rest path
      end
  end.

(** One turn of the loop of [__associate_rt_stuct], for the structure set
    number [i] with path [path]: the [try] block, and on any exception in
    it the [except] block, whose own exceptions nobody catches. *)
Definition associate_one (st : DICOM) (i : nat) (path : string)
  : DICOM * result unit :=
  let attempt :=
    match stack_series_rs st !! i with
    | None => (cell_path_rs st, Raise IndexError)
    | Some uid =>
        append_to_cells (cell_path_rs st)
          (__find_uid_cell_index uid (cell_series_id st)) path
    end in
  match attempt with
  | (cells, Ok _) => (set_cell_path_rs st cells, Ok tt)
  | (cells, Raise _) =>
      match stack_frame_rs st !! i with
      | None => (set_cell_path_rs st cells, Raise IndexError)
      | Some frame =>
          let '(cells', r) :=
            append_to_cells cells
              (__find_uid_cell_index frame (cell_frame_id st)) path in
          (set_cell_path_rs st cells', r)
      end
  end.

Fixpoint associate_from (st : DICOM) (i : nat) (paths : list string)
  : DICOM * result unit :=
  match paths with
  | [] => (st, Ok tt)
  | path :: rest =>
      match associate_one st i path with
      | (st', Ok _) => associate_from st' (S i) rest
      | (st', Raise e) => (st', Raise e)
      end
  end.

Definition __associate_rt_stuct (st : DICOM) : DICOM * result unit :=
  associate_from st 0 (stack_path_rs st).

(** The associations of structure set [path]: the series slots whose list
    of structure sets holds it. *)
Definition associated_slots (st : DICOM) (path : string) : list nat :=
  List.filter (λ n, match cell_path_rs st !! n with
                    | Some l => bool_decide (path ∈ l)
                    | None => false
                    end) (seq 0 (length (cell_path_rs st))).

(** [after] is [before] with [path] appended to each slot whose identifier
    in [ids] is [uid], and to no other. *)
Definition appended_where (ids : list string) (uid path : string)
  (before after : list (list string)) : Prop :=
  length after = length before ∧
  ∀ n, after !! n = if bool_decide (ids !! n = Some uid)
                    then (λ l, l ++ [path]) <$> before !! n
                    else before !! n.

(** A state as [__read_all_dicoms] leaves it: one slot per series, and one
    triple (path, series UID, frame UID) per structure set. *)
Definition sample_dicom (series frames : list string)
  (masks : list (string * string * string)) : DICOM :=
  {| stack_series_rs := map (λ m, snd (fst m)) masks;
     stack_path_rs := map (λ m, fst (fst m)) masks;
     stack_frame_rs := map snd masks;
     cell_series_id := series;
     cell_path_rs := map (λ _, []) series;
     cell_path_images := map (λ s, [s +:+ "/slice1.dcm"]) series;
     cell_frame_rs := [];
     cell_frame_id := frames |}.

(** *** The accumulator of instances *)

Section Accumulator.

(** The reconstructed [MEDimage] instances are opaque here. *)
Context {Instance_ : Type}.

Record manager : Type := {
  keep_instances : bool;
  instances : list Instance_;
  warned : bool;
  warnings_issued : nat
}.

(** [DataManager.__init__] *)
Definition manager_init (keep : bool) : manager :=
  {| keep_instances := keep; instances := []; warned := false;
     warnings_issued := 0 |}.

Definition warn (m : manager) : manager :=
  {| keep_instances := keep_instances m;
     instances := instances m;
     warned := true;
     warnings_issued := S (warnings_issued m) |}.

Definition extend (m : manager) (new : list Instance_) : manager :=
  {| keep_instances := keep_instances m;
     instances := instances m ++ new;
     warned := warned m;
     warnings_issued := warnings_issued m |}.

(** One turn of the loop of [process_all_niftis] for an image file whose
    reconstruction is [inst]: the warning, then the append. *)
Definition nifti_step (m : manager) (inst : Instance_) : manager :=
  let m := if (10 <? length (instances m))%nat && negb (warned m)
           then warn m else m in
  if keep_instances m then extend m [inst] else m.

Definition process_all_niftis (m : manager) (reconstructed : list Instance_)
  : manager := foldl nifti_step m reconstructed.

(** The two places where [process_all_dicoms] collects what [ray.get(ids)]
    returns: after the first batch (lines 350-356) and at the end
    (lines 396-401). *)
Definition collect_first (m : manager) (batch : list Instance_) : manager :=
  if (10 <? length (instances m))%nat && negb (warned m) then warn m
  else if keep_instances m then extend m batch
  else m.

Definition collect_last (m : manager) (batch : list Instance_) : manager :=
  if (10 <? length (instances m))%nat && negb (warned m) then warn m
  else extend m batch.

(** [process_all_dicoms], as far as the accumulator goes; the two batches
    are what ray hands back at the two places. *)
Definition process_all_dicoms (m : manager) (first last : list Instance_)
  : manager := collect_last (collect_first m first) last.

End Accumulator.

Arguments manager : clear implicits.

(** [process_all]: the DICOM content, then the NIfTI content. *)
Definition process_all {Instance_ : Type} (m : manager Instance_)
  (first last reconstructed : list Instance_) : manager Instance_ :=
  process_all_niftis (process_all_dicoms m first last) reconstructed.

(** The warning counter and the flag [__warned] agree. *)
Definition warned_once {Instance_ : Type} (m : manager Instance_) : Prop :=
  warnings_issued m = if warned m then 1 else 0.

(** *** The directory scan of [__read_all_dicoms] *)

(** What [pydicom.dcmread] hands back for one file, as far as the scan reads
    it.  An attribute that the file lacks is [None] here; reading it raises
    [AttributeError] in the source.  [ReferencedSeriesInstanceUID] is the
    value of [info.ReferencedFrameOfReferenceSequence[0]
    .RTReferencedStudySequence[0].RTReferencedSeriesSequence[0]
    .SeriesInstanceUID], and [None] when a step of that chain raises;
    [ReferencedFrameOfReferenceUID] is
    [info.ReferencedFrameOfReferenceSequence[0].FrameOfReferenceUID],
    likewise. *)
Record FileDataset : Type := {
  Modality : option string;
  SeriesInstanceUID : option string;
  FrameOfReferenceUID : option string;
  ReferencedSeriesInstanceUID : option string;
  ReferencedFrameOfReferenceUID : option string
}.

(** A file of the directory: its path, what [pydicom.misc.is_dicom] says of
    it, and what [pydicom.dcmread] returns ([None]: it raises). *)
Record file : Type := {
  path : string;
  is_dicom : bool;
  dcmread : option FileDataset
}.

(** [DataManager.__init__]: all eight lists start empty. *)
Definition DICOM_init : DICOM :=
  {| stack_series_rs := []; stack_path_rs := []; stack_frame_rs := [];
     cell_series_id := []; cell_path_rs := []; cell_path_images := [];
     cell_frame_rs := []; cell_frame_id := [] |}.

Definition AttributeError : exn := MEDimage.AttributeError.

(** The four statements of the "New volume" branch, lines 263-266.  The
    second reads [info.FrameOfReferenceUID]: when the file lacks it the
    branch is left with the first statement done and the others not. *)
Definition new_volume (st : DICOM) (uid : string) (info : FileDataset)
  : DICOM * result unit :=
  let st :=
    {| stack_series_rs := stack_series_rs st;
       stack_path_rs := stack_path_rs st;
       stack_frame_rs := stack_frame_rs st;
       cell_series_id := cell_series_id st ++ [uid];
       cell_path_rs := cell_path_rs st;
       cell_path_images := cell_path_images st;
       cell_frame_rs := cell_frame_rs st;
       cell_frame_id := cell_frame_id st |} in
  match FrameOfReferenceUID info with
  | None => (st, Raise AttributeError)
  | Some frame =>
      ({| stack_series_rs := stack_series_rs st;
          stack_path_rs := stack_path_rs st;
          stack_frame_rs := stack_frame_rs st;
          cell_series_id := cell_series_id st;
          cell_path_rs := cell_path_rs st ++ [[]];
          cell_path_images := cell_path_images st ++ [[]];
          cell_frame_rs := cell_frame_rs st;
          cell_frame_id := cell_frame_id st ++ [frame] |}, Ok tt)
  end.

(** [self.__dicom.cell_path_images[ind_series_id] += [file]] *)
Definition add_image (st : DICOM) (ind_series_id : nat) (f : string)
  : DICOM * result unit :=
  match cell_path_images st !! ind_series_id with
  | None => (st, Raise IndexError)
  | Some l =>
      ({| stack_series_rs := stack_series_rs st;
          stack_path_rs := stack_path_rs st;
          stack_frame_rs := stack_frame_rs st;
          cell_series_id := cell_series_id st;
          cell_path_rs := cell_path_rs st;
          cell_path_images := <[ind_series_id := l ++ [f]]> (cell_path_images st);
          cell_frame_rs := cell_frame_rs st;
          cell_frame_id := cell_frame_id st |}, Ok tt)
  end.

(** Lines 259-267: a file whose modality is MR, PT or CT. *)
Definition read_image (st : DICOM) (f : string) (info : FileDataset)
  : DICOM * result unit :=
  match SeriesInstanceUID info with
  | None => (st, Raise AttributeError)
  | Some uid =>
      match __find_uid_cell_index uid (cell_series_id st) with
      | [] => (st, Raise IndexError)
      | ind_series_id :: _ =>
          if (ind_series_id =? length (cell_series_id st))%nat then
            match new_volume st uid info with
            | (st, Ok _) => add_image st ind_series_id f
            | (st, Raise e) => (st, Raise e)
            end
          else add_image st ind_series_id f
      end
  end.

(** Lines 269-282: a file whose modality is RTSTRUCT.  The path and the
    series UID are pushed before the frame UID is read. *)
Definition read_rtstruct (st : DICOM) (f : string) (info : FileDataset)
  : DICOM * result unit :=
  let series_uid := default "NotFound" (ReferencedSeriesInstanceUID info) in
  let push frame_rs :=
    {| stack_series_rs := stack_series_rs st ++ [series_uid];
       stack_path_rs := stack_path_rs st ++ [f];
       stack_frame_rs := frame_rs;
       cell_series_id := cell_series_id st;
       cell_path_rs := cell_path_rs st;
       cell_path_images := cell_path_images st;
       cell_frame_rs := cell_frame_rs st;
       cell_frame_id := cell_frame_id st |} in
  match ReferencedFrameOfReferenceUID info with
  | Some frame_uid => (push (stack_frame_rs st ++ [frame_uid]), Ok tt)
  | None =>
      match FrameOfReferenceUID info with
      | Some frame_uid => (push (stack_frame_rs st ++ [frame_uid]), Ok tt)
      | None => (push (stack_frame_rs st), Raise AttributeError)
      end
  end.

(** One turn of the loop at lines 254-286.  An exception inside the [try]
    is printed and the loop goes on with the state as the exception left
    it; the second component tells whether that happened. *)
Definition read_file (st : DICOM) (f : file) : DICOM * result unit :=
  if is_dicom f then
    match dcmread f with
    | None => (st, Raise (ValueError "dcmread"))
    | Some info =>
        match Modality info with
        | None => (st, Raise AttributeError)
        | Some modality =>
            if bool_decide (modality ∈ ["MR"; "PT"; "CT"]%string)
            then read_image st (path f) info
            else if String.eqb modality "RTSTRUCT"
            then read_rtstruct st (path f) info
            else (st, Ok tt)
        end
    end
  else (st, Ok tt).

(** The loop over [stack_folder]. *)
Definition scan_files (st : DICOM) (stack_folder : list file) : DICOM :=
  foldl (λ st f, fst (read_file st f)) st stack_folder.

(** [__read_all_dicoms], given the files found in the directory. *)
Definition __read_all_dicoms (st : DICOM) (stack_folder : list file)
  : DICOM * result unit :=
  __associate_rt_stuct (scan_files st stack_folder).

(** **** Vocabulary for the scan *)

(** The header of a file that the scan takes for an image, and of one that
    it takes for a structure set. *)
Definition image_of (f : file) : option FileDataset :=
  if is_dicom f then
    info ← dcmread f;
    modality ← Modality info;
    if bool_decide (modality ∈ ["MR"; "PT"; "CT"]%string)
    then Some info else None
  else None.

Definition rtstruct_of (f : file) : option FileDataset :=
  if is_dicom f then
    info ← dcmread f;
    modality ← Modality info;
    if bool_decide (modality ∈ ["MR"; "PT"; "CT"]%string) then None
    else if String.eqb modality "RTSTRUCT" then Some info else None
  else None.

(** The series that a file belongs to as an image. *)
Definition image_series (f : file) : option string :=
  info ← image_of f; SeriesInstanceUID info.

(** The file carries every attribute that the scan reads from it. *)
Definition complete (f : file) : Prop :=
  (∀ info, image_of f = Some info →
     is_Some (SeriesInstanceUID info) ∧ is_Some (FrameOfReferenceUID info)) ∧
  (∀ info, rtstruct_of f = Some info →
     is_Some (ReferencedFrameOfReferenceUID info) ∨
     is_Some (FrameOfReferenceUID info)).

(** The paths of the image files of series [uid], in scan order. *)
Definition images_of_series (uid : string) (stack_folder : list file)
  : list string :=
  map path (List.filter (λ f, bool_decide (image_series f = Some uid))
                        stack_folder).

(** The series UID and the frame UID that the scan pushes for a structure
    set. *)
Definition rtstruct_series (f : file) : option string :=
  info ← rtstruct_of f;
  Some (default "NotFound" (ReferencedSeriesInstanceUID info)).

Definition rtstruct_frame (f : file) : option string :=
  info ← rtstruct_of f;
  match ReferencedFrameOfReferenceUID info with
  | Some frame_uid => Some frame_uid
  | None => FrameOfReferenceUID info
  end.

(** The four cell lists have one entry per series. *)
Definition aligned (st : DICOM) : Prop :=
  length (cell_frame_id st) = length (cell_series_id st) ∧
  length (cell_path_images st) = length (cell_series_id st) ∧
  length (cell_path_rs st) = length (cell_series_id st).

(** The state that the scan of the files [seen] leaves when it starts from
    the empty state: one slot per image series, without repetition; the
    slot of a series holds the paths of its image files in scan order, no
    structure set yet, and the frame UID of the first image file of the
    series; the three stacks hold one entry per structure-set file, in scan
    order. *)
Definition scanned (st : DICOM) (seen : list file) : Prop :=
  aligned st ∧
  NoDup (cell_series_id st) ∧
  (∀ uid, uid ∈ cell_series_id st ↔
          ∃ f, f ∈ seen ∧ image_series f = Some uid) ∧
  (∀ n uid, cell_series_id st !! n = Some uid →
     cell_path_images st !! n = Some (images_of_series uid seen) ∧
     cell_path_rs st !! n = Some [] ∧
     ∃ f info,
       List.find (λ f, bool_decide (image_series f = Some uid)) seen = Some f ∧
       image_of f = Some info ∧
       cell_frame_id st !! n = FrameOfReferenceUID info) ∧
  cell_frame_rs st = [] ∧
  stack_path_rs st = omap (λ f, _ ← rtstruct_of f; Some (path f)) seen ∧
  stack_series_rs st = omap rtstruct_series seen ∧
  stack_frame_rs st = omap rtstruct_frame seen.

(** *** The task schedule of [process_all_dicoms] *)

(** [n_batch] as lines 308-313 compute it from [self.n_batch] (a count, or
    [None]) and the number of scans. *)
Definition effective_n_batch (n_batch : option nat) (n_scans : nat) : nat :=
  match n_batch with
  | None => 1
  | Some b => if (n_scans <? b)%nat then n_scans else b
  end.

(** The arguments of one [pdsf.remote] call: the image paths and the
    structure-set paths of a scan. *)
Definition task : Type := list string * list string.

(** [pdsf.remote(cell_path_images[i], cell_path_rs[i], ...)] *)
Definition submit (st : DICOM) (i : nat) : result task :=
  match cell_path_images st !! i with
  | None => Raise IndexError
  | Some images =>
      match cell_path_rs st !! i with
      | None => Raise IndexError
      | Some rs => Ok (images, rs)
      end
  end.

(** [[pdsf.remote(...) for i in range(n_batch)]] *)
Fixpoint submit_range (st : DICOM) (i n : nat) : result (list task) :=
  match n with
  | 0 => Ok []
  | S n => t ← submit st i; ts ← submit_range st (S i) n; Ok (t :: ts)
  end.

Section Schedule.

Context {Instance_ : Type}.

(** What the repository takes from its libraries here: the remote function
    [pdsf], seen as the instance that [ray.get] returns for a task, and
    [ray.wait(ids, num_returns=1)], seen as the list [not_ready] it
    returns. *)
Variable pdsf : task → Instance_.
Variable ray_wait : list task → result (list task).

(** One turn of the loop at lines 359-368, on [ids] and [nb_job_left]. *)
Definition schedule_step (st : DICOM) (n_scans : nat)
  (s : list task * nat) : result (list task * nat) :=
  let '(ids, nb_job_left) := s in
  not_ready ← ray_wait ids;
  if (0 <? nb_job_left)%nat then
    let idx := n_scans - nb_job_left in
    t ← submit st idx;
    Ok (not_ready ++ [t], nb_job_left - 1)
  else Ok (not_ready, nb_job_left).

Fixpoint schedule (st : DICOM) (n_scans : nat) (turns : nat)
  (s : list task * nat) : result (list task * nat) :=
  match turns with
  | 0 => Ok s
  | S turns => s ← schedule_step st n_scans s; schedule st n_scans turns s
  end.

(** [process_all_dicoms] after the directory scan, as far as the tasks and
    the accumulator go (the bookkeeping of file names and of the summary is
    left out). *)
Definition process_all_dicoms_tasks (m : manager Instance_) (st : DICOM)
  (n_batch : option nat) : result (manager Instance_) :=
  let n_scans := length (cell_path_images st) in
  let n_batch := effective_n_batch n_batch n_scans in
  ids ← submit_range st 0 n_batch;
  let nb_job_left := n_scans - n_batch in
  let m := collect_first m (map pdsf ids) in
  s ← schedule st n_scans n_scans (ids, nb_job_left);
  Ok (collect_last m (map pdsf (fst s))).

End Schedule.

(** The paths of the structure-set files that reference series [uid], in
    scan order. *)
Definition structure_sets_of_series (uid : string) (stack_folder : list file)
  : list string :=
  map path (List.filter (λ f, bool_decide (rtstruct_series f = Some uid))
                        stack_folder).

(** **** Sample files *)

Definition image_file (p modality uid : string) (frame : option string)
  : file :=
  {| path := p; is_dicom := true;
     dcmread := Some {| Modality := Some modality;
                        SeriesInstanceUID := Some uid;
                        FrameOfReferenceUID := frame;
                        ReferencedSeriesInstanceUID := None;
                        ReferencedFrameOfReferenceUID := None |} |}.

Definition rtstruct_file (p : string) (series frame : option string) : file :=
  {| path := p; is_dicom := true;
     dcmread := Some {| Modality := Some "RTSTRUCT";
                        SeriesInstanceUID := Some "1.2.9";
                        FrameOfReferenceUID := None;
                        ReferencedSeriesInstanceUID := series;
                        ReferencedFrameOfReferenceUID := frame |} |}.

Definition sample_folder : list file :=
  [ image_file "a1.dcm" "CT" "S1" (Some "F1");
    rtstruct_file "rs1.dcm" (Some "S2") (Some "F1");
    image_file "b1.dcm" "MR" "S2" (Some "F1");
    {| path := "notes.txt"; is_dicom := false; dcmread := None |};
    image_file "a2.dcm" "CT" "S1" (Some "F1");
    rtstruct_file "rs2.dcm" (Some "S1") (Some "F1") ]%string.

(** Whether a structure set with series UID [series_uid] and frame UID
    [frame_uid] goes to slot [n]: by its series UID when some slot has that
    UID, and otherwise by its frame UID. *)
Definition resolves_to (st : DICOM) (series_uid frame_uid : string) (n : nat)
  : bool :=
  if bool_decide (series_uid ∈ cell_series_id st)
  then bool_decide (cell_series_id st !! n = Some series_uid)
  else bool_decide (cell_frame_id st !! n = Some frame_uid).

(** The paths of the stacked structure sets that go to slot [n], in stack
    order. *)
Definition linked (st : DICOM) (n : nat) : list string :=
  map (λ t, fst (fst t))
      (List.filter (λ t, resolves_to st (snd (fst t)) (snd t) n)
                   (zip (zip (stack_path_rs st) (stack_series_rs st))
                        (stack_frame_rs st))).

(** *** File names of NIfTI files *)

(** Names are strings of bytes.  The separators the code splits at and
    searches for are ASCII, so the fields are those of Python's strings. *)

Import (notations) Stdlib.Strings.Ascii.

(** [s.split(sep)] for a separator of one character: the fields between
    the separators, empty fields included.  A string without the separator
    is its only field. *)
Fixpoint split (sep : Ascii.ascii) (s : string) : list string :=
  match s with
  | EmptyString => [EmptyString]
  | String c s' =>
      if Ascii.eqb c sep then EmptyString :: split sep s'
      else match split sep s' with
           | field :: fields => String c field :: fields
           | [] => [String c EmptyString]
           end
  end.

(** [s.count(c)] for one character. *)
Fixpoint count (c : Ascii.ascii) (s : string) : nat :=
  match s with
  | EmptyString => 0
  | String a s' => (if Ascii.eqb a c then 1 else 0) + count c s'
  end.

(** [l[i]] for [i >= 0]. *)
Definition list_getitem {A} (l : list A) (i : nat) : result A :=
  match l !! i with
  | Some x => Ok x
  | None => Raise IndexError
  end.

(** [l[-k]] for [k >= 1]. *)
Definition getitem_from_end {A} (l : list A) (k : nat) : result A :=
  if length l <? k then Raise IndexError
  else match l !! (length l - k) with
       | Some x => Ok x
       | None => Raise IndexError
       end.

(** [os.path.basename(file)], and [file.name] of a [Path]: what follows the
    last slash. *)
Definition basename (file : string) : string :=
  List.last (split "/"%char file) EmptyString.

(** The test of [__read_all_niftis] that sends a file to [stack_path_roi]:
    ['ROI' in file.name.split(".")]. *)
Definition is_roi_file (file : string) : bool :=
  bool_decide ("ROI" ∈ split "."%char (basename file)).

(** [MEDimg.patientID = os.path.basename(file).split("_")[0]] *)
Definition nifti_patientID (file : string) : result string :=
  list_getitem (split "_"%char (basename file)) 0.

(** [MEDimg.type = os.path.basename(file).split(".")[-3]] *)
Definition nifti_type (file : string) : result string :=
  getitem_from_end (split "."%char (basename file)) 3.

(** *** The processing summary *)

(** [s.find(sub)]: the lowest index at which [sub] occurs in [s], or -1. *)
Fixpoint find (sub s : string) : Z :=
  if String.prefix sub s then 0%Z
  else match s with
       | EmptyString => (-1)%Z
       | String _ s' =>
           let i := find sub s' in
           if (i <? 0)%Z then (-1)%Z else (i + 1)%Z
       end.

(** [s[start:stop]]: a negative bound counts from the end, and both bounds
    are cut to the string. *)
Definition slice (s : string) (start stop : Z) : string :=
  let len := Z.of_nat (String.length s) in
  let bound i := if (i <? 0)%Z then Z.max 0 (i + len) else Z.min i len in
  String.substring (Z.to_nat (bound start))
                   (Z.to_nat (bound stop - bound start)) s.

(** [if x not in l: l.append(x)] *)
Definition append_new (x : string) (l : list string) : list string :=
  if bool_decide (x ∈ l) then l else l ++ [x].

(** [if k not in d: d[k] = v] *)
Definition if_absent {V} (k : string) (v : V) (d : gmap string V)
  : gmap string V :=
  match d !! k with
  | Some _ => d
  | None => <[k := v]> d
  end.

(** [d[k]] *)
Definition dict_getitem {V} (d : gmap string V) (k : string) : result V :=
  match d !! k with
  | Some v => Ok v
  | None => Raise (KeyError k)
  end.

(** The attributes of a [DataManager] that the summary is kept in:
    [summary[study][institution][scan_type]] is a list of names. *)
Record Summary : Type := {
  __studies : list string;
  __institutions : list string;
  __scans : list string;
  summary : gmap string (gmap string (gmap string (list string)))
}.

(** As [DataManager.__init__] leaves them. *)
Definition Summary_init : Summary :=
  {| __studies := []; __institutions := []; __scans := []; summary := ∅ |}.

(** The lines under [# Update processing summary], which the two loops of
    [process_all_dicoms] and the loop of [process_all_niftis] run for the
    [name_save] of every instance.  The second component lists the names
    that [logging.warning] was called for. *)
Definition update_summary (name_save : string) (self : Summary)
  : result (Summary * list string) :=
  patient ← list_getitem (split "_"%char name_save) 0;
  if 2 <=? count "-"%char patient then
    let scan_type :=
      slice name_save (find "__" name_save + 2)%Z (find "." name_save) in
    study ← list_getitem (split "-"%char name_save) 0;
    let studies := append_new study (__studies self) in
    institution ← list_getitem (split "-"%char name_save) 1;
    let institutions := append_new institution (__institutions self) in
    let summary := if_absent study ∅ (summary self) in
    by_institution ← dict_getitem summary study;
    let by_institution := if_absent institution ∅ by_institution in
    let scans := append_new scan_type (__scans self) in
    by_scan ← dict_getitem by_institution institution;
    let by_scan := if_absent scan_type [] by_scan in
    names ← dict_getitem by_scan scan_type;
    let by_scan := <[scan_type := names ++ [name_save]]> by_scan in
    let by_institution := <[institution := by_scan]> by_institution in
    Ok ({| __studies := studies;
           __institutions := institutions;
           __scans := scans;
           summary := <[study := by_institution]> summary |}, [])
  else Ok (self, [name_save]).

(** The summary block run for the names of a list of instances, in order. *)
Fixpoint update_summaries (names : list string) (self : Summary)
  : result (Summary * list string) :=
  match names with
  | [] => Ok (self, [])
  | name_save :: names =>
      r ← update_summary name_save self;
      r' ← update_summaries names (fst r);
      Ok (fst r', snd r ++ snd r')
  end.

(** The name that [__get_MEDimage_name_save] builds:
    [name_id + '__' + series_description + '.' + MEDimg.type + '.npy']. *)
Definition name_complete (name_id series_description type : string)
  : string :=
  name_id +:+ "__" +:+ series_description +:+ "." +:+ type +:+ ".npy".

(** **** Vocabulary for the summary *)

(** The keys under which the summary block files a name: study,
    institution and scan type; [None] when the name is logged instead. *)
Definition name_keys (name_save : string)
  : option (string * string * string) :=
  match split "_"%char name_save with
  | patient :: _ =>
      if 2 <=? count "-"%char patient then
        match split "-"%char name_save with
        | study :: institution :: _ =>
            Some (study, institution,
                  slice name_save (find "__" name_save + 2)%Z
                        (find "." name_save))
        | _ => None
        end
      else None
  | [] => None
  end.

(** The names filed under three keys; none when a key is missing. *)
Definition names_at (self : Summary) (study institution scan_type : string)
  : list string :=
  default [] (by_institution ← summary self !! study;
              by_scan ← by_institution !! institution;
              by_scan !! scan_type).

(** The names of a list that are filed under three keys. *)
Definition filed_under (study institution scan_type : string)
  (names : list string) : list string :=
  List.filter (λ n, bool_decide
                      (name_keys n = Some (study, institution, scan_type)))
              names.

(** A list that an append-if-new loop has extended: what was there stays
    in front, no duplicate comes in, and the members are the old ones and
    the [added] ones. *)
Definition extended_by (old new : list string) (added : string → Prop)
  : Prop :=
  old `prefix_of` new ∧ (NoDup old → NoDup new) ∧
  ∀ x, x ∈ new ↔ x ∈ old ∨ added x.

End DataManager.

(** ** biomarkers/utils.py *)

Module Biomarkers.

Local Open Scope Q_scope.

(** [np.where(cond)[0][0]] for a one-dimensional array: the first position,
    counted from [i], at which the condition holds.  When it holds nowhere,
    [np.where(cond)[0]] is empty and indexing it raises. *)
Fixpoint first_where (cond : Q → bool) (a : list Q) (i : nat) : result nat :=
  match a with
  | [] => Raise IndexError
  | y :: rest => if cond y then Ok i else first_where cond rest (S i)
  end.

(** [a[ind]] *)
Definition getitem (a : list Q) (ind : nat) : result Q :=
  match a !! ind with
  | Some v => Ok v
  | None => Raise IndexError
  end.

(** Intensity at volume fraction. *)
Definition findIX (levels fractVol : list Q) (x : Q) : result Q :=
  ind ← first_where (λ y, Qle_bool y (x / 100)) fractVol 0;
  getitem levels ind.

(** Volume at intensity fraction. *)
Definition findVX (fractInt fractVol : list Q) (x : Q) : result Q :=
  ind ← first_where (λ y, Qle_bool (x / 100) y) fractInt 0;
  getitem fractVol ind.

End Biomarkers.

(** * Properties *)

(** ** Arrays *)

Module NumpyFacts.

Section Arrays2.

Context {A : Type}.
Implicit Types rows : list (list A).

Lemma transpose_rows_length (c : nat) rows :
  Forall (λ row, length row = c) rows → length (transpose_rows c rows) = c.
Proof.
  induction 1 as [|r rs Hr _ IH]; simpl.
  - apply length_replicate.
  - rewrite length_zip_with, IH, Hr. lia.
Qed.

Lemma transpose_rows_row_length (c : nat) rows :
  Forall (λ row, length row = c) rows →
  Forall (λ col, length col = length rows) (transpose_rows c rows).
Proof.
  induction 1 as [|r rs Hr _ IH]; simpl.
  - apply Forall_replicate. reflexivity.
  - apply Forall_forall. intros col Hcol.
    apply list_elem_of_lookup in Hcol as [i Hi].
    apply lookup_zip_with_Some in Hi as (x & t & -> & _ & Ht).
    simpl. f_equal. rewrite Forall_forall in IH. apply IH.
    apply list_elem_of_lookup. eauto.
Qed.

(** Entry (i, j) of the transpose is entry (j, i). *)
Lemma transpose_rows_lookup (c : nat) rows (i j : nat) :
  Forall (λ row, length row = c) rows →
  (transpose_rows c rows !! i) ≫= (.!! j) = (rows !! j) ≫= (.!! i).
Proof.
  intros H. revert j. induction H as [|r rs Hr Hrs IH]; intros j.
  - cbn [transpose_rows]. rewrite lookup_nil. cbn.
    destruct (replicate c [] !! i) as [l|] eqn:E; [|reflexivity].
    apply lookup_replicate in E as [-> _]. reflexivity.
  - cbn [transpose_rows]. rewrite lookup_zip_with.
    pose proof (transpose_rows_length c rs Hrs) as HT.
    destruct (r !! i) as [x|] eqn:Ex; cbn.
    + assert (i < c) as Hi by (rewrite <- Hr; eapply lookup_lt_Some; eauto).
      destruct (lookup_lt_is_Some_2 (transpose_rows c rs) i) as [t Ht]; [lia|].
      rewrite Ht. cbn. destruct j as [|j]; cbn.
      * now rewrite Ex.
      * rewrite <- IH, Ht. reflexivity.
    + assert (c ≤ i) as Hi by (rewrite <- Hr; now apply lookup_ge_None).
      destruct j as [|j]; cbn.
      * now rewrite Ex.
      * rewrite <- IH.
        rewrite (lookup_ge_None_2 (transpose_rows c rs) i); [reflexivity|lia].
Qed.

Lemma at2_np_T (a : ndarray2 A) (i j : nat) :
  wf2 a → at2 (np_T a) i j = at2 a j i.
Proof.
  destruct a as [t [r c] cells]. intros [_ Hrows]. cbn in *.
  unfold at2, np_T. cbn. now apply transpose_rows_lookup.
Qed.

Lemma wf2_np_T (a : ndarray2 A) :
  wf2 a → wf2 (np_T a) ∧ shape2 (np_T a) = (snd (shape2 a), fst (shape2 a)).
Proof.
  destruct a as [t [r c] cells]. intros [Hlen Hrows]. cbn in *.
  unfold np_T, wf2. cbn. split; [|reflexivity]. split.
  - now apply transpose_rows_length.
  - rewrite <- Hlen. now apply transpose_rows_row_length.
Qed.

Lemma at2_lt (a : ndarray2 A) (i j : nat) :
  wf2 a → i < fst (shape2 a) → j < snd (shape2 a) → is_Some (at2 a i j).
Proof.
  intros [Hlen Hrows] Hi Hj. unfold at2.
  destruct (lookup_lt_is_Some_2 (cells2 a) i) as [row Hrow]; [lia|].
  rewrite Hrow. cbn. apply lookup_lt_is_Some_2.
  rewrite Forall_forall in Hrows. rewrite Hrows; [exact Hj|].
  apply list_elem_of_lookup. eauto.
Qed.

End Arrays2.

Lemma at2_nd2_map {A B} (t : dtype) (f : A → B) (a : ndarray2 A) (i j : nat) :
  at2 (nd2_map t f a) i j = f <$> at2 a i j.
Proof.
  unfold at2, nd2_map. cbn. rewrite list_lookup_fmap.
  destruct (cells2 a !! i) as [row|]; cbn; [|reflexivity].
  apply list_lookup_fmap.
Qed.

Lemma wf2_nd2_map {A B} (t : dtype) (f : A → B) (a : ndarray2 A) :
  wf2 a → wf2 (nd2_map t f a).
Proof.
  intros [Hlen Hrows]. unfold wf2, nd2_map. cbn. split.
  - now rewrite length_map.
  - apply Forall_fmap. eapply Forall_impl; [exact Hrows|].
    intros row Hrow. cbn. now rewrite length_map.
Qed.

Section Arrays3.

Context {A : Type}.

Lemma wf3_cells (V : ndarray3 A) (n0 n1 n2 : nat) :
  shape3 V = (n0, n1, n2) → wf3 V ↔ cells_wf n0 n1 n2 (cells3 V).
Proof. intros HS. unfold wf3, cells_wf. now rewrite HS. Qed.

(** [voxels[:, :, k] = m] writes plane [k] and nothing else. *)
Lemma setitem_slice_spec (V : ndarray3 A) (k : nat) (m : ndarray2 A)
  (n0 n1 n2 : nat) :
  shape3 V = (n0, n1, n2) → wf3 V → k < n2 →
  shape2 m = (n0, n1) → wf2 m →
  ∃ V', setitem_slice V k m = Ok V' ∧
        dtype3 V' = dtype3 V ∧ shape3 V' = shape3 V ∧ wf3 V' ∧
        (∀ i j x, at2 m i j = Some x → at3 V' i j k = Some x) ∧
        (∀ i j k', k' ≠ k → at3 V' i j k' = at3 V i j k').
Proof.
  intros HS HV Hk Hm [Hml Hmr].
  apply (wf3_cells V n0 n1 n2 HS) in HV as [HVl HVp].
  rewrite Hm in Hml, Hmr. cbn in Hml, Hmr.
  unfold setitem_slice. rewrite HS.
  apply Nat.ltb_lt in Hk as Hkb. rewrite Hkb. cbn [negb].
  rewrite bool_decide_eq_true_2 by exact Hm. cbn [negb].
  eexists. split; [reflexivity|]. cbn [dtype3 shape3 cells3].
  split; [reflexivity|]. split; [reflexivity|].
  rewrite Forall_forall in HVp. rewrite Forall_forall in Hmr.
  split; [|split].
  - apply (wf3_cells _ n0 n1 n2); [reflexivity|]. cbn [cells3]. split.
    + rewrite length_zip_with. lia.
    + apply Forall_forall. intros plane Hp.
      apply list_elem_of_lookup in Hp as [i Hi].
      apply lookup_zip_with_Some in Hi as (p & r & -> & Hp & Hr).
      assert (p ∈ cells3 V) as Hpin by (apply list_elem_of_lookup; eauto).
      assert (r ∈ cells2 m) as Hrin by (apply list_elem_of_lookup; eauto).
      destruct (HVp p Hpin) as [Hpl Hpp]. specialize (Hmr r Hrin).
      split; [rewrite length_zip_with; lia|].
      apply Forall_forall. intros line Hl.
      apply list_elem_of_lookup in Hl as [j Hj].
      apply lookup_zip_with_Some in Hj as (l0 & x & -> & Hl0 & Hx).
      rewrite length_insert. rewrite Forall_forall in Hpp. apply Hpp.
      apply list_elem_of_lookup. eauto.
  - intros i j x Hx. unfold at2 in Hx. unfold at3. cbn [cells3].
    destruct (cells2 m !! i) as [r|] eqn:Hr; [|discriminate]. cbn in Hx.
    assert (i < n0) as Hi by (rewrite <- Hml; eapply lookup_lt_Some; eauto).
    destruct (lookup_lt_is_Some_2 (cells3 V) i) as [p Hp]; [lia|].
    assert (p ∈ cells3 V) as Hpin by (apply list_elem_of_lookup; eauto).
    assert (r ∈ cells2 m) as Hrin by (apply list_elem_of_lookup; eauto).
    destruct (HVp p Hpin) as [Hpl Hpp]. specialize (Hmr r Hrin).
    rewrite lookup_zip_with, Hp, Hr. cbn.
    assert (j < n1) as Hj by (rewrite <- Hmr; eapply lookup_lt_Some; eauto).
    destruct (lookup_lt_is_Some_2 p j) as [line Hline]; [lia|].
    rewrite lookup_zip_with, Hline, Hx. cbn.
    apply list_lookup_insert_eq.
    rewrite Forall_forall in Hpp. rewrite (Hpp line); [exact Hk|].
    apply list_elem_of_lookup. eauto.
  - intros i j k' Hne. unfold at3. cbn [cells3].
    rewrite lookup_zip_with.
    destruct (cells3 V !! i) as [p|] eqn:Hp; cbn; [|reflexivity].
    assert (i < n0) as Hi by (rewrite <- HVl; eapply lookup_lt_Some; eauto).
    destruct (lookup_lt_is_Some_2 (cells2 m) i) as [r Hr]; [lia|].
    rewrite Hr. cbn.
    assert (p ∈ cells3 V) as Hpin by (apply list_elem_of_lookup; eauto).
    assert (r ∈ cells2 m) as Hrin by (apply list_elem_of_lookup; eauto).
    destruct (HVp p Hpin) as [Hpl Hpp]. specialize (Hmr r Hrin).
    rewrite lookup_zip_with.
    destruct (p !! j) as [line|] eqn:Hline; cbn; [|reflexivity].
    assert (j < n1) as Hj by (rewrite <- Hpl; eapply lookup_lt_Some; eauto).
    destruct (lookup_lt_is_Some_2 r j) as [x Hx]; [lia|].
    rewrite Hx. cbn. apply list_lookup_insert_ne. congruence.
Qed.

Lemma np_empty_wf (junk : A) (n0 n1 n2 : nat) (t : dtype) :
  wf3 (np_empty junk (n0, n1, n2) t) ∧
  shape3 (np_empty junk (n0, n1, n2) t) = (n0, n1, n2) ∧
  dtype3 (np_empty junk (n0, n1, n2) t) = t.
Proof.
  split; [|split; reflexivity].
  unfold wf3, np_empty. cbn. split; [apply length_replicate|].
  apply Forall_replicate. split; [apply length_replicate|].
  apply Forall_replicate. apply length_replicate.
Qed.

End Arrays3.

End NumpyFacts.

(** ** combine_slices.py *)

Module CombineSlicesFacts.

Import NumpyFacts.

Import CombineSlices.
Local Open Scope Q_scope.

(** *** Properties of [_check_for_missing_slices] *)

Lemma np_allclose_true (a : list Q) (b rtol : Q) :
  np_allclose a b 0 rtol = true ↔ ∀ d, In d a → ¬ deviates rtol b d.
Proof.
  unfold np_allclose, deviates. rewrite forallb_forall.
  split; intros H d Hd; specialize (H d Hd).
  - apply Qle_bool_iff in H. lra.
  - apply Qle_bool_iff. lra.
Qed.

Lemma np_allclose_false (a : list Q) (b rtol : Q) :
  np_allclose a b 0 rtol = false ↔ ∃ d, In d a ∧ deviates rtol b d.
Proof.
  unfold np_allclose, deviates. split.
  - intros H. induction a as [|x a IH]; [discriminate|].
    cbn [forallb] in H. apply andb_false_iff in H as [H|H].
    + exists x. split; [now left|].
      destruct (Qlt_le_dec (0 + rtol * Qabs b) (Qabs (x - b))) as [Hlt|Hle].
      * lra.
      * apply Qle_bool_iff in Hle. rewrite Hle in H. discriminate.
    + destruct (IH H) as (d & Hd & Hdev). exists d. split; [now right|exact Hdev].
  - intros (d & Hd & Hdev).
    destruct (forallb _ a) eqn:E; [|reflexivity].
    rewrite forallb_forall in E. specialize (E d Hd).
    apply Qle_bool_iff in E. lra.
Qed.


Lemma check_raises (slice_positions : list Q) (d0 : Q) (ds : list Q) :
  np_diff (sorted slice_positions) = d0 :: ds →
  (∃ d, In d (d0 :: ds) ∧ deviates (1 # 10) d0 d) →
  snd (_check_for_missing_slices slice_positions) = Raise MissingSlices.
Proof.
  intros Hd Hex. unfold _check_for_missing_slices. rewrite Hd. cbv zeta.
  apply np_allclose_false in Hex. rewrite Hex. reflexivity.
Qed.

Lemma check_warns (slice_positions : list Q) (d0 : Q) (ds : list Q) :
  np_diff (sorted slice_positions) = d0 :: ds →
  (∀ d, In d (d0 :: ds) → ¬ deviates (1 # 10) d0 d) →
  (∃ d, In d (d0 :: ds) ∧ deviates (1 # 100000) d0 d) →
  _check_for_missing_slices slice_positions
  = ([NonUniformSpacing (d0 :: ds)], Ok tt).
Proof.
  intros Hd Hall Hex. unfold _check_for_missing_slices. rewrite Hd. cbv zeta.
  apply np_allclose_false in Hex. rewrite Hex.
  apply np_allclose_true in Hall. rewrite Hall. reflexivity.
Qed.


(** With fewer than two slices there is no first step to compare with:
    [slice_positions_diffs[0]] raises. *)
Lemma check_needs_two_slices (x : Q) :
  _check_for_missing_slices [] = ([], Raise IndexError) ∧
  _check_for_missing_slices [x] = ([], Raise IndexError).
Proof. split; reflexivity. Qed.

(** The steps of the scenario 0, 10, 21 are 10 and 11: the second deviates
    from the first by exactly one tenth, which is on the threshold and not
    beyond it.  numpy's own arithmetic agrees: in binary64, 0.1 * 10.0
    rounds to 1.0, and 1.0 <= 1.0. *)
Lemma scenario_0_10_21_binary64 :
  np_allclose_binary64 [10%float; 11%float] 10%float 0%float
                       0x1.999999999999ap-4%float = true.
Proof. vm_compute. reflexivity. Qed.

(** C2, the claim as stated, fails at its own scenario: for through-plane
    positions 0, 10, 21 the check ends normally (after a warning); it does
    not raise MissingSlices. *)
Lemma scenario_0_10_21_does_not_fail :
  _check_for_missing_slices [0; 10; 21]
    = ([NonUniformSpacing [10; 11]], Ok tt) ∧
  snd (_check_for_missing_slices [0; 10; 21]) ≠ Raise MissingSlices.
Proof. split; [reflexivity | discriminate]. Qed.

(** C2, amended.  Let d0 :: ds be the consecutive steps of the sorted
    through-plane positions.  If some step deviates from the first step d0
    by more than 10% of |d0|, the check raises MissingSlices.  If no step
    deviates by more than 10% but some step deviates by more than 1e-5, the
    check warns (once, with the steps) and ends normally.  In particular,
    positions 0, 10, 21 (second step exactly 10% off) warn and do not fail,
    while positions 0, 10, 22 fail with MissingSlices. *)
Theorem missing_slices_thresholds
  (slice_positions : list Q) (d0 : Q) (ds : list Q) :
  np_diff (sorted slice_positions) = d0 :: ds →
  ((∃ d, In d (d0 :: ds) ∧ deviates (1 # 10) d0 d) →
   snd (_check_for_missing_slices slice_positions) = Raise MissingSlices) ∧
  ((∀ d, In d (d0 :: ds) → ¬ deviates (1 # 10) d0 d) →
   (∃ d, In d (d0 :: ds) ∧ deviates (1 # 100000) d0 d) →
   _check_for_missing_slices slice_positions
   = ([NonUniformSpacing (d0 :: ds)], Ok tt)) ∧
  _check_for_missing_slices [0; 10; 21]
  = ([NonUniformSpacing [10; 11]], Ok tt) ∧
  _check_for_missing_slices [0; 10; 22]
  = ([NonUniformSpacing [10; 12]], Raise MissingSlices).
Proof.
  intros Hd. split; [|split; [|split]].
  - apply check_raises. exact Hd.
  - apply check_warns. exact Hd.
  - reflexivity.
  - reflexivity.
Qed.

Lemma missing_slices_thresholds_witness :
  np_diff (sorted [22; 0; 10]) = [10; 12] ∧
  deviates (1 # 10) 10 12 ∧
  snd (_check_for_missing_slices [22; 0; 10]) = Raise MissingSlices.
Proof.
  split; [reflexivity|]. split; [reflexivity|].
  apply (proj1 (missing_slices_thresholds [22; 0; 10] 10 [12] eq_refl)).
  exists 12. split; [right; left; reflexivity | reflexivity].
Defined.

(** *** [sorted] on floats *)

Lemma Qltb_true (x y : Q) : Qltb x y = true ↔ x < y.
Proof.
  unfold Qltb. rewrite Qlt_alt. destruct (x ?= y); split; congruence.
Qed.

Lemma Qltb_false (x y : Q) : Qltb x y = false ↔ y <= x.
Proof.
  split; intros H.
  - apply Qnot_lt_le. intros Hlt. apply Qltb_true in Hlt. congruence.
  - destruct (Qltb x y) eqn:E; [|reflexivity].
    apply Qltb_true in E. lra.
Qed.

Lemma insert_float_perm (x : Q) (l : list Q) :
  Permutation (insert_float x l) (x :: l).
Proof.
  induction l as [|y l IH]; simpl; [reflexivity|].
  destruct (Qltb y x); [|reflexivity].
  rewrite IH. apply perm_swap.
Qed.

Lemma sorted_perm (l : list Q) : Permutation (sorted l) l.
Proof.
  induction l as [|x l IH]; simpl; [reflexivity|].
  rewrite insert_float_perm. now constructor.
Qed.

Lemma insert_float_sorted (x : Q) (l : list Q) :
  StronglySorted Qle l → StronglySorted Qle (insert_float x l).
Proof.
  induction 1 as [|y l Hs IH Hall]; simpl.
  - repeat constructor.
  - destruct (Qltb y x) eqn:E.
    + apply Qltb_true in E. constructor; [exact IH|].
      rewrite Forall_forall in *. intros z Hz.
      rewrite insert_float_perm in Hz.
      apply elem_of_cons in Hz as [->|Hz]; [lra | now apply Hall].
    + apply Qltb_false in E. constructor; [now constructor|].
      constructor; [exact E|].
      rewrite Forall_forall in *. intros z Hz. specialize (Hall z Hz). lra.
Qed.

Lemma sorted_sorted (l : list Q) : StronglySorted Qle (sorted l).
Proof.
  induction l as [|x l IH]; simpl; [constructor|].
  now apply insert_float_sorted.
Qed.

Lemma sorted_length (l : list Q) : length (sorted l) = length l.
Proof. apply Permutation_length, sorted_perm. Qed.

(** *** [np.diff] and [np.mean]: the steps telescope *)

Lemma np_diff_length (l : list Q) : length (np_diff l) = pred (length l).
Proof.
  induction l as [|x [|y l] IH]; simpl in *; try reflexivity.
  now rewrite IH.
Qed.

Lemma Qsum_np_diff (x z : Q) (l : list Q) :
  Qsum (np_diff (x :: l ++ [z])) == z - x.
Proof.
  revert x. induction l as [|y l IH]; intros x.
  - simpl. lra.
  - change (np_diff (x :: (y :: l) ++ [z]))
      with ((y - x) :: np_diff (y :: l ++ [z])).
    cbn [Qsum foldr]. fold (Qsum (np_diff (y :: l ++ [z]))). rewrite IH. lra.
Qed.

(** The mean of the steps between n+2 ascending positions is
    (last - first) / (n+1). *)
Lemma np_mean_np_diff (x z : Q) (l : list Q) :
  np_mean (np_diff (x :: l ++ [z]))
  == (z - x) / inject_Z (Z.of_nat (S (length l))).
Proof.
  unfold np_mean. rewrite Qsum_np_diff, np_diff_length.
  cbn [length pred]. rewrite length_app. cbn [length].
  replace (length l + 1)%nat with (S (length l)) by lia. reflexivity.
Qed.

(** *** [sorted(zip(keys, datasets))] *)

Lemma distinct_perm (l l' : list Q) :
  Permutation l l' → distinct l → distinct l'.
Proof.
  induction 1 as [|x l l' Hp IH|x y l|l l' l'' _ IH1 _ IH2]; simpl.
  - trivial.
  - intros [Hx Hd]. split; [now rewrite <- Hp | auto].
  - intros [Hy [Hx Hd]]. apply Forall_cons in Hy as [Hyx Hy].
    repeat split; auto.
    constructor; [|exact Hx]. intros E. apply Hyx. now symmetry.
  - auto.
Qed.

Lemma distinct_ext (key key' : Dataset → Q) (l : list Dataset) :
  (∀ d, key d == key' d) → distinct (map key l) → distinct (map key' l).
Proof.
  intros Hk. induction l as [|x l IH]; simpl; [trivial|].
  intros [Hx Hd]. split; [|auto].
  apply Forall_forall. intros y Hy.
  apply list_elem_of_fmap in Hy as (d & -> & Hd').
  rewrite Forall_forall in Hx. rewrite <- !Hk. apply Hx.
  apply list_elem_of_fmap. now exists d.
Qed.

Section Sorting.

Context `{Externals}.
Variable key : Dataset → Q.

Lemma insert_item_spec (x : Dataset) (s : list Dataset) :
  Forall (λ y, ¬ key x == key y) s →
  StronglySorted (by_key key) s →
  ∃ s', insert_item (tag key x) (map (tag key) s) = Ok (map (tag key) s') ∧
        Permutation s' (x :: s) ∧ StronglySorted (by_key key) s'.
Proof.
  intros Hne Hs. induction Hs as [|y s Hs IH Hall].
  - exists [x]. repeat split; repeat constructor.
  - apply Forall_cons in Hne as [Hxy Hne].
    cbn [map insert_item]. unfold tuple_lt. cbn [tag fst snd].
    destruct (key y ?= key x) eqn:E.
    + apply Qeq_alt in E. exfalso. apply Hxy. now symmetry.
    + apply Qlt_alt in E. cbn.
      destruct (IH Hne) as (s' & -> & Hp & Hs'). cbn.
      exists (y :: s'). split; [reflexivity|]. split.
      * rewrite Hp. apply perm_swap.
      * constructor; [exact Hs'|].
        rewrite Hp. constructor; [exact E | exact Hall].
    + apply Qgt_alt in E. cbn.
      exists (x :: y :: s). split; [reflexivity|]. split; [reflexivity|].
      constructor; [now constructor|].
      constructor; [exact E|].
      eapply Forall_impl; [exact Hall|]. unfold by_key. intros z Hz. lra.
Qed.

Lemma sorted_items_spec (l : list Dataset) :
  distinct (map key l) →
  ∃ s, sorted_items (map (tag key) l) = Ok (map (tag key) s) ∧
       Permutation s l ∧ StronglySorted (by_key key) s.
Proof.
  induction l as [|x l IH]; intros Hd.
  - exists []. repeat split; constructor.
  - destruct Hd as [Hx Hd]. destruct (IH Hd) as (s & Hs & Hp & Hss).
    cbn [map sorted_items]. rewrite Hs. cbn.
    destruct (insert_item_spec x s) as (s' & Hi & Hp' & Hss'); [|exact Hss|].
    + rewrite Hp. apply Forall_forall. intros y Hy.
      rewrite Forall_forall in Hx. apply Hx.
      apply list_elem_of_fmap. now exists y.
    + exists s'. split; [exact Hi|]. split; [|exact Hss'].
      rewrite Hp'. now constructor.
Qed.

End Sorting.

(** Two strictly ascending arrangements of the same slices coincide. *)
Lemma strict_sorted_unique (key key' : Dataset → Q) (l l' : list Dataset) :
  (∀ d, key d == key' d) →
  StronglySorted (by_key key) l → StronglySorted (by_key key') l' →
  Permutation l l' → l = l'.
Proof.
  intros Hk Hs. revert l'. induction Hs as [|a l Hs IH Ha]; intros l' Hs' Hp.
  - now apply Permutation_nil in Hp.
  - destruct Hs' as [|a' l' Hs' Ha'].
    + symmetry in Hp. now apply Permutation_nil in Hp.
    + assert (a = a') as <-.
      { assert (Hin : a ∈ a' :: l') by (rewrite <- Hp; left).
        assert (Hin' : a' ∈ a :: l) by (rewrite Hp; left).
        apply elem_of_cons in Hin as [E|Hin]; [exact E|].
        apply elem_of_cons in Hin' as [E|Hin']; [now symmetry|].
        rewrite Forall_forall in Ha, Ha'.
        specialize (Ha _ Hin'). specialize (Ha' _ Hin).
        unfold by_key in *. rewrite <- !Hk in Ha'. lra. }
      f_equal. apply IH; [exact Hs'|].
      now apply Permutation_cons_inv in Hp.
Qed.

Lemma zip_tag (key : Dataset → Q) (l : list Dataset) :
  zip (map key l) l = map (tag key) l.
Proof. induction l as [|x l IH]; simpl; [reflexivity|]. now rewrite IH. Qed.

Lemma map_snd_tag (key : Dataset → Q) (l : list Dataset) :
  map snd (map (tag key) l) = l.
Proof. induction l as [|x l IH]; simpl; [reflexivity|]. now rewrite IH. Qed.

Lemma slice_positions_cons (d0 : Dataset) (rest : list Dataset) :
  _slice_positions (d0 :: rest)
  = Ok (map (slice_key (ImageOrientationPatient d0)) (d0 :: rest)).
Proof. reflexivity. Qed.

Lemma sort_by_slice_spacing_spec `{Externals}
  (d0 : Dataset) (rest : list Dataset) :
  let key := slice_key (ImageOrientationPatient d0) in
  distinct (map key (d0 :: rest)) →
  ∃ s, _sort_by_slice_spacing (d0 :: rest) = Ok s ∧
       Permutation s (d0 :: rest) ∧ StronglySorted (by_key key) s.
Proof.
  intros key Hd.
  destruct (sorted_items_spec key (d0 :: rest) Hd) as (s & Hs & Hp & Hss).
  exists s. split; [|split; assumption].
  unfold _sort_by_slice_spacing. rewrite slice_positions_cons.
  cbn [mbind result_bind]. fold key. rewrite zip_tag, Hs.
  cbn [mbind result_bind]. now rewrite map_snd_tag.
Qed.

Lemma np_cross_proper (a a' b b' : vec3) :
  vec3_eq a a' → vec3_eq b b' → vec3_eq (np_cross a b) (np_cross a' b').
Proof.
  destruct a as [[a1 a2] a3], a' as [[a1' a2'] a3'],
           b as [[b1 b2] b3], b' as [[b1' b2'] b3'].
  simpl. intros (Ha1 & Ha2 & Ha3) (Hb1 & Hb2 & Hb3).
  rewrite Ha1, Ha2, Ha3, Hb1, Hb2, Hb3. repeat split; reflexivity.
Qed.

Lemma np_dot_proper (a a' b : vec3) :
  vec3_eq a a' → np_dot a b == np_dot a' b.
Proof.
  destruct a as [[a1 a2] a3], a' as [[a1' a2'] a3'], b as [[b1 b2] b3].
  simpl. intros (Ha1 & Ha2 & Ha3). rewrite Ha1, Ha2, Ha3. reflexivity.
Qed.

Lemma slice_key_proper (o o' : vec3 * vec3) (d : Dataset) :
  orientation_eq o o' → slice_key o d == slice_key o' d.
Proof.
  intros [Hr Hc]. unfold slice_key, _extract_cosines.
  apply np_dot_proper, np_cross_proper; assumption.
Qed.

(** The resolved order does not depend on the order of the input. *)
Lemma sort_order_independent `{Externals}
  (d0 d0' : Dataset) (rest rest' : list Dataset) :
  Permutation (d0 :: rest) (d0' :: rest') →
  orientation_eq (ImageOrientationPatient d0) (ImageOrientationPatient d0') →
  distinct (map (slice_key (ImageOrientationPatient d0)) (d0 :: rest)) →
  _sort_by_slice_spacing (d0' :: rest') = _sort_by_slice_spacing (d0 :: rest).
Proof.
  intros Hp Ho Hd.
  pose proof (λ d, slice_key_proper _ _ d Ho) as Hk.
  destruct (sort_by_slice_spacing_spec d0 rest Hd) as (s & -> & Hps & Hss).
  destruct (sort_by_slice_spacing_spec d0' rest') as (s' & -> & Hps' & Hss').
  { apply (distinct_ext _ _ _ Hk).
    apply (distinct_perm
             (map (slice_key (ImageOrientationPatient d0)) (d0 :: rest))).
    - now apply Permutation_map.
    - exact Hd. }
  f_equal. symmetry.
  eapply strict_sorted_unique; [exact Hk|exact Hss|exact Hss'|].
  now rewrite Hps, Hps'.
Qed.

Lemma slice_spacing_spec (d0 d1 : Dataset) (rest : list Dataset) :
  let ds := d0 :: d1 :: rest in
  let key := slice_key (ImageOrientationPatient d0) in
  ∃ ks, Permutation ks (map key ds) ∧ StronglySorted Qle ks ∧
        _slice_spacing ds = Ok (np_mean (np_diff ks)).
Proof.
  intros ds key. exists (sorted (map key ds)).
  split; [apply sorted_perm|]. split; [apply sorted_sorted|]. reflexivity.
Qed.

(** The order, whenever [sorted] returns, with or without ties. *)

Section AnyKeys.
Context `{Externals}.

Lemma insert_item_ok (x : Q * Dataset) (l r : list (Q * Dataset)) :
  insert_item x l = Ok r →
  Permutation r (x :: l) ∧
  (StronglySorted le_fst l → StronglySorted le_fst r).
Proof.
  revert r. induction l as [|y l IH]; intros r Hr; cbn in Hr.
  - injection Hr as <-. split; [reflexivity|]. intros _. repeat constructor.
  - unfold tuple_lt in Hr. destruct (fst y ?= fst x) eqn:E.
    + apply Qeq_alt in E.
      destruct (dataset_eq (snd y) (snd x)); [|discriminate].
      cbn in Hr. injection Hr as <-. split; [reflexivity|].
      intros Hs. constructor; [exact Hs|].
      apply StronglySorted_inv in Hs as [_ Hall].
      constructor; [unfold le_fst; lra|].
      eapply Forall_impl; [exact Hall|]. unfold le_fst. intros z Hz. lra.
    + apply Qlt_alt in E. cbn in Hr.
      destruct (insert_item x l) as [r'|e] eqn:Er; [|discriminate].
      cbn in Hr. injection Hr as <-.
      destruct (IH r' eq_refl) as [Hp Hsorted]. split.
      * rewrite Hp. apply perm_swap.
      * intros Hs. apply StronglySorted_inv in Hs as [Hs Hall].
        constructor; [now apply Hsorted|].
        rewrite Hp. constructor; [unfold le_fst; lra | exact Hall].
    + apply Qgt_alt in E. cbn in Hr. injection Hr as <-.
      split; [reflexivity|].
      intros Hs. constructor; [exact Hs|].
      apply StronglySorted_inv in Hs as [_ Hall].
      constructor; [unfold le_fst; lra|].
      eapply Forall_impl; [exact Hall|]. unfold le_fst. intros z Hz. lra.
Qed.

Lemma sorted_items_ok (l r : list (Q * Dataset)) :
  sorted_items l = Ok r → Permutation r l ∧ StronglySorted le_fst r.
Proof.
  revert r. induction l as [|x l IH]; intros r Hr; cbn in Hr.
  - injection Hr as <-. split; [reflexivity | constructor].
  - destruct (sorted_items l) as [s|e] eqn:Es; [|discriminate].
    cbn in Hr. destruct (IH s eq_refl) as [Hp Hs].
    destruct (insert_item_ok x s r Hr) as [Hp' Hs'].
    split; [|now apply Hs'].
    rewrite Hp'. now constructor.
Qed.

Lemma sorted_tags (key : Dataset → Q) (r : list (Q * Dataset)) :
  Forall (λ a, fst a = key (snd a)) r →
  StronglySorted le_fst r → StronglySorted (le_key key) (map snd r).
Proof.
  intros Htag Hs. induction Hs as [|a r Hs IH Hall]; cbn; [constructor|].
  apply Forall_cons in Htag as [Ha Htag].
  constructor; [now apply IH|].
  apply Forall_fmap. rewrite Forall_forall in Hall, Htag |- *.
  intros b Hb. cbn. unfold le_key. specialize (Hall b Hb).
  unfold le_fst in Hall. rewrite <- Ha, <- (Htag b Hb). exact Hall.
Qed.

(** Whenever the order resolves, it is an ascending rearrangement. *)
Lemma sort_by_slice_spacing_ok (ds s : list Dataset) :
  _sort_by_slice_spacing ds = Ok s →
  ∃ d0 rest, ds = d0 :: rest ∧
    Permutation s ds ∧
    StronglySorted (le_key (slice_key (ImageOrientationPatient d0))) s.
Proof.
  destruct ds as [|d0 rest]; [discriminate|].
  intros Hs. exists d0, rest. split; [reflexivity|].
  unfold _sort_by_slice_spacing in Hs. rewrite slice_positions_cons in Hs.
  cbn [mbind result_bind] in Hs. rewrite zip_tag in Hs.
  destruct (sorted_items _) as [r|e] eqn:Er; [|discriminate].
  cbn in Hs. injection Hs as <-.
  destruct (sorted_items_ok _ r Er) as [Hp Hsorted]. split.
  - rewrite Hp. now rewrite map_snd_tag.
  - apply sorted_tags; [|exact Hsorted].
    rewrite Hp. apply Forall_fmap. apply Forall_forall. reflexivity.
Qed.

End AnyKeys.

(** Two slices that project to the same position and are not the same
    dataset leave [sorted] with a comparison of datasets, which raises. *)
Lemma sort_ties_raise (a b : list (list Z)) :
  _sort_by_slice_spacing (H := sample_externals)
    [axial_slice 0 a None None; axial_slice 0 b None None]
  = Raise TypeError.
Proof. reflexivity. Qed.

(** C4.  For every slice collection d0 :: rest: the slice-axis normal is the
    cross product of the row cosine and the column cosine (of the first
    dataset, whose orientation a series shares); each slice's key is its
    position dotted with that normal; whenever the order resolves it is a
    rearrangement of the input that ascends by key, and it does resolve, to a
    strictly ascending order, when the keys are pairwise different; that
    order is then the same for every rearrangement of the input (whose first
    dataset carries the same orientation); the derived spacing is the mean
    of the consecutive differences of the ascending keys, and is 0 for
    exactly one slice.  In the scenario (cosines (1,0,0)/(0,1,0), positions
    (0,0,0), (0,0,2), (0,0,4)) the spacing is 2 and the normal (0,0,1). *)
Theorem slice_order_and_spacing `{Externals}
  (d0 : Dataset) (rest : list Dataset) :
  let ds := d0 :: rest in
  let orientation := ImageOrientationPatient d0 in
  let normal := np_cross (fst orientation) (snd orientation) in
  let key := λ d, np_dot normal (ImagePositionPatient d) in
  _extract_cosines orientation = (fst orientation, snd orientation, normal) ∧
  _slice_positions ds = Ok (map key ds) ∧
  (∀ s, _sort_by_slice_spacing ds = Ok s →
        Permutation s ds ∧ StronglySorted (le_key key) s) ∧
  (distinct (map key ds) →
   ∃ s, _sort_by_slice_spacing ds = Ok s ∧
        Permutation s ds ∧ StronglySorted (by_key key) s) ∧
  (distinct (map key ds) →
   ∀ d0' rest',
     Permutation ds (d0' :: rest') →
     orientation_eq orientation (ImageOrientationPatient d0') →
     _sort_by_slice_spacing (d0' :: rest') = _sort_by_slice_spacing ds) ∧
  (rest = [] → _slice_spacing ds = Ok 0) ∧
  (rest ≠ [] →
   ∃ ks, Permutation ks (map key ds) ∧ StronglySorted Qle ks ∧
         _slice_spacing ds = Ok (np_mean (np_diff ks))) ∧
  (∀ p1 p2 p3 slope intercept,
     let scenario := [axial_slice 0 p1 slope intercept;
                      axial_slice 2 p2 slope intercept;
                      axial_slice 4 p3 slope intercept] in
     (∃ spacing, _slice_spacing scenario = Ok spacing ∧ spacing == 2) ∧
     snd (_extract_cosines ((1, 0, 0), (0, 1, 0))) = (0, 0, 1)).
Proof.
  intros ds orientation normal key.
  split; [reflexivity|]. split; [reflexivity|].
  split.
  { intros s Hs.
    destruct (sort_by_slice_spacing_ok ds s Hs) as (d & r & E & Hp & Hsorted).
    injection E as <- <-. split; [exact Hp | exact Hsorted]. }
  split; [intros Hd; exact (sort_by_slice_spacing_spec d0 rest Hd)|].
  split; [intros Hd d0' rest' Hp Ho;
          exact (sort_order_independent d0 d0' rest rest' Hp Ho Hd)|].
  split; [intros ->; reflexivity|].
  split.
  - intros Hne. destruct rest as [|d1 rest]; [congruence|].
    exact (slice_spacing_spec d0 d1 rest).
  - intros p1 p2 p3 slope intercept scenario. split; [|reflexivity].
    eexists. split; reflexivity.
Qed.

Lemma slice_order_and_spacing_witness :
  ∃ s, _sort_by_slice_spacing (H := sample_externals)
         [axial_slice 4 [[1; 2]; [3; 4]]%Z None None;
          axial_slice 0 [[5; 6]; [7; 8]]%Z None None;
          axial_slice 2 [[9; 10]; [11; 12]]%Z None None] = Ok s ∧
       Permutation s [axial_slice 4 [[1; 2]; [3; 4]]%Z None None;
                      axial_slice 0 [[5; 6]; [7; 8]]%Z None None;
                      axial_slice 2 [[9; 10]; [11; 12]]%Z None None].
Proof.
  destruct (slice_order_and_spacing (H := sample_externals)
              (axial_slice 4 [[1; 2]; [3; 4]]%Z None None)
              [axial_slice 0 [[5; 6]; [7; 8]]%Z None None;
               axial_slice 2 [[9; 10]; [11; 12]]%Z None None])
    as (_ & _ & _ & Hsort & _).
  destruct Hsort as (s & Hs & Hp & _).
  - simpl. repeat split; repeat constructor;
      intros E; vm_compute in E; discriminate.
  - exists s. split; [exact Hs | exact Hp].
Defined.

(** *** Affine matrix *)

(** C5, amended.  For a slice collection whose order resolves, the affine
    builder returns a 4x4 homogeneous matrix whose first three columns are
    row_cosine * column_spacing, column_cosine * row_spacing and
    slice_normal * slice_spacing, whose translation column is the position
    of the first slice in resolved order and whose last row is (0, 0, 0, 1);
    the separately returned rotation matrix has ROWS (row cosine, column
    cosine, slice normal), because the code transposes it before returning;
    the scaling matrix is diagonal with (column spacing, row spacing, slice
    spacing). *)
Theorem affine_builder `{Externals} (ds s : list Dataset) :
  _sort_by_slice_spacing ds = Ok s →
  ∃ first others slice_spacing transform rotation scaling,
    s = first :: others ∧
    _slice_spacing ds = Ok slice_spacing ∧
    _ijk_to_patient_xyz_transform_matrix ds
    = Ok (transform, rotation, scaling) ∧
    let '(row_cosine, column_cosine, normal) :=
      _extract_cosines (ImageOrientationPatient first) in
    let '(row_spacing, column_spacing) := PixelSpacing first in
    length transform = 4%nat ∧
    Forall (λ row, length row = 4%nat) transform ∧
    column transform 0 3 = Some <$> vec3_list (vscale row_cosine column_spacing) ∧
    column transform 1 3 = Some <$> vec3_list (vscale column_cosine row_spacing) ∧
    column transform 2 3 = Some <$> vec3_list (vscale normal slice_spacing) ∧
    column transform 3 3 = Some <$> vec3_list (ImagePositionPatient first) ∧
    transform !! 3%nat = Some [0; 0; 0; 1] ∧
    rotation = [vec3_list row_cosine; vec3_list column_cosine;
                vec3_list normal] ∧
    scaling = [[column_spacing; 0; 0]; [0; row_spacing; 0];
               [0; 0; slice_spacing]].
Proof.
  intros Hs.
  destruct (sort_by_slice_spacing_ok ds s Hs) as (d0 & rest & -> & Hp & _).
  destruct s as [|first others].
  { apply Permutation_nil in Hp. discriminate. }
  assert (∃ sp, _slice_spacing (d0 :: rest) = Ok sp) as [sp Hsp].
  { unfold _slice_spacing.
    destruct (1 <? length (d0 :: rest))%nat; eexists; reflexivity. }
  exists first, others, sp.
  unfold _ijk_to_patient_xyz_transform_matrix. rewrite Hs, Hsp.
  cbn [mbind result_bind].
  destruct (ImageOrientationPatient first) as [[[r1 r2] r3] [[c1 c2] c3]].
  destruct (PixelSpacing first) as [rs cs].
  destruct (ImagePositionPatient first) as [[p1 p2] p3].
  cbn. eexists _, _, _. split; [reflexivity|]. split; [reflexivity|].
  split; [reflexivity|].
  repeat split; repeat constructor.
Qed.

Lemma affine_builder_witness :
  ∃ transform rotation scaling,
    _ijk_to_patient_xyz_transform_matrix (H := sample_externals)
      [sagittal_slice 7 [[1; 2]; [3; 4]]%Z;
       sagittal_slice 1 [[5; 6]; [7; 8]]%Z;
       sagittal_slice 4 [[9; 10]; [11; 12]]%Z]
    = Ok (transform, rotation, scaling) ∧
    length transform = 4%nat.
Proof.
  destruct (affine_builder (H := sample_externals)
              [sagittal_slice 7 [[1; 2]; [3; 4]]%Z;
               sagittal_slice 1 [[5; 6]; [7; 8]]%Z;
               sagittal_slice 4 [[9; 10]; [11; 12]]%Z]
              [sagittal_slice 1 [[5; 6]; [7; 8]]%Z;
               sagittal_slice 4 [[9; 10]; [11; 12]]%Z;
               sagittal_slice 7 [[1; 2]; [3; 4]]%Z] eq_refl)
    as (first & others & sp & T & R & S & _ & _ & HT & Hrest).
  exists T, R, S. split; [exact HT|].
  destruct (_extract_cosines (ImageOrientationPatient first)) as [[? ?] ?].
  destruct (PixelSpacing first). exact (proj1 Hrest).
Defined.

(** C5, the claim as stated, fails for the rotation matrix: for sagittal
    slices (row cosine (0,1,0), column cosine (0,0,1), normal (1,0,0)) the
    returned rotation has these vectors as its rows; its first column is
    (0,0,1), not the row cosine. *)
Lemma rotation_columns_are_not_the_cosines :
  ∃ transform rotation scaling,
    _ijk_to_patient_xyz_transform_matrix (H := sample_externals)
      [sagittal_slice 7 [[1; 2]; [3; 4]]%Z;
       sagittal_slice 1 [[5; 6]; [7; 8]]%Z;
       sagittal_slice 4 [[9; 10]; [11; 12]]%Z]
    = Ok (transform, rotation, scaling) ∧
    rotation = [[0; 1; 0]; [0; 0; 1]; [1; 0; 0]] ∧
    column rotation 0 3 = [Some 0; Some 0; Some 1] ∧
    column rotation 0 3 ≠ Some <$> vec3_list (0, 1, 0).
Proof.
  eexists _, _, _. split; [reflexivity|]. split; [reflexivity|].
  split; [reflexivity|]. discriminate.
Qed.

(** *** Volume assembly *)

(** The loop writes planes k, k+1, ... and leaves the planes below k. *)
Lemma fill_slices_spec (slice_of : Dataset → ndarray2 Q)
  (s : list Dataset) (V : ndarray3 Q) (k n0 n1 n2 : nat) :
  shape3 V = (n0, n1, n2) → wf3 V → (k + length s ≤ n2)%nat →
  Forall (λ d, shape2 (slice_of d) = (n0, n1) ∧ wf2 (slice_of d)) s →
  ∃ V', fill_slices slice_of V k s = Ok V' ∧
        dtype3 V' = dtype3 V ∧ shape3 V' = shape3 V ∧ wf3 V' ∧
        (∀ q d i j x, s !! q = Some d → at2 (slice_of d) i j = Some x →
                      at3 V' i j (k + q) = Some x) ∧
        (∀ i j k', (k' < k)%nat → at3 V' i j k' = at3 V i j k').
Proof.
  revert V k. induction s as [|d s IH]; intros V k HS HV Hk Hs.
  - exists V. cbn. repeat split; try reflexivity; try assumption.
    intros q d i j x Hq. now rewrite lookup_nil in Hq.
  - apply Forall_cons in Hs as [[Hd Hdwf] Hs]. cbn [length] in Hk.
    destruct (setitem_slice_spec V k (slice_of d) n0 n1 n2)
      as (V1 & HV1 & Ht1 & HS1 & Hwf1 & Hset1 & Hkeep1); try assumption; [lia|].
    destruct (IH V1 (S k)) as (V' & HV' & Ht' & HS' & Hwf' & Hset' & Hkeep');
      try assumption; [congruence | lia |].
    exists V'. cbn [fill_slices]. rewrite HV1. cbn [mbind result_bind].
    split; [exact HV'|]. split; [congruence|]. split; [congruence|].
    split; [exact Hwf'|]. split.
    + intros q d' i j x Hq Hx. destruct q as [|q]; cbn in Hq.
      * injection Hq as <-. rewrite Nat.add_0_r.
        rewrite Hkeep' by lia. now apply Hset1.
      * replace (k + S q)%nat with (S k + q)%nat by lia. eapply Hset'; eauto.
    + intros i j k' Hlt. rewrite Hkeep' by lia. apply Hkeep1. lia.
Qed.

Lemma check_each_ok (ds : list Dataset) (names : list string) :
  check_each ds names = Ok tt →
  ∀ n, n ∈ names → _slice_attribute_equal ds n = Ok tt.
Proof.
  induction names as [|a names IH]; intros Hc n Hn.
  - now apply elem_of_nil in Hn.
  - cbn [check_each] in Hc.
    destruct (_slice_attribute_equal ds a) as [[]|e] eqn:E; [|discriminate].
    cbn in Hc. apply elem_of_cons in Hn as [->|Hn]; [exact E | now apply IH].
Qed.

Lemma validated_rows_columns `{Externals} (d0 : Dataset) (rest : list Dataset) :
  snd (_validate_slices_form_uniform_grid (d0 :: rest)) = Ok tt →
  Forall (λ d, Rows d = Rows d0 ∧ Columns d = Columns d0) (d0 :: rest).
Proof.
  unfold _validate_slices_form_uniform_grid.
  destruct (check_each (d0 :: rest) invariant_properties) as [[]|e] eqn:E;
    [|discriminate].
  intros _. pose proof (check_each_ok _ _ E) as Hall.
  assert (HR : _slice_attribute_equal (d0 :: rest) "Rows" = Ok tt).
  { apply Hall. unfold invariant_properties. set_solver. }
  assert (HC : _slice_attribute_equal (d0 :: rest) "Columns" = Ok tt).
  { apply Hall. unfold invariant_properties. set_solver. }
  constructor; [split; reflexivity|].
  unfold _slice_attribute_equal in HR, HC.
  destruct (forallb _ rest) eqn:ER in HR; [|discriminate].
  destruct (forallb _ rest) eqn:EC in HC; [|discriminate].
  rewrite forallb_forall in ER, EC.
  apply Forall_forall. intros d Hd. apply list_elem_of_In in Hd.
  specialize (ER d Hd). specialize (EC d Hd).
  change (getattr d "Rows") with (Some (ANat (Rows d))) in ER.
  change (getattr d0 "Rows") with (Some (ANat (Rows d0))) in ER.
  change (getattr d "Columns") with (Some (ANat (Columns d))) in EC.
  change (getattr d0 "Columns") with (Some (ANat (Columns d0))) in EC.
  cbn in ER, EC. apply Nat.eqb_eq in ER, EC. auto.
Qed.

Lemma slice_shape_ok (f : Z → Q) (t : dtype) (d d0 : Dataset) :
  pixel_grid_ok d → Rows d = Rows d0 → Columns d = Columns d0 →
  shape2 (nd2_map t f (np_T (pixel_array d))) = (Columns d0, Rows d0) ∧
  wf2 (nd2_map t f (np_T (pixel_array d))).
Proof.
  intros [Hsh Hwf] HR HC. destruct (wf2_np_T _ Hwf) as [HwfT HshT].
  split; [|now apply wf2_nd2_map].
  cbn [nd2_map shape2]. rewrite HshT, Hsh. cbn. congruence.
Qed.

Lemma at2_slice (f : Z → Q) (t : dtype) (d : Dataset) (i j : nat) (r : Z) :
  pixel_grid_ok d → raw d j i = Some r →
  at2 (nd2_map t f (np_T (pixel_array d))) i j = Some (f r).
Proof.
  intros [_ Hwf] Hr. rewrite at2_nd2_map, at2_np_T by exact Hwf.
  unfold raw in Hr. now rewrite Hr.
Qed.

Lemma existsb_perm {A} (p : A → bool) (l l' : list A) :
  Permutation l l' → existsb p l = existsb p l'.
Proof.
  induction 1; cbn; try congruence.
  - destruct (p x), (p y); reflexivity.
Qed.

(** Rescaling is asked for by the presence of either attribute, and by
    nothing else. *)
Lemma requires_rescaling_iff (d : Dataset) :
  _requires_rescaling d = true ↔
  is_Some (RescaleSlope d) ∨ is_Some (RescaleIntercept d).
Proof.
  unfold _requires_rescaling.
  rewrite orb_true_iff, !bool_decide_eq_true. reflexivity.
Qed.

Lemma requires_rescaling_none (d : Dataset) :
  _requires_rescaling d = false ↔
  RescaleSlope d = None ∧ RescaleIntercept d = None.
Proof.
  unfold _requires_rescaling.
  rewrite orb_false_iff, !bool_decide_eq_false, <- !eq_None_not_Some.
  reflexivity.
Qed.

(** C1.  For a non-empty slice list that passes validation, whose order
    resolves and whose pixel grids have the shape their attributes announce:
    the assembled volume has shape (columns, rows, number of slices) and
    plane k holds the transposed grid of the k-th slice in resolved order.
    If some slice has the attribute RescaleSlope or the attribute
    RescaleIntercept, the volume is floating point and every voxel is
    raw * slope + intercept of its own slice, slope 1 and intercept 0
    standing in for a missing attribute; if no slice has either attribute,
    the volume has the dtype of the source pixel grid and every voxel is
    the raw value. *)
Theorem volume_assembly `{Externals} (junk : Q)
  (d0 : Dataset) (rest s : list Dataset) :
  let ds := d0 :: rest in
  snd (_validate_slices_form_uniform_grid ds) = Ok tt →
  _sort_by_slice_spacing ds = Ok s →
  Forall pixel_grid_ok ds →
  ∃ voxels,
    _merge_slice_pixel_arrays junk ds = Ok voxels ∧
    shape3 voxels = (Columns d0, Rows d0, length ds) ∧
    wf3 voxels ∧
    (∀ i j k, (i < Columns d0)%nat → (j < Rows d0)%nat → (k < length ds)%nat →
       ∃ d r, s !! k = Some d ∧ raw d j i = Some r) ∧
    ((∃ d, d ∈ ds ∧
           (is_Some (RescaleSlope d) ∨ is_Some (RescaleIntercept d))) →
     is_floating (dtype3 voxels) = true ∧
     ∀ k d i j r, s !! k = Some d → raw d j i = Some r →
       at3 voxels i j k
       = Some (inject_Z r * default 1 (RescaleSlope d)
               + default 0 (RescaleIntercept d))) ∧
    ((∀ d, d ∈ ds → RescaleSlope d = None ∧ RescaleIntercept d = None) →
     dtype3 voxels = dtype2 (pixel_array d0) ∧
     ∀ k d i j r, s !! k = Some d → raw d j i = Some r →
       at3 voxels i j k = Some (inject_Z r)).
Proof.
  intros ds Hval Hs Hgrid.
  destruct (sort_by_slice_spacing_ok ds s Hs) as (d & r & E & Hp & _).
  clear d r E.
  pose proof (validated_rows_columns d0 rest Hval) as Hrc.
  fold ds in Hrc.
  assert (Hgrid_s : Forall pixel_grid_ok s) by now rewrite Hp.
  assert (Hrc_s : Forall (λ d, Rows d = Rows d0 ∧ Columns d = Columns d0) s)
    by now rewrite Hp.
  assert (Hlen : length s = length ds) by now rewrite Hp.
  assert (Hshape : ∀ d, d ∈ s → ∀ (f : Z → Q) (t : dtype),
    shape2 (nd2_map t f (np_T (pixel_array d))) = (Columns d0, Rows d0)
    ∧ wf2 (nd2_map t f (np_T (pixel_array d)))).
  { intros d Hd f t.
    rewrite Forall_forall in Hgrid_s. rewrite Forall_forall in Hrc_s.
    destruct (Hrc_s d Hd). apply slice_shape_ok; auto. }
  assert (Hpix : ∀ k d, s !! k = Some d → pixel_grid_ok d).
  { intros k d Hk. rewrite Forall_forall in Hgrid_s. apply Hgrid_s.
    apply list_elem_of_lookup. eauto. }
  assert (Hcells : ∀ i j k, (i < Columns d0)%nat → (j < Rows d0)%nat →
            (k < length ds)%nat → ∃ d r, s !! k = Some d ∧ raw d j i = Some r).
  { intros i j k Hi Hj Hk.
    destruct (lookup_lt_is_Some_2 s k) as [d Hd]; [lia|].
    assert (d ∈ s) as Hin by (apply list_elem_of_lookup; eauto).
    rewrite Forall_forall in Hgrid_s. rewrite Forall_forall in Hrc_s.
    destruct (Hrc_s d Hin) as [HR HC]. destruct (Hgrid_s d Hin) as [Hsh Hwf].
    destruct (at2_lt (pixel_array d) j i Hwf) as [r Hr].
    - rewrite Hsh. cbn. lia.
    - rewrite Hsh. cbn. lia.
    - exists d, r. split; [exact Hd | exact Hr]. }
  unfold _merge_slice_pixel_arrays. fold ds. rewrite Hs.
  cbn [mbind result_bind].
  destruct (existsb _requires_rescaling s) eqn:Ex.
  - destruct (np_empty_wf junk (Columns d0) (Rows d0) (length ds) float32)
      as (Hwf0 & Hsh0 & Ht0).
    destruct (fill_slices_spec rescaled_slice s _ 0 _ _ _ Hsh0 Hwf0)
      as (V & HV & Ht & HS & Hwf & Hset & _); [lia | |].
    { apply Forall_forall. intros d Hd. unfold rescaled_slice.
      now apply Hshape. }
    exists V. split; [exact HV|].
    split; [congruence|]. split; [exact Hwf|]. split; [exact Hcells|]. split.
    + intros _. split; [rewrite Ht, Ht0; reflexivity|].
      intros k d i j r Hk Hr. apply (Hset k d i j _ Hk).
      unfold rescaled_slice.
      apply (at2_slice (λ raw, inject_Z raw * default 1 (RescaleSlope d)
                               + default 0 (RescaleIntercept d)));
        [eapply Hpix; eauto | exact Hr].
    + intros Hnone. exfalso.
      apply existsb_exists in Ex as (d & Hd & Hreq).
      apply list_elem_of_In in Hd. rewrite Hp in Hd.
      pose proof (proj2 (requires_rescaling_none d) (Hnone d Hd)).
      congruence.
  - destruct (np_empty_wf junk (Columns d0) (Rows d0) (length ds)
                (dtype2 (pixel_array d0))) as (Hwf0 & Hsh0 & Ht0).
    destruct (fill_slices_spec plain_slice s _ 0 _ _ _ Hsh0 Hwf0)
      as (V & HV & Ht & HS & Hwf & Hset & _); [lia | |].
    { apply Forall_forall. intros d Hd. unfold plain_slice.
      now apply Hshape. }
    exists V. split; [exact HV|].
    split; [congruence|]. split; [exact Hwf|]. split; [exact Hcells|]. split.
    + intros (d & Hd & Hreq). exfalso.
      rewrite <- Hp in Hd. apply list_elem_of_In in Hd.
      apply requires_rescaling_iff in Hreq.
      assert (existsb _requires_rescaling s = true)
        by (apply existsb_exists; eauto).
      congruence.
    + intros _. split; [congruence|].
      intros k d i j r Hk Hr. apply (Hset k d i j _ Hk).
      unfold plain_slice. apply at2_slice; [eapply Hpix; eauto | exact Hr].
Qed.

Lemma volume_assembly_witness :
  ∃ voxels,
    _merge_slice_pixel_arrays (H := sample_externals) 99
      [axial_slice 4 [[1; 2]; [3; 4]]%Z None None;
       axial_slice 0 [[5; 6]; [7; 8]]%Z (Some 2) None;
       axial_slice 2 [[9; 10]; [11; 12]]%Z None (Some 3)] = Ok voxels ∧
    shape3 voxels = (2%nat, 2%nat, 3%nat) ∧
    is_floating (dtype3 voxels) = true.
Proof.
  assert (Hgrid : Forall pixel_grid_ok
            [axial_slice 4 [[1; 2]; [3; 4]]%Z None None;
             axial_slice 0 [[5; 6]; [7; 8]]%Z (Some 2) None;
             axial_slice 2 [[9; 10]; [11; 12]]%Z None (Some 3)])
    by repeat constructor.
  destruct (volume_assembly (H := sample_externals) 99
              (axial_slice 4 [[1; 2]; [3; 4]]%Z None None)
              [axial_slice 0 [[5; 6]; [7; 8]]%Z (Some 2) None;
               axial_slice 2 [[9; 10]; [11; 12]]%Z None (Some 3)]
              [axial_slice 0 [[5; 6]; [7; 8]]%Z (Some 2) None;
               axial_slice 2 [[9; 10]; [11; 12]]%Z None (Some 3);
               axial_slice 4 [[1; 2]; [3; 4]]%Z None None]
              eq_refl eq_refl Hgrid)
    as (voxels & Hm & Hsh & _ & _ & Hfloat & _).
  exists voxels. split; [exact Hm|]. split; [exact Hsh|].
  apply Hfloat.
  exists (axial_slice 0 [[5; 6]; [7; 8]]%Z (Some 2) None).
  split; [right; left | left; now exists 2].
Defined.

(** The same three slices, evaluated: the volume is filled in ascending
    position (z = 0, 2, 4), every slice rescaled with its own slope and
    intercept or the defaults 1 and 0. *)
Lemma volume_assembly_sample :
  _merge_slice_pixel_arrays (H := sample_externals) 99
    [axial_slice 4 [[1; 2]; [3; 4]]%Z None None;
     axial_slice 0 [[5; 6]; [7; 8]]%Z (Some 2) None;
     axial_slice 2 [[9; 10]; [11; 12]]%Z None (Some 3)]
  = Ok (Nd3 float32 (2%nat, 2%nat, 3%nat)
          [[[10; 12; 1]; [14; 14; 3]]; [[12; 13; 2]; [16; 15; 4]]]).
Proof. reflexivity. Qed.

(** *** The tolerance tests *)

(** Case analysis on an absolute value and on a maximum, for [lra]. *)
Ltac case_Qabs t :=
  let a := fresh "a" in
  let Ha := fresh "Ha" in
  destruct (Qlt_le_dec t 0) as [Ha|Ha];
  [ pose proof (Qabs_neg t (Qlt_le_weak _ _ Ha))
  | pose proof (Qabs_pos t Ha) ];
  generalize dependent (Qabs t); intros a; intros.

Ltac case_Qmax x y :=
  let m := fresh "m" in
  destruct (Q.max_spec x y) as [[? ?]|[? ?]];
  generalize dependent (Qmax x y); intros m; intros.

Lemma almost_zero_iff (value abs_tol : Q) :
  0 <= abs_tol → _almost_zero value abs_tol = true ↔ Qabs value <= abs_tol.
Proof.
  intros Htol. unfold _almost_zero, is_close, rel_tol_default.
  rewrite Qle_bool_iff.
  assert (E0 : Qabs 0 == 0) by reflexivity.
  assert (E1 : Qabs (value - 0) == Qabs value).
  { apply Qabs_wd. ring. }
  rewrite E1, E0. clear E0 E1.
  pose proof (Qabs_nonneg value) as Hn.
  generalize dependent (Qabs value). intros v Hn.
  case_Qmax v 0; case_Qmax ((1 # 1000000000) * m) abs_tol; split; intros; lra.
Qed.

Lemma almost_one_iff (value abs_tol : Q) :
  (1 # 100000000) <= abs_tol →
  _almost_one value abs_tol = true ↔ Qabs (value - 1) <= abs_tol.
Proof.
  intros Htol. unfold _almost_one, is_close, rel_tol_default.
  rewrite Qle_bool_iff.
  assert (E0 : Qabs 1 == 1) by reflexivity.
  rewrite E0. clear E0.
  case_Qabs (value - 1); case_Qabs value;
  case_Qmax a0 1; case_Qmax ((1 # 1000000000) * m) abs_tol;
   split; intros; lra.
Qed.

Lemma is_close_sym (a b rel_tol abs_tol : Q) :
  is_close a b rel_tol abs_tol = is_close b a rel_tol abs_tol.
Proof.
  unfold is_close. apply Qleb_comp.
  - rewrite <- (Qabs_opp (a - b)). apply Qabs_wd. ring.
  - rewrite (Q.max_comm (Qabs a) (Qabs b)). reflexivity.
Qed.

(** X1.  For every tolerance of at least 1e-8 (both tolerances the module
    uses, 1e-4 and 1e-8, are), the relative tolerance 1e-9 of is_close never
    decides: _almost_zero(value, tol) holds exactly when |value| <= tol, and
    _almost_one(value, tol) exactly when |value - 1| <= tol.  is_close is
    symmetric in its two numbers. *)
Theorem tolerance_tests_are_absolute (value abs_tol : Q) :
  (1 # 100000000) <= abs_tol →
  (_almost_zero value abs_tol = true ↔ Qabs value <= abs_tol) ∧
  (_almost_one value abs_tol = true ↔ Qabs (value - 1) <= abs_tol) ∧
  (∀ a b rel_tol, is_close a b rel_tol abs_tol = is_close b a rel_tol abs_tol).
Proof.
  intros Htol. split; [|split].
  - apply almost_zero_iff. lra.
  - now apply almost_one_iff.
  - intros a b rel_tol. apply is_close_sym.
Qed.

Lemma tolerance_tests_are_absolute_witness :
  (_almost_one (10001 # 10000) hard_tol = true ↔
   Qabs ((10001 # 10000) - 1) <= hard_tol).
Proof.
  apply (tolerance_tests_are_absolute (10001 # 10000) hard_tol).
  unfold hard_tol, Qle. simpl. lia.
Defined.

Lemma hard_tol_ok : (1 # 100000000) <= hard_tol.
Proof. unfold hard_tol. lra. Qed.

Lemma soft_tol_ok : (1 # 100000000) <= soft_tol.
Proof. unfold soft_tol. lra. Qed.

Lemma negb_almost_zero (v tol : Q) :
  0 <= tol → negb (_almost_zero v tol) = true ↔ tol < Qabs v.
Proof.
  intros Ht. rewrite negb_true_iff.
  destruct (_almost_zero v tol) eqn:E.
  - apply almost_zero_iff in E; [|exact Ht]. split; [discriminate | lra].
  - split; [|reflexivity]. intros _. apply Qnot_le_lt. intros Hle.
    apply (almost_zero_iff v tol Ht) in Hle. congruence.
Qed.

Lemma negb_almost_one (v tol : Q) :
  (1 # 100000000) <= tol → negb (_almost_one v tol) = true ↔ tol < Qabs (v - 1).
Proof.
  intros Ht. rewrite negb_true_iff.
  destruct (_almost_one v tol) eqn:E.
  - apply almost_one_iff in E; [|exact Ht]. split; [discriminate | lra].
  - split; [|reflexivity]. intros _. apply Qnot_le_lt. intros Hle.
    apply (almost_one_iff v tol Ht) in Hle. congruence.
Qed.

(** X2.  The orientation check ends normally exactly when the dot product of
    the two direction cosines is within 1e-4 of 0 and the norm of each is
    within 1e-4 of 1.  The dot product is tested first: beyond 1e-4 the call
    raises the non-orthogonality error, without any warning, whatever the
    norms are. *)
Theorem orientation_accepted_iff `{Externals} (image_orientation : vec3 * vec3) :
  let row_cosine := fst image_orientation in
  let column_cosine := snd image_orientation in
  (snd (_validate_image_orientation image_orientation) = Ok tt ↔
   Qabs (np_dot row_cosine column_cosine) <= 1 # 10000 ∧
   Qabs (np_linalg_norm row_cosine - 1) <= 1 # 10000 ∧
   Qabs (np_linalg_norm column_cosine - 1) <= 1 # 10000) ∧
  (1 # 10000 < Qabs (np_dot row_cosine column_cosine) →
   _validate_image_orientation image_orientation
   = ([], Raise (ValueError "Non-orthogonal direction cosines"))).
Proof.
  intros row_cosine column_cosine.
  unfold _validate_image_orientation, _extract_cosines.
  fold row_cosine column_cosine. cbv zeta.
  pose proof (almost_zero_iff (np_dot row_cosine column_cosine) hard_tol) as Hd.
  pose proof (almost_one_iff (np_linalg_norm row_cosine) hard_tol hard_tol_ok)
    as Hr.
  pose proof (almost_one_iff (np_linalg_norm column_cosine) hard_tol hard_tol_ok)
    as Hc.
  change hard_tol with (1 # 10000) in *.
  destruct (_almost_zero _ (1 # 10000)) eqn:Ed; cbn [negb].
  - destruct (_almost_one (np_linalg_norm row_cosine) (1 # 10000)) eqn:Er;
      cbn [negb].
    + destruct (_almost_one (np_linalg_norm column_cosine) (1 # 10000)) eqn:Ec;
        cbn [negb snd].
      * split.
        -- split; [intros _|reflexivity].
           split; [apply Hd; [lra | reflexivity]|].
           split; [now apply Hr | now apply Hc].
        -- intros Hlt. assert (Qabs (np_dot row_cosine column_cosine) <= 1 # 10000)
             by (apply Hd; [lra | reflexivity]). lra.
      * split.
        -- split; [discriminate|]. intros (_ & _ & Hc'). apply Hc in Hc'.
           discriminate.
        -- intros Hlt. assert (Qabs (np_dot row_cosine column_cosine) <= 1 # 10000)
             by (apply Hd; [lra | reflexivity]). lra.
    + cbn [snd]. split.
      * split; [discriminate|]. intros (_ & Hr' & _). apply Hr in Hr'.
        discriminate.
      * intros Hlt. assert (Qabs (np_dot row_cosine column_cosine) <= 1 # 10000)
          by (apply Hd; [lra | reflexivity]). lra.
  - cbn [snd]. split; [|reflexivity].
    split; [discriminate|]. intros (Hd' & _). apply Hd in Hd'; [|lra].
    discriminate.
Qed.

Lemma orientation_ok_warnings `{Externals} (image_orientation : vec3 * vec3) :
  let row_cosine := fst image_orientation in
  let column_cosine := snd image_orientation in
  snd (_validate_image_orientation image_orientation) = Ok tt →
  fst (_validate_image_orientation image_orientation)
  = ((if negb (_almost_zero (np_dot row_cosine column_cosine) soft_tol)
      then [NotQuiteOrthogonal] else []) ++
     (if negb (_almost_one (np_linalg_norm row_cosine) soft_tol)
      then [RowNotQuiteUnit] else [])) ++
    (if negb (_almost_one (np_linalg_norm column_cosine) soft_tol)
     then [ColumnNotQuiteUnit] else []).
Proof.
  intros row_cosine column_cosine.
  unfold _validate_image_orientation, _extract_cosines.
  fold row_cosine column_cosine. cbv zeta.
  destruct (negb (_almost_zero _ hard_tol)); [discriminate|].
  destruct (negb (_almost_one (np_linalg_norm row_cosine) hard_tol));
    [discriminate|].
  destruct (negb (_almost_one (np_linalg_norm column_cosine) hard_tol));
    [discriminate|].
  reflexivity.
Qed.

(** X3.  When the orientation check ends normally, it has warned about
    non-orthogonality exactly when the dot product exceeds 1e-8 in absolute
    value, about the row cosine exactly when its norm is more than 1e-8 off
    1, and about the column cosine likewise; the warnings come in this
    order, each at most once, and there are no others. *)
Theorem orientation_warnings `{Externals} (image_orientation : vec3 * vec3) :
  let row_cosine := fst image_orientation in
  let column_cosine := snd image_orientation in
  snd (_validate_image_orientation image_orientation) = Ok tt →
  let w := fst (_validate_image_orientation image_orientation) in
  (NotQuiteOrthogonal ∈ w ↔
   1 # 100000000 < Qabs (np_dot row_cosine column_cosine)) ∧
  (RowNotQuiteUnit ∈ w ↔
   1 # 100000000 < Qabs (np_linalg_norm row_cosine - 1)) ∧
  (ColumnNotQuiteUnit ∈ w ↔
   1 # 100000000 < Qabs (np_linalg_norm column_cosine - 1)) ∧
  sublist w [NotQuiteOrthogonal; RowNotQuiteUnit; ColumnNotQuiteUnit].
Proof.
  intros row_cosine column_cosine Hok w. subst w.
  rewrite (orientation_ok_warnings image_orientation Hok).
  fold row_cosine column_cosine.
  pose proof (negb_almost_zero (np_dot row_cosine column_cosine) soft_tol) as Hd.
  pose proof (negb_almost_one (np_linalg_norm row_cosine) soft_tol soft_tol_ok)
    as Hr.
  pose proof (negb_almost_one (np_linalg_norm column_cosine) soft_tol
                soft_tol_ok) as Hc.
  change soft_tol with (1 # 100000000) in *.
  rewrite <- Hd, <- Hr, <- Hc by lra. clear Hd Hr Hc.
  destruct (negb (_almost_zero _ _)),
    (negb (_almost_one (np_linalg_norm row_cosine) _)),
    (negb (_almost_one (np_linalg_norm column_cosine) _)); cbn [app];
    (split; [|split; [|split]]);
    rewrite ?elem_of_cons, ?elem_of_nil;
    try (split; intros; intuition (try discriminate; auto));
    repeat first [apply sublist_skip | apply sublist_cons | apply sublist_nil].
Qed.

Lemma orientation_warnings_witness :
  NotQuiteOrthogonal
  ∈ fst (_validate_image_orientation (H := sample_externals)
           ((1, 0, 0), (1 # 100000, 1, 0))).
Proof.
  apply (orientation_warnings (H := sample_externals)
           ((1, 0, 0), (1 # 100000, 1, 0))).
  - vm_compute. reflexivity.
  - vm_compute. reflexivity.
Defined.

(** *** The attribute checks of the validator *)

Lemma slice_attribute_equal_ok (d0 : Dataset) (rest : list Dataset)
  (property_name : string) :
  _slice_attribute_equal (d0 :: rest) property_name = Ok tt ↔
  ∀ d, d ∈ rest →
    option_attr_eqb (getattr d property_name) (getattr d0 property_name) = true.
Proof.
  unfold _slice_attribute_equal.
  destruct (forallb _ rest) eqn:E.
  - split; [intros _|reflexivity]. rewrite forallb_forall in E.
    intros d Hd. apply E. now apply list_elem_of_In.
  - split; [discriminate|]. intros Hall.
    assert (forallb (λ dataset, option_attr_eqb (getattr dataset property_name)
                      (getattr d0 property_name)) rest = true) as E'.
    { apply forallb_forall. intros d Hd. apply Hall. now apply list_elem_of_In. }
    congruence.
Qed.

Lemma validated_check_each `{Externals} (ds : list Dataset) :
  snd (_validate_slices_form_uniform_grid ds) = Ok tt →
  check_each ds invariant_properties = Ok tt.
Proof.
  unfold _validate_slices_form_uniform_grid.
  destruct (check_each ds invariant_properties) as [[]|e]; [reflexivity|].
  discriminate.
Qed.

Lemma validated_attribute `{Externals} (d0 : Dataset) (rest : list Dataset)
  (property_name : string) (d : Dataset) :
  snd (_validate_slices_form_uniform_grid (d0 :: rest)) = Ok tt →
  property_name ∈ invariant_properties → d ∈ rest →
  option_attr_eqb (getattr d property_name) (getattr d0 property_name) = true.
Proof.
  intros Hv Hn Hd. apply validated_check_each in Hv.
  pose proof (check_each_ok _ _ Hv property_name Hn) as Hp.
  now apply (slice_attribute_equal_ok d0 rest property_name).
Qed.

(** X4.  In a slice list that passes validation every slice agrees with the
    first one on all eleven compared attributes: modality, SOP class and
    series UID, rows and columns, the six orientation numbers and the two
    pixel spacings (as numbers), pixel representation, bits allocated, bits
    stored and high bit. *)
Theorem validated_attributes_agree `{Externals}
  (d0 : Dataset) (rest : list Dataset) (d : Dataset) :
  snd (_validate_slices_form_uniform_grid (d0 :: rest)) = Ok tt → d ∈ rest →
  Modality d = Modality d0 ∧
  SOPClassUID d = SOPClassUID d0 ∧
  SeriesInstanceUID d = SeriesInstanceUID d0 ∧
  Rows d = Rows d0 ∧
  Columns d = Columns d0 ∧
  orientation_eq (ImageOrientationPatient d) (ImageOrientationPatient d0) ∧
  fst (PixelSpacing d) == fst (PixelSpacing d0) ∧
  snd (PixelSpacing d) == snd (PixelSpacing d0) ∧
  PixelRepresentation d = PixelRepresentation d0 ∧
  BitsAllocated d = BitsAllocated d0 ∧
  BitsStored d = BitsStored d0 ∧
  HighBit d = HighBit d0.
Proof.
  intros Hv Hd.
  assert (Hattr : ∀ n, n ∈ invariant_properties →
            option_attr_eqb (getattr d n) (getattr d0 n) = true).
  { intros n Hn. exact (validated_attribute d0 rest n d Hv Hn Hd). }
  unfold invariant_properties in Hattr.
  pose proof (Hattr "Modality"%string ltac:(set_solver)) as H1.
  pose proof (Hattr "SOPClassUID"%string ltac:(set_solver)) as H2.
  pose proof (Hattr "SeriesInstanceUID"%string ltac:(set_solver)) as H3.
  pose proof (Hattr "Rows"%string ltac:(set_solver)) as H4.
  pose proof (Hattr "Columns"%string ltac:(set_solver)) as H5.
  pose proof (Hattr "ImageOrientationPatient"%string ltac:(set_solver)) as H6.
  pose proof (Hattr "PixelSpacing"%string ltac:(set_solver)) as H7.
  pose proof (Hattr "PixelRepresentation"%string ltac:(set_solver)) as H8.
  pose proof (Hattr "BitsAllocated"%string ltac:(set_solver)) as H9.
  pose proof (Hattr "BitsStored"%string ltac:(set_solver)) as H10.
  pose proof (Hattr "HighBit"%string ltac:(set_solver)) as H11.
  clear Hattr.
  cbn in H1, H2, H3, H4, H5, H8, H9, H10, H11.
  apply String.eqb_eq in H1, H2, H3. apply Nat.eqb_eq in H4, H5.
  apply Z.eqb_eq in H8, H9, H10, H11.
  repeat (split; [assumption|]).
  split; [|split; [|split; [|repeat split; assumption]]].
  - change (getattr d "ImageOrientationPatient")
      with (Some (AFloats (vec3_list (fst (ImageOrientationPatient d)) ++
                           vec3_list (snd (ImageOrientationPatient d)))))
      in H6.
    change (getattr d0 "ImageOrientationPatient")
      with (Some (AFloats (vec3_list (fst (ImageOrientationPatient d0)) ++
                           vec3_list (snd (ImageOrientationPatient d0)))))
      in H6.
    destruct (ImageOrientationPatient d) as [[[a1 a2] a3] [[b1 b2] b3]].
    destruct (ImageOrientationPatient d0) as [[[a1' a2'] a3'] [[b1' b2'] b3']].
    cbn in H6. rewrite !andb_true_iff, !Qeq_bool_iff in H6.
    unfold orientation_eq, vec3_eq. cbn. tauto.
  - change (getattr d "PixelSpacing")
      with (Some (AFloats [fst (PixelSpacing d); snd (PixelSpacing d)])) in H7.
    change (getattr d0 "PixelSpacing")
      with (Some (AFloats [fst (PixelSpacing d0); snd (PixelSpacing d0)])) in H7.
    cbn in H7. rewrite !andb_true_iff, !Qeq_bool_iff in H7. tauto.
  - change (getattr d "PixelSpacing")
      with (Some (AFloats [fst (PixelSpacing d); snd (PixelSpacing d)])) in H7.
    change (getattr d0 "PixelSpacing")
      with (Some (AFloats [fst (PixelSpacing d0); snd (PixelSpacing d0)])) in H7.
    cbn in H7. rewrite !andb_true_iff, !Qeq_bool_iff in H7. tauto.
Qed.

Lemma validated_attributes_agree_witness :
  Rows (axial_slice 2 [[9; 10]; [11; 12]]%Z None None)
  = Rows (axial_slice 0 [[5; 6]; [7; 8]]%Z None None) ∧
  orientation_eq
    (ImageOrientationPatient (axial_slice 2 [[9; 10]; [11; 12]]%Z None None))
    (ImageOrientationPatient (axial_slice 0 [[5; 6]; [7; 8]]%Z None None)).
Proof.
  destruct (validated_attributes_agree (H := sample_externals)
              (axial_slice 0 [[5; 6]; [7; 8]]%Z None None)
              [axial_slice 2 [[9; 10]; [11; 12]]%Z None None;
               axial_slice 4 [[1; 2]; [3; 4]]%Z None None]
              (axial_slice 2 [[9; 10]; [11; 12]]%Z None None))
    as (_ & _ & _ & HR & _ & HO & _).
  - vm_compute. reflexivity.
  - left.
  - split; [exact HR | exact HO].
Defined.

Lemma check_each_raises (d0 : Dataset) (rest : list Dataset)
  (names : list string) (name : string) (d : Dataset) :
  name ∈ names → d ∈ rest →
  option_attr_eqb (getattr d name) (getattr d0 name) = false →
  ∃ name' d', name' ∈ names ∧ d' ∈ rest ∧
    option_attr_eqb (getattr d' name') (getattr d0 name') = false ∧
    check_each (d0 :: rest) names = Raise (GridInconsistency name').
Proof.
  intros Hn Hd Hne. induction names as [|a names IH].
  - now apply elem_of_nil in Hn.
  - cbn [check_each].
    destruct (_slice_attribute_equal (d0 :: rest) a) as [[]|e] eqn:E.
    + apply elem_of_cons in Hn as [->|Hn].
      * exfalso. rewrite slice_attribute_equal_ok in E.
        rewrite (E d Hd) in Hne. discriminate.
      * destruct (IH Hn) as (name' & d' & Hin & Hd' & Hne' & Hc).
        exists name', d'. split; [now right|]. repeat split; assumption.
    + unfold _slice_attribute_equal in E.
      destruct (forallb _ rest) eqn:Ef in E; [discriminate|].
      injection E as <-.
      assert (∃ d', d' ∈ rest ∧
                option_attr_eqb (getattr d' a) (getattr d0 a) = false)
        as (d' & Hd' & Hne').
      { clear -Ef. induction rest as [|x rest IH]; [discriminate|].
        cbn [forallb] in Ef. apply andb_false_iff in Ef as [Ef|Ef].
        - exists x. split; [left | exact Ef].
        - destruct (IH Ef) as (d' & Hd' & Hne'). exists d'.
          split; [now right | exact Hne']. }
      exists a, d'. split; [left|]. repeat split; assumption.
Qed.

(** X5.  If some slice differs from the first one in one of the eleven
    compared attributes, validation raises the ValueError that names a
    differing attribute, before the orientation is looked at and without any
    warning, and combine_slices ends with the same error. *)
Theorem attribute_mismatch_is_raised `{Externals} (junk : Q)
  (d0 : Dataset) (rest : list Dataset) (name : string) (d : Dataset) :
  name ∈ invariant_properties → d ∈ rest →
  option_attr_eqb (getattr d name) (getattr d0 name) = false →
  ∃ name' d', name' ∈ invariant_properties ∧ d' ∈ rest ∧
    option_attr_eqb (getattr d' name') (getattr d0 name') = false ∧
    _validate_slices_form_uniform_grid (d0 :: rest)
    = ([], Raise (GridInconsistency name')) ∧
    combine_slices junk (d0 :: rest) = ([], Raise (GridInconsistency name')).
Proof.
  intros Hn Hd Hne.
  destruct (check_each_raises d0 rest invariant_properties name d Hn Hd Hne)
    as (name' & d' & Hin & Hd' & Hne' & Hc).
  exists name', d'. repeat (split; [assumption|]).
  assert (Hv : _validate_slices_form_uniform_grid (d0 :: rest)
               = ([], Raise (GridInconsistency name'))).
  { unfold _validate_slices_form_uniform_grid. now rewrite Hc. }
  split; [exact Hv|]. unfold combine_slices. now rewrite Hv.
Qed.

Lemma attribute_mismatch_is_raised_witness :
  ∃ name', combine_slices (H := sample_externals) 0
             [axial_slice 0 [[5; 6]; [7; 8]]%Z None None;
              sagittal_slice 2 [[9; 10]; [11; 12]]%Z]
           = ([], Raise (GridInconsistency name')).
Proof.
  destruct (attribute_mismatch_is_raised (H := sample_externals) 0
              (axial_slice 0 [[5; 6]; [7; 8]]%Z None None)
              [sagittal_slice 2 [[9; 10]; [11; 12]]%Z]
              "BitsStored" (sagittal_slice 2 [[9; 10]; [11; 12]]%Z))
    as (name' & _ & _ & _ & _ & _ & Hc).
  - unfold invariant_properties. repeat first [left | right].
  - left.
  - reflexivity.
  - exists name'. exact Hc.
Defined.

Lemma check_each_single (d : Dataset) (names : list string) :
  check_each [d] names = Ok tt.
Proof. induction names as [|a names IH]; [reflexivity|]. exact IH. Qed.

(** X6.  A series of exactly one slice is never combined: the attribute
    checks pass trivially, and when the orientation passes too, the spacing
    check indexes the empty list of steps and IndexError escapes from
    combine_slices. *)
Theorem single_slice_is_rejected `{Externals} (junk : Q) (d : Dataset) :
  (∃ e, snd (combine_slices junk [d]) = Raise e) ∧
  (snd (_validate_image_orientation (ImageOrientationPatient d)) = Ok tt →
   snd (combine_slices junk [d]) = Raise IndexError).
Proof.
  unfold combine_slices, _validate_slices_form_uniform_grid.
  rewrite check_each_single.
  destruct (_validate_image_orientation (ImageOrientationPatient d))
    as [w [[]|e]]; cbn.
  - split; [eauto | reflexivity].
  - split; [eauto | discriminate].
Qed.

(** *** Spacing *)

Lemma sorted_ends (x z : Q) (l : list Q) :
  StronglySorted Qle (x :: l ++ [z]) →
  Forall (λ k, x <= k ∧ k <= z) (x :: l ++ [z]).
Proof.
  revert x. induction l as [|y l IH]; intros x Hs.
  - apply StronglySorted_inv in Hs as [_ Hall].
    apply Forall_cons in Hall as [Hxz _].
    repeat constructor; lra.
  - apply StronglySorted_inv in Hs as [Hs Hall].
    specialize (IH y Hs).
    assert (Hxy : x <= y) by (now apply Forall_cons in Hall as [? _]).
    assert (Hyz : y <= z) by (apply Forall_cons in IH as [[_ ?] _]; assumption).
    constructor; [lra|].
    eapply Forall_impl; [exact IH|]. cbn. intros k [? ?]. lra.
Qed.

Lemma two_or_more_ends (ks : list Q) :
  (2 <= length ks)%nat → ∃ x l z, ks = x :: l ++ [z].
Proof.
  destruct ks as [|x ks]; cbn; [lia|]. intros Hlen.
  destruct (exists_last (l := ks)) as (l & z & ->).
  - destruct ks; [cbn in Hlen; lia | discriminate].
  - eauto.
Qed.

(** X7.  For two or more slices the derived slice spacing is the distance
    between the lowest and the highest through-plane position divided by the
    number of slices minus one, and it is never negative: the mean of the
    consecutive steps telescopes. *)
Theorem spacing_is_extent_over_steps (d0 d1 : Dataset) (rest : list Dataset) :
  let ds := d0 :: d1 :: rest in
  let keys := map (slice_key (ImageOrientationPatient d0)) ds in
  ∃ lo hi spacing,
    lo ∈ keys ∧ hi ∈ keys ∧ Forall (λ k, lo <= k ∧ k <= hi) keys ∧
    _slice_spacing ds = Ok spacing ∧
    spacing == (hi - lo) / inject_Z (Z.of_nat (length ds - 1)) ∧
    0 <= spacing.
Proof.
  intros ds keys.
  pose proof (sorted_perm keys) as Hp.
  pose proof (sorted_sorted keys) as Hs.
  destruct (two_or_more_ends (sorted keys)) as (x & l & z & E).
  { rewrite sorted_length. subst keys ds. cbn. lia. }
  rewrite E in Hp, Hs.
  pose proof (sorted_ends x z l Hs) as Hends.
  assert (Hlen : S (length l) = (length ds - 1)%nat).
  { apply Permutation_length in Hp. subst keys ds.
    cbn in Hp |- *. rewrite length_app in Hp. cbn in Hp.
    rewrite length_map in Hp. lia. }
  exists x, z, (np_mean (np_diff (x :: l ++ [z]))).
  split; [rewrite <- Hp; left|].
  split; [rewrite <- Hp; right; apply elem_of_app; right; left|].
  split; [now rewrite <- Hp|].
  split.
  { unfold _slice_spacing. subst ds. cbn [length Nat.ltb Nat.leb].
    rewrite slice_positions_cons. cbn [mbind result_bind].
    fold keys. now rewrite E. }
  rewrite np_mean_np_diff, Hlen.
  split; [reflexivity|].
  apply Forall_cons in Hends as [_ Hends].
  assert (Hxz : x <= z).
  { rewrite Forall_forall in Hends.
    destruct (Hends z) as [? _]; [apply elem_of_app; right; left|assumption]. }
  apply Qle_shift_div_l.
  - rewrite <- Hlen. change 0 with (inject_Z 0). rewrite <- Zlt_Qlt. lia.
  - lra.
Qed.

(** *** Ties *)

Section Ties.
Context `{Externals}.

Lemma insert_item_raises (x : Q * Dataset) (l : list (Q * Dataset)) (e : exn) :
  insert_item x l = Raise e → e = TypeError.
Proof.
  induction l as [|y l IH]; cbn; [discriminate|].
  unfold tuple_lt. destruct (fst y ?= fst x).
  - destruct (dataset_eq (snd y) (snd x)); cbn; congruence.
  - cbn. destruct (insert_item x l) as [r|e']; cbn; [discriminate|].
    intros [= <-]. now apply IH.
  - cbn. discriminate.
Qed.

Lemma sorted_items_raises (l : list (Q * Dataset)) (e : exn) :
  sorted_items l = Raise e → e = TypeError.
Proof.
  induction l as [|x l IH]; cbn; [discriminate|].
  destruct (sorted_items l) as [s|e']; cbn.
  - apply insert_item_raises.
  - intros [= <-]. now apply IH.
Qed.

Lemma insert_item_tie (x : Q * Dataset) (s : list (Q * Dataset)) :
  StronglySorted le_fst s →
  (∃ y, y ∈ s ∧ fst y == fst x) →
  (∀ y, y ∈ s → fst y == fst x → dataset_eq (snd y) (snd x) = false) →
  insert_item x s = Raise TypeError.
Proof.
  induction 1 as [|y s Hs IH Hall]; intros (t & Ht & Hkey) Hne.
  - now apply elem_of_nil in Ht.
  - cbn [insert_item]. unfold tuple_lt.
    destruct (fst y ?= fst x) eqn:E.
    + apply Qeq_alt in E. rewrite (Hne y); [reflexivity | left | exact E].
    + apply Qlt_alt in E. cbn.
      rewrite IH; [reflexivity| |].
      * apply elem_of_cons in Ht as [->|Ht]; [lra|]. eauto.
      * intros y' Hy'. apply Hne. now right.
    + apply Qgt_alt in E. exfalso.
      apply elem_of_cons in Ht as [->|Ht]; [lra|].
      rewrite Forall_forall in Hall. specialize (Hall t Ht).
      unfold le_fst in Hall. lra.
Qed.

Lemma sorted_items_tie (key : Dataset → Q) (l : list Dataset) (a b : Dataset) :
  a ∈ l → b ∈ l → a ≠ b → key a == key b →
  (∀ x y, x ∈ l → y ∈ l → x ≠ y → key x == key y → dataset_eq x y = false) →
  sorted_items (map (tag key) l) = Raise TypeError.
Proof.
  revert a b. induction l as [|x l IH]; intros a b Ha Hb Hab Hkey Hne.
  - now apply elem_of_nil in Ha.
  - cbn [map sorted_items].
    assert (IH' : ∀ a b, a ∈ l → b ∈ l → a ≠ b → key a == key b →
              sorted_items (map (tag key) l) = Raise TypeError).
    { intros a' b' Ha' Hb' Hab' Hk'. apply (IH a' b'); try assumption.
      intros u v Hu Hv. apply Hne; now right. }
    destruct (sorted_items (map (tag key) l)) as [s|e] eqn:Es; cbn.
    + destruct (sorted_items_ok _ s Es) as [Hp Hsorted].
      assert (∃ y, y ∈ l ∧ y ≠ x ∧ key y == key x) as (y & Hy & Hneq & Hyx).
      { apply elem_of_cons in Ha as [->|Ha];
          apply elem_of_cons in Hb as [->|Hb].
        - congruence.
        - exists b. split; [exact Hb|]. split; [congruence | now symmetry].
        - exists a. split; [exact Ha|]. split; [congruence | exact Hkey].
        - specialize (IH' a b Ha Hb Hab Hkey). discriminate. }
      apply insert_item_tie; [exact Hsorted| |].
      * exists (tag key y). split; [|exact Hyx].
        rewrite Hp. apply list_elem_of_fmap. now exists y.
      * intros t Ht Hk. rewrite Hp in Ht.
        apply list_elem_of_fmap in Ht as (y' & -> & Hy'). cbn [tag fst snd] in *.
        apply Hne; [now right | left | | exact Hk].
        intros ->. specialize (IH' y x Hy Hy' Hneq Hyx). discriminate.
    + f_equal. exact (sorted_items_raises _ e Es).
Qed.

End Ties.

(** X8.  If two different slices of the list project to the same
    through-plane position, and pydicom finds no two different slices of the
    list equal, then sorted(zip(positions, datasets)) is left comparing two
    datasets: _sort_by_slice_spacing raises TypeError, and so do the volume
    merge and the affine builder that call it. *)
Theorem tied_slices_raise_TypeError `{Externals} (junk : Q)
  (d0 : Dataset) (rest : list Dataset) (a b : Dataset) :
  let ds := d0 :: rest in
  let key := slice_key (ImageOrientationPatient d0) in
  a ∈ ds → b ∈ ds → a ≠ b → key a == key b →
  (∀ x y, x ∈ ds → y ∈ ds → x ≠ y → key x == key y → dataset_eq x y = false) →
  _sort_by_slice_spacing ds = Raise TypeError ∧
  _merge_slice_pixel_arrays junk ds = Raise TypeError ∧
  _ijk_to_patient_xyz_transform_matrix ds = Raise TypeError.
Proof.
  intros ds key Ha Hb Hab Hkey Hne.
  assert (Hs : _sort_by_slice_spacing ds = Raise TypeError).
  { unfold _sort_by_slice_spacing. subst ds. rewrite slice_positions_cons.
    cbn [mbind result_bind]. fold key. rewrite zip_tag.
    now rewrite (sorted_items_tie key (d0 :: rest) a b). }
  split; [exact Hs|]. split.
  - unfold _merge_slice_pixel_arrays. fold ds. now rewrite Hs.
  - unfold _ijk_to_patient_xyz_transform_matrix. now rewrite Hs.
Qed.

Lemma tied_slices_raise_TypeError_witness :
  _sort_by_slice_spacing (H := sample_externals)
    [axial_slice 0 [[1; 2]; [3; 4]]%Z None None;
     axial_slice 2 [[5; 6]; [7; 8]]%Z None None;
     axial_slice 0 [[9; 10]; [11; 12]]%Z None None] = Raise TypeError.
Proof.
  refine (proj1 (tied_slices_raise_TypeError (H := sample_externals) 0
            (axial_slice 0 [[1; 2]; [3; 4]]%Z None None)
            [axial_slice 2 [[5; 6]; [7; 8]]%Z None None;
             axial_slice 0 [[9; 10]; [11; 12]]%Z None None]
            (axial_slice 0 [[1; 2]; [3; 4]]%Z None None)
            (axial_slice 0 [[9; 10]; [11; 12]]%Z None None) _ _ _ _ _)).
  - left.
  - right. right. left.
  - discriminate.
  - reflexivity.
  - reflexivity.
Defined.

(** *** What a passed validation says about the positions *)

Lemma np_diff_nonneg (ks : list Q) :
  StronglySorted Qle ks → Forall (λ d, 0 <= d) (np_diff ks).
Proof.
  induction 1 as [|x ks Hs IH Hall]; [constructor|].
  destruct ks as [|y ks]; [constructor|].
  change (np_diff (x :: y :: ks)) with ((y - x) :: np_diff (y :: ks)).
  constructor; [|exact IH].
  apply Forall_cons in Hall as [Hxy _]. lra.
Qed.

Lemma np_diff_pos_strict (ks : list Q) :
  Forall (λ d, 0 < d) (np_diff ks) → StronglySorted Qlt ks.
Proof.
  induction ks as [|x ks IH]; [constructor|].
  destruct ks as [|y ks]; [repeat constructor|].
  change (np_diff (x :: y :: ks)) with ((y - x) :: np_diff (y :: ks)).
  intros Hall. apply Forall_cons in Hall as [Hxy Hall].
  specialize (IH Hall). constructor; [exact IH|].
  constructor; [lra|].
  apply StronglySorted_inv in IH as [_ Hy].
  eapply Forall_impl; [exact Hy|]. cbn. intros z Hz. lra.
Qed.

Lemma strict_distinct (ks : list Q) : StronglySorted Qlt ks → distinct ks.
Proof.
  induction 1 as [|x ks Hs IH Hall]; cbn; [trivial|].
  split; [|exact IH]. eapply Forall_impl; [exact Hall|].
  cbn. intros y Hy E. lra.
Qed.

Lemma np_diff_zero_equal (ks : list Q) :
  Forall (λ d, d == 0) (np_diff ks) → ∀ a b, a ∈ ks → b ∈ ks → a == b.
Proof.
  induction ks as [|x ks IH]; intros Hall a b Ha Hb.
  - now apply elem_of_nil in Ha.
  - destruct ks as [|y ks].
    + apply list_elem_of_singleton in Ha, Hb. subst. reflexivity.
    + change (np_diff (x :: y :: ks)) with ((y - x) :: np_diff (y :: ks))
        in Hall.
      apply Forall_cons in Hall as [Hxy Hall]. specialize (IH Hall).
      assert (Hy : ∀ c, c ∈ x :: y :: ks → c == y).
      { intros c Hc. apply elem_of_cons in Hc as [->|Hc]; [lra|].
        apply IH; [exact Hc | left]. }
      rewrite (Hy a Ha), (Hy b Hb). reflexivity.
Qed.

Lemma check_ok_inv (slice_positions : list Q) :
  snd (_check_for_missing_slices slice_positions) = Ok tt →
  ∃ d0 dl, np_diff (sorted slice_positions) = d0 :: dl ∧
           ∀ d, In d (d0 :: dl) → ¬ deviates (1 # 10) d0 d.
Proof.
  unfold _check_for_missing_slices.
  destruct (np_diff (sorted slice_positions)) as [|d0 dl] eqn:E;
    [discriminate|]. cbv zeta.
  destruct (np_allclose (d0 :: dl) d0 0 (1 # 10)) eqn:Ea; [|discriminate].
  intros _. exists d0, dl. split; [reflexivity|].
  now apply np_allclose_true.
Qed.

Lemma validated_check `{Externals} (d0 : Dataset) (rest : list Dataset) :
  snd (_validate_slices_form_uniform_grid (d0 :: rest)) = Ok tt →
  snd (_check_for_missing_slices
         (map (slice_key (ImageOrientationPatient d0)) (d0 :: rest))) = Ok tt.
Proof.
  unfold _validate_slices_form_uniform_grid.
  destruct (check_each (d0 :: rest) invariant_properties) as [[]|e];
    [|discriminate].
  destruct (_validate_image_orientation (ImageOrientationPatient d0))
    as [w [[]|e]]; [|discriminate].
  rewrite slice_positions_cons.
  destruct (_check_for_missing_slices _) as [w' r']. cbn. trivial.
Qed.

Lemma positions_equal_or_distinct (positions : list Q) :
  snd (_check_for_missing_slices positions) = Ok tt →
  (∀ a b, a ∈ positions → b ∈ positions → a == b) ∨ distinct positions.
Proof.
  intros Hc. destruct (check_ok_inv positions Hc) as (d0 & dl & Ed & Hall).
  pose proof (sorted_perm positions) as Hp.
  pose proof (sorted_sorted positions) as Hs.
  pose proof (np_diff_nonneg _ Hs) as Hnn. rewrite Ed in Hnn.
  assert (H0 : 0 <= d0) by (now apply Forall_cons in Hnn as [? _]).
  destruct (Qlt_le_dec 0 d0) as [Hpos|Hzero].
  - right. apply (distinct_perm (sorted positions)); [exact Hp|].
    apply strict_distinct, np_diff_pos_strict. rewrite Ed.
    apply Forall_forall. intros d Hd. apply list_elem_of_In in Hd.
    specialize (Hall d Hd). unfold deviates in Hall.
    rewrite (Qabs_pos d0) in Hall by exact H0.
    apply Qnot_lt_le in Hall.
    apply Qabs_diff_Qle_condition in Hall. lra.
  - left. intros a b Ha Hb. rewrite <- Hp in Ha, Hb.
    apply (np_diff_zero_equal (sorted positions)); [|exact Ha|exact Hb].
    rewrite Ed. apply Forall_forall. intros d Hd. apply list_elem_of_In in Hd.
    specialize (Hall d Hd). unfold deviates in Hall.
    assert (E0 : d0 == 0) by lra.
    apply Qnot_lt_le in Hall. 
    assert (Qabs d0 == 0) as Ea by (rewrite E0; reflexivity).
    rewrite Ea in Hall.
    apply Qabs_diff_Qle_condition in Hall. lra.
Qed.

(** X9.  A slice list that passes validation has at least two slices, and
    its through-plane positions are either all the same or pairwise
    different; in the second case the slice order resolves, to a strictly
    ascending rearrangement of the input. *)
Theorem validated_positions `{Externals} (d0 : Dataset) (rest : list Dataset) :
  let ds := d0 :: rest in
  let key := slice_key (ImageOrientationPatient d0) in
  snd (_validate_slices_form_uniform_grid ds) = Ok tt →
  (2 <= length ds)%nat ∧
  ((∀ a b, a ∈ ds → b ∈ ds → key a == key b) ∨
   (distinct (map key ds) ∧
    ∃ s, _sort_by_slice_spacing ds = Ok s ∧ Permutation s ds ∧
         StronglySorted (by_key key) s)).
Proof.
  intros ds key Hv. split.
  - apply validated_check in Hv.
    destruct (check_ok_inv _ Hv) as (x & dl & Ed & _).
    apply (f_equal length) in Ed.
    rewrite np_diff_length, sorted_length, length_map in Ed.
    cbn in Ed. subst ds. cbn [length] in *. lia.
  - apply validated_check in Hv.
    destruct (positions_equal_or_distinct _ Hv) as [Heq|Hd].
    + left. intros a b Ha Hb.
      apply Heq; apply list_elem_of_fmap; eauto.
    + right. split; [exact Hd|].
      exact (sort_by_slice_spacing_spec d0 rest Hd).
Qed.

Lemma validated_positions_witness :
  distinct (map (slice_key ((1, 0, 0), (0, 1, 0)))
             [axial_slice 4 [[1; 2]; [3; 4]]%Z None None;
              axial_slice 0 [[5; 6]; [7; 8]]%Z None None;
              axial_slice 2 [[9; 10]; [11; 12]]%Z None None]).
Proof.
  destruct (validated_positions (H := sample_externals)
              (axial_slice 4 [[1; 2]; [3; 4]]%Z None None)
              [axial_slice 0 [[5; 6]; [7; 8]]%Z None None;
               axial_slice 2 [[9; 10]; [11; 12]]%Z None None])
    as [_ [Heq|[Hd _]]].
  - vm_compute. reflexivity.
  - exfalso.
    assert (E : slice_key ((1, 0, 0), (0, 1, 0))
                  (axial_slice 4 [[1; 2]; [3; 4]]%Z None None)
                == slice_key ((1, 0, 0), (0, 1, 0))
                     (axial_slice 0 [[5; 6]; [7; 8]]%Z None None)).
    { apply Heq; [left | right; left]. }
    vm_compute in E. discriminate.
  - exact Hd.
Defined.

(** *** [combine_slices] returns *)

Lemma merge_returns `{Externals} (junk : Q)
  (d0 : Dataset) (rest s : list Dataset) :
  let ds := d0 :: rest in
  snd (_validate_slices_form_uniform_grid ds) = Ok tt →
  _sort_by_slice_spacing ds = Ok s →
  Forall pixel_grid_ok ds →
  ∃ voxels, _merge_slice_pixel_arrays junk ds = Ok voxels ∧
            shape3 voxels = (Columns d0, Rows d0, length ds) ∧ wf3 voxels.
Proof.
  intros ds Hval Hs Hgrid.
  destruct (sort_by_slice_spacing_ok ds s Hs) as (d & r & E & Hp & _).
  clear d r E.
  pose proof (validated_rows_columns d0 rest Hval) as Hrc. fold ds in Hrc.
  assert (Hlen : length s = length ds) by now rewrite Hp.
  assert (Hshape : ∀ d, d ∈ s → ∀ (f : Z → Q) (t : dtype),
    shape2 (nd2_map t f (np_T (pixel_array d))) = (Columns d0, Rows d0)
    ∧ wf2 (nd2_map t f (np_T (pixel_array d)))).
  { intros d Hd f t. rewrite Hp in Hd.
    rewrite Forall_forall in Hgrid. rewrite Forall_forall in Hrc.
    destruct (Hrc d Hd). apply slice_shape_ok; auto. }
  unfold _merge_slice_pixel_arrays. fold ds. rewrite Hs.
  cbn [mbind result_bind].
  destruct (existsb _requires_rescaling s).
  - destruct (np_empty_wf junk (Columns d0) (Rows d0) (length ds) float32)
      as (Hwf0 & Hsh0 & Ht0).
    destruct (fill_slices_spec rescaled_slice s _ 0 _ _ _ Hsh0 Hwf0)
      as (V & HV & Ht & HS & Hwf & _); [lia | |].
    { apply Forall_forall. intros d Hd. unfold rescaled_slice.
      now apply Hshape. }
    exists V. split; [exact HV|]. split; [congruence | exact Hwf].
  - destruct (np_empty_wf junk (Columns d0) (Rows d0) (length ds)
                (dtype2 (pixel_array d0))) as (Hwf0 & Hsh0 & Ht0).
    destruct (fill_slices_spec plain_slice s _ 0 _ _ _ Hsh0 Hwf0)
      as (V & HV & Ht & HS & Hwf & _); [lia | |].
    { apply Forall_forall. intros d Hd. unfold plain_slice.
      now apply Hshape. }
    exists V. split; [exact HV|]. split; [congruence | exact Hwf].
Qed.

Lemma slice_spacing_returns (d0 : Dataset) (rest : list Dataset) :
  ∃ spacing, _slice_spacing (d0 :: rest) = Ok spacing.
Proof.
  unfold _slice_spacing. destruct (1 <? length (d0 :: rest))%nat; [|eauto].
  rewrite slice_positions_cons. cbn [mbind result_bind]. eauto.
Qed.

Lemma affine_returns `{Externals} (ds s : list Dataset) :
  _sort_by_slice_spacing ds = Ok s →
  ∃ transform rotation scaling,
    _ijk_to_patient_xyz_transform_matrix ds = Ok (transform, rotation, scaling) ∧
    length transform = 4%nat ∧ Forall (λ row, length row = 4%nat) transform ∧
    length rotation = 3%nat ∧ Forall (λ row, length row = 3%nat) rotation ∧
    length scaling = 3%nat ∧ Forall (λ row, length row = 3%nat) scaling.
Proof.
  intros Hs.
  destruct (sort_by_slice_spacing_ok ds s Hs) as (d0 & rest & -> & Hp & _).
  destruct s as [|first s'].
  { apply Permutation_length in Hp. discriminate. }
  destruct (slice_spacing_returns d0 rest) as (spacing & Hsp).
  unfold _ijk_to_patient_xyz_transform_matrix. rewrite Hs.
  cbn [mbind result_bind]. unfold _extract_cosines.
  destruct (ImageOrientationPatient first) as [[[r1 r2] r3] [[c1 c2] c3]].
  destruct (PixelSpacing first) as [row_spacing column_spacing].
  rewrite Hsp. cbn [mbind result_bind fst snd].
  destruct (ImagePositionPatient first) as [[p1 p2] p3].
  eexists _, _, _. split; [reflexivity|].
  cbn. repeat split; repeat constructor.
Qed.

(** X10.  For a slice list that passes validation, whose positions are
    pairwise different and whose pixel grids have the announced shape,
    combine_slices returns: its warnings are those of the validation, the
    volume has shape (columns, rows, number of slices), the affine matrix is
    4 x 4, and the rotation and scaling matrices are 3 x 3. *)
Theorem combine_slices_returns `{Externals} (junk : Q)
  (d0 : Dataset) (rest : list Dataset) :
  let ds := d0 :: rest in
  snd (_validate_slices_form_uniform_grid ds) = Ok tt →
  distinct (map (slice_key (ImageOrientationPatient d0)) ds) →
  Forall pixel_grid_ok ds →
  ∃ voxels transform rotation scaling,
    combine_slices junk ds
    = (fst (_validate_slices_form_uniform_grid ds),
       Ok (voxels, transform, rotation, scaling)) ∧
    _merge_slice_pixel_arrays junk ds = Ok voxels ∧
    _ijk_to_patient_xyz_transform_matrix ds
    = Ok (transform, rotation, scaling) ∧
    shape3 voxels = (Columns d0, Rows d0, length ds) ∧ wf3 voxels ∧
    length transform = 4%nat ∧ Forall (λ row, length row = 4%nat) transform ∧
    length rotation = 3%nat ∧ Forall (λ row, length row = 3%nat) rotation ∧
    length scaling = 3%nat ∧ Forall (λ row, length row = 3%nat) scaling.
Proof.
  intros ds Hval Hd Hgrid.
  destruct (sort_by_slice_spacing_spec d0 rest Hd) as (s & Hs & _).
  destruct (merge_returns junk d0 rest s Hval Hs Hgrid)
    as (voxels & Hm & Hsh & Hwf).
  destruct (affine_returns (d0 :: rest) s Hs)
    as (transform & rotation & scaling & Ha & Hdims).
  exists voxels, transform, rotation, scaling.
  split; [|split; [exact Hm|split; [exact Ha|split; [exact Hsh|
            split; [exact Hwf|exact Hdims]]]]].
  unfold combine_slices. fold ds.
  destruct (_validate_slices_form_uniform_grid ds) as [w r].
  cbn [fst snd] in *. subst r. cbn [mbind result_bind].
  fold ds in Hm, Ha. rewrite Hm. cbn [mbind result_bind]. rewrite Ha.
  reflexivity.
Qed.

Lemma combine_slices_returns_witness :
  ∃ voxels transform rotation scaling,
    combine_slices (H := sample_externals) 99
      [axial_slice 4 [[1; 2]; [3; 4]]%Z None None;
       axial_slice 0 [[5; 6]; [7; 8]]%Z None None;
       axial_slice 2 [[9; 10]; [11; 12]]%Z None None]
    = ([], Ok (voxels, transform, rotation, scaling)) ∧
    shape3 voxels = (2%nat, 2%nat, 3%nat).
Proof.
  destruct (combine_slices_returns (H := sample_externals) 99
              (axial_slice 4 [[1; 2]; [3; 4]]%Z None None)
              [axial_slice 0 [[5; 6]; [7; 8]]%Z None None;
               axial_slice 2 [[9; 10]; [11; 12]]%Z None None])
    as (voxels & transform & rotation & scaling & Hc & _ & _ & Hsh & _).
  - vm_compute. reflexivity.
  - simpl. repeat split; repeat constructor;
      intros E; vm_compute in E; discriminate.
  - repeat constructor.
  - exists voxels, transform, rotation, scaling.
    split; [exact Hc | exact Hsh].
Defined.

(** *** Evenly spaced positions *)






End CombineSlicesFacts.

(** ** MEDimage.py *)

Module MEDimageFacts.

Import MEDimage NumpyFacts.

(** *** Coordinate conventions *)

Lemma np_flip_twice {A} (d : ndarray3 A) :
  np_flip1 (np_flip0 (np_flip1 (np_flip0 d))) = d.
Proof.
  destruct d as [t sh cells]. unfold np_flip1, np_flip0. cbn. f_equal.
  rewrite <- map_rev, rev_involutive, map_map.
  rewrite <- (map_id cells) at 2. apply map_ext. intros plane.
  apply rev_involutive.
Qed.

Lemma swap_spatialRef_twice (r : imref3d) :
  swap_spatialRef (swap_spatialRef r) = r.
Proof. destruct r. reflexivity. Qed.

Lemma swap_spatialRef_fields (r : imref3d) :
  ImageExtentInWorldX (swap_spatialRef r) = ImageExtentInWorldY r ∧
  ImageExtentInWorldY (swap_spatialRef r) = ImageExtentInWorldX r ∧
  PixelExtentInWorldX (swap_spatialRef r) = PixelExtentInWorldY r ∧
  PixelExtentInWorldY (swap_spatialRef r) = PixelExtentInWorldX r ∧
  XIntrinsicLimits (swap_spatialRef r) = YIntrinsicLimits r ∧
  YIntrinsicLimits (swap_spatialRef r) = XIntrinsicLimits r ∧
  XWorldLimits (swap_spatialRef r) = YWorldLimits r ∧
  YWorldLimits (swap_spatialRef r) = XWorldLimits r.
Proof. repeat split. Qed.

(** C8.  Both coordinate-convention conversions are involutive.  For every
    volume that holds a data array, flipping the data along its first two
    axes twice gives back the volume; for every volume that holds a spatial
    reference, swapping the X/Y image extents, pixel extents, intrinsic
    limits and world limits twice gives back the volume, and one application
    leaves the data, the image size and every Z field as they were. *)
Theorem conversions_involutive (v : volume) :
  (∀ d, data v = Some d →
     (convert_to_LPS v ≫= convert_to_LPS) = Ok v) ∧
  (∀ r, spatialRef v = Some r →
     (convert_spatialRef v ≫= convert_spatialRef) = Ok v ∧
     ∃ v' r', convert_spatialRef v = Ok v' ∧ spatialRef v' = Some r' ∧
       data v' = data v ∧
       ImageSize r' = ImageSize r ∧
       PixelExtentInWorldZ r' = PixelExtentInWorldZ r ∧
       ImageExtentInWorldZ r' = ImageExtentInWorldZ r ∧
       ZIntrinsicLimits r' = ZIntrinsicLimits r ∧
       ZWorldLimits r' = ZWorldLimits r).
Proof.
  destruct v as [sr rot dat]. split.
  - intros d Hd. cbn in Hd. subst dat.
    unfold convert_to_LPS, update_data. cbn.
    now rewrite np_flip_twice.
  - intros r Hr. cbn in Hr. subst sr. split.
    + unfold convert_spatialRef, update_spatialRef. cbn.
      now rewrite swap_spatialRef_twice.
    + eexists _, _. split; [reflexivity|]. split; [reflexivity|].
      repeat split.
Qed.

Lemma conversions_involutive_witness :
  (convert_to_LPS sample_volume ≫= convert_to_LPS) = Ok sample_volume ∧
  (convert_spatialRef sample_volume ≫= convert_spatialRef) = Ok sample_volume.
Proof.
  split.
  - exact (proj1 (conversions_involutive sample_volume) _ eq_refl).
  - exact (proj1 (proj2 (conversions_involutive sample_volume) _ eq_refl)).
Defined.

(** One application does move things: the data is mirrored in its first two
    axes, and the X and Y entries of the reference change places. *)
Lemma conversions_sample :
  (data <$> convert_to_LPS sample_volume)
  = Ok (Some (Nd3 float64 (2%nat, 1%nat, 3%nat)
                [[[8; 9; 10]]; [[5; 6; 7]]]%Q)) ∧
  ∃ v r, convert_spatialRef sample_volume = Ok v ∧ spatialRef v = Some r ∧
         XWorldLimits r = (20, 83 # 4)%Q ∧ YWorldLimits r = (-10, -9)%Q ∧
         PixelExtentInWorldX r = (3 # 4)%Q ∧ PixelExtentInWorldY r = (1 # 2)%Q.
Proof.
  split; [reflexivity|]. eexists _, _. repeat split.
Qed.

(** *** ROI store *)

Lemma dict_get_unset (h : heap) (l : loc) (d : pydict) (key : Z) :
  h !! l = Some d → d ≠ ∅ → d !! str (Some key) = None →
  dict_get h l (Some key) = Raise (KeyError (str (Some key))).
Proof.
  intros Hl Hne Hk. unfold dict_get. rewrite Hl.
  rewrite bool_decide_eq_false_2 by exact Hne.
  rewrite bool_decide_eq_false_2 by discriminate.
  cbn [orb]. now rewrite Hk.
Qed.

Lemma dict_get_empty (h : heap) (l : loc) (key : option Z) :
  h !! l = Some ∅ → dict_get h l key = Ok VEmptyDict.
Proof.
  intros Hl. unfold dict_get. rewrite Hl.
  now rewrite bool_decide_eq_true_2 by reflexivity.
Qed.

Lemma dict_get_set (h : heap) (l : loc) (key : Z) (v : value) :
  is_Some (h !! l) →
  dict_get (dict_set h l (Some key) v) l (Some key) = Ok v.
Proof.
  intros [d Hd]. unfold dict_get, dict_set.
  rewrite list_lookup_alter_eq, Hd. cbn [fmap option_fmap option_map].
  rewrite bool_decide_eq_false_2 by apply insert_non_empty.
  rewrite bool_decide_eq_false_2 by discriminate.
  cbn [orb]. now rewrite lookup_insert_eq.
Qed.

Lemma dict_get_set_other (h : heap) (l l' : loc) (key key' : option Z)
  (v : value) :
  l ≠ l' → dict_get (dict_set h l key v) l' key' = dict_get h l' key'.
Proof.
  intros Hne. unfold dict_get, dict_set.
  now rewrite list_lookup_alter_ne by exact Hne.
Qed.

Lemma arg_or_empty_truthy (h : heap) (l : loc) :
  truthy h (Some l) = true → arg_or_empty (Some l) h = (l, h).
Proof. intros Ht. unfold arg_or_empty. now rewrite Ht. Qed.

Lemma truthy_app (h : heap) (l : loc) (d : pydict) :
  truthy h (Some l) = true → truthy (h ++ [d]) (Some l) = true.
Proof.
  unfold truthy. destruct (h !! l) as [d'|] eqn:E; [|discriminate].
  now rewrite (lookup_app_l_Some _ _ _ _ E).
Qed.

Lemma ROI_init_aliases (indexes_arg : option loc) (l : loc) (h : heap) :
  truthy h (Some l) = true →
  ∃ li h', ROI_init indexes_arg (Some l) h
           = ({| indexes := li; roi_names := l; nameSet := l;
                 nameSetInfo := l |}, h') ∧
           truthy h' (Some l) = true.
Proof.
  intros Ht. unfold ROI_init.
  destruct (arg_or_empty indexes_arg h) as [li h1] eqn:E1.
  assert (Ht1 : truthy h1 (Some l) = true).
  { unfold arg_or_empty in E1.
    destruct indexes_arg as [l0|].
    - destruct (truthy h (Some l0)); injection E1 as <- <-;
        [exact Ht | now apply truthy_app].
    - injection E1 as <- <-. now apply truthy_app. }
  rewrite !(arg_or_empty_truthy h1 l Ht1).
  exists li, h1. split; [reflexivity | exact Ht1].
Qed.

(** C10.  When the ROI store is constructed with a non-empty roi_names
    mapping, the attributes roi_names, nameSet and nameSetInfo hold one and
    the same dict; so for every integer key k and value v, after
    update_nameSet(k, v) the calls get_nameSet(k), get_ROIname(k) and
    get_nameSetInfo(k) all return v, and likewise after update_ROIname and
    after update_nameSetInfo. *)
Theorem roi_names_aliasing (indexes_arg : option loc) (l : loc) (h : heap) :
  truthy h (Some l) = true →
  ∃ roi h', ROI_init indexes_arg (Some l) h = (roi, h') ∧
    roi_names roi = l ∧ nameSet roi = l ∧ nameSetInfo roi = l ∧
    ∀ (k : Z) (v : value),
      (let h'' := update_nameSet roi (Some k) v h' in
       get_nameSet roi (Some k) h'' = Ok v ∧
       get_ROIname roi (Some k) h'' = Ok v ∧
       get_nameSetInfo roi (Some k) h'' = Ok v) ∧
      (let h'' := update_ROIname roi (Some k) v h' in
       get_ROIname roi (Some k) h'' = Ok v ∧
       get_nameSet roi (Some k) h'' = Ok v ∧
       get_nameSetInfo roi (Some k) h'' = Ok v) ∧
      (let h'' := update_nameSetInfo roi (Some k) v h' in
       get_nameSetInfo roi (Some k) h'' = Ok v ∧
       get_ROIname roi (Some k) h'' = Ok v ∧
       get_nameSet roi (Some k) h'' = Ok v).
Proof.
  intros Ht.
  destruct (ROI_init_aliases indexes_arg l h Ht) as (li & h' & Hinit & Ht').
  eexists _, h'. split; [exact Hinit|].
  cbn [roi_names nameSet nameSetInfo].
  split; [reflexivity|]. split; [reflexivity|]. split; [reflexivity|].
  assert (Hsome : is_Some (h' !! l)).
  { unfold truthy in Ht'. destruct (h' !! l); [eauto | discriminate]. }
  intros k v. cbv zeta.
  unfold update_nameSet, update_ROIname, update_nameSetInfo,
    get_nameSet, get_ROIname, get_nameSetInfo.
  cbn [roi_names nameSet nameSetInfo].
  rewrite !dict_get_set by exact Hsome. repeat split.
Qed.

Lemma roi_names_aliasing_witness :
  ∃ roi h', ROI_init None (Some 0%nat) [{["0" := VStr "GTV"]}] = (roi, h') ∧
    get_ROIname roi (Some 7%Z)
      (update_nameSet roi (Some 7%Z) (VStr "manual") h')
    = Ok (VStr "manual").
Proof.
  assert (Ht : truthy [{["0" := VStr "GTV"]}] (Some 0%nat) = true)
    by (vm_compute; reflexivity).
  destruct (roi_names_aliasing None 0%nat [{["0" := VStr "GTV"]}] Ht)
    as (roi & h' & Hinit & _ & _ & _ & Hall).
  exists roi, h'. split; [exact Hinit|].
  exact (proj1 (proj2 (proj1 (Hall 7%Z (VStr "manual"))))).
Defined.

(** Without names the constructor makes three empty dicts of their own, and
    an update through one attribute does not show through the others. *)
Lemma fresh_name_dicts_are_separate (k : Z) (v : value) :
  let roi := {| indexes := 0; roi_names := 1; nameSet := 2;
                nameSetInfo := 3 |} in
  let h : heap := [∅; ∅; ∅; ∅] in
  ROI_init None None [] = (roi, h) ∧
  let h' := update_nameSet roi (Some k) v h in
  get_nameSet roi (Some k) h' = Ok v ∧
  get_ROIname roi (Some k) h' = Ok VEmptyDict ∧
  get_nameSetInfo roi (Some k) h' = Ok VEmptyDict.
Proof.
  intros roi h. split; [reflexivity|]. intros h'. subst roi h h'.
  unfold get_nameSet, get_ROIname, get_nameSetInfo, update_nameSet.
  cbn [roi_names nameSet nameSetInfo].
  split; [apply dict_get_set; eauto|].
  split; rewrite dict_get_set_other by lia; now apply dict_get_empty.
Qed.

(** The key [None] is written under the string "None" and never read back:
    the getters answer [{}] for it before they look. *)
Lemma none_key_is_written_but_not_read (h : heap) (l : loc) (v : value) :
  is_Some (h !! l) →
  dict_get (dict_set h l None v) l None = Ok VEmptyDict ∧
  ∃ d, dict_set h l None v !! l = Some d ∧ d !! "None" = Some v.
Proof.
  intros [d Hd]. unfold dict_get, dict_set.
  rewrite list_lookup_alter_eq, Hd. cbn [fmap option_fmap option_map].
  split.
  - rewrite bool_decide_eq_false_2 by apply insert_non_empty.
    now rewrite bool_decide_eq_true_2 by reflexivity.
  - eexists. split; [reflexivity|]. apply lookup_insert_eq.
Qed.

(** A getter asked for a key that is not set, in a dict that holds other
    keys, raises [KeyError]. *)
Theorem get_on_unset_key_raises (self : ROI) (h : heap) (d : pydict)
  (key : Z) :
  h !! indexes self = Some d → d ≠ ∅ → d !! str (Some key) = None →
  get_indexes self (Some key) h = Raise (KeyError (str (Some key))).
Proof.
  intros Hl Hne Hk. exact (dict_get_unset h (indexes self) d key Hl Hne Hk).
Qed.

(** C6, the claim as stated, fails: on a fresh store [get_indexes(1)] does
    return [{}], but once key 0 is set [get_indexes(1)] raises KeyError, and
    so do get_ROIname, get_nameSet and get_nameSetInfo for key 1 once their
    dicts hold key 0. *)
Lemma get_indexes_fails_beside_other_entries :
  let '(roi, h) := ROI_init None None [] in
  get_indexes roi (Some 1%Z) h = Ok VEmptyDict ∧
  let h := update_indexes roi (Some 0%Z) (VIndexes [1; 2; 3]) h in
  get_indexes roi (Some 0%Z) h = Ok (VIndexes [1; 2; 3]) ∧
  get_indexes roi (Some 1%Z) h = Raise (KeyError "1") ∧
  let h := update_ROIname roi (Some 0%Z) (VStr "GTV") h in
  let h := update_nameSet roi (Some 0%Z) (VStr "manual") h in
  let h := update_nameSetInfo roi (Some 0%Z) (VStr "StructureSetName") h in
  get_ROIname roi (Some 1%Z) h = Raise (KeyError "1") ∧
  get_nameSet roi (Some 1%Z) h = Raise (KeyError "1") ∧
  get_nameSetInfo roi (Some 1%Z) h = Raise (KeyError "1").
Proof. vm_compute. repeat split. Qed.

Lemma dict_get_None_key (h : heap) (l : loc) :
  is_Some (h !! l) → dict_get h l None = Ok VEmptyDict.
Proof.
  intros [d Hd]. unfold dict_get. rewrite Hd.
  rewrite (bool_decide_eq_true_2 (None = None)) by reflexivity.
  now rewrite orb_true_r.
Qed.

Lemma dict_get_cases (h : heap) (l : loc) (d : pydict) (key : option Z) :
  h !! l = Some d →
  (d = ∅ ∨ key = None → dict_get h l key = Ok VEmptyDict) ∧
  (d ≠ ∅ → key ≠ None → ∀ v, d !! str key = Some v →
     dict_get h l key = Ok v) ∧
  (d ≠ ∅ → key ≠ None → d !! str key = None →
     dict_get h l key = Raise (KeyError (str key))).
Proof.
  intros Hl. split; [|split].
  - intros [-> | ->]; [now apply dict_get_empty | apply dict_get_None_key; eauto].
  - intros Hne Hk v Hv. unfold dict_get. rewrite Hl.
    rewrite bool_decide_eq_false_2 by exact Hne.
    rewrite bool_decide_eq_false_2 by exact Hk.
    cbn [orb]. now rewrite Hv.
  - intros Hne Hk Hv. unfold dict_get. rewrite Hl.
    rewrite bool_decide_eq_false_2 by exact Hne.
    rewrite bool_decide_eq_false_2 by exact Hk.
    cbn [orb]. now rewrite Hv.
Qed.

(** C6, amended.  For every ROI store and every key, each of the four get
    operations returns an empty result, and raises nothing, when the dict it
    reads holds no entry at all or the key is None; for a key that is unset
    in a dict that holds other entries it raises KeyError. *)
Theorem getters_on_unset_keys (self : ROI) (h : heap) (key : option Z) :
  getter_behaviour get_indexes indexes self h key ∧
  getter_behaviour get_ROIname roi_names self h key ∧
  getter_behaviour get_nameSet nameSet self h key ∧
  getter_behaviour get_nameSetInfo nameSetInfo self h key.
Proof.
  repeat split; intros Hx;
    match goal with
    | Hd : h !! ?a = Some ?d |- _ =>
        destruct (dict_get_cases h a d key Hd) as (H1 & _ & H3)
    end; auto.
Qed.

Lemma getters_on_unset_keys_witness :
  get_ROIname {| indexes := 0; roi_names := 1; nameSet := 1; nameSetInfo := 1 |}
    (Some 5%Z) [∅; {["0" := VStr "GTV"]}]
  = Raise (KeyError "5").
Proof.
  refine (proj2 (proj1 (proj2 (getters_on_unset_keys
            {| indexes := 0; roi_names := 1; nameSet := 1; nameSetInfo := 1 |}
            [∅; {["0" := VStr "GTV"]}] (Some 5%Z)))
            {["0" := VStr "GTV"]} eq_refl) _ _ _).
  - vm_compute. discriminate.
  - discriminate.
  - vm_compute. reflexivity.
Defined.

(** *** Dense masks from stored indexes *)

Section Reshape.
Context {A : Type}.

Lemma concat_reshape_replicate (n sz : nat) (l : list A) :
  length l = n * sz → concat (reshape (replicate n sz) l) = l.
Proof.
  revert l. induction n as [|n IH]; intros l Hl; cbn.
  - now destruct l.
  - rewrite IH; [apply take_drop|]. rewrite length_drop. lia.
Qed.

Lemma reshape_replicate_lengths (n sz : nat) (l : list A) :
  length l = n * sz →
  length (reshape (replicate n sz) l) = n ∧
  Forall (λ c, length c = sz) (reshape (replicate n sz) l).
Proof.
  revert l. induction n as [|n IH]; intros l Hl; cbn.
  - split; [reflexivity | constructor].
  - destruct (IH (drop sz l)) as [Hn Hall]; [rewrite length_drop; lia|].
    split; [now rewrite Hn|].
    constructor; [rewrite length_take; lia | exact Hall].
Qed.

Lemma concat_concat_map (g : list A → list (list A)) (ls : list (list A)) :
  Forall (λ c, concat (g c) = c) ls →
  concat (concat (map g ls)) = concat ls.
Proof.
  induction 1 as [|c ls Hc _ IH]; cbn; [reflexivity|].
  now rewrite concat_app, Hc, IH.
Qed.

Lemma np_reshape_flatten (t : dtype) (flat : list A) (n0 n1 n2 : nat) :
  length flat = n0 * n1 * n2 →
  ∃ a, np_reshape t flat (n0, n1, n2) = Ok a ∧
       dtype3 a = t ∧ shape3 a = (n0, n1, n2) ∧ wf3 a ∧
       np_flatten a = flat.
Proof.
  intros Hl. unfold np_reshape.
  rewrite (proj2 (Nat.eqb_eq _ _) Hl). cbn [negb].
  eexists. split; [reflexivity|]. cbn [dtype3 shape3].
  split; [reflexivity|]. split; [reflexivity|].
  assert (Hl' : length flat = n0 * (n1 * n2)) by lia.
  destruct (reshape_replicate_lengths n0 (n1 * n2) flat Hl') as [Hn Hall].
  split.
  - unfold wf3. cbn [shape3 cells3]. split; [now rewrite length_map|].
    apply Forall_fmap. eapply Forall_impl; [exact Hall|].
    intros c Hc. cbn. apply reshape_replicate_lengths. exact Hc.
  - unfold np_flatten. cbn [cells3].
    rewrite concat_concat_map.
    + now apply concat_reshape_replicate.
    + eapply Forall_impl; [exact Hall|]. intros c Hc.
      now apply concat_reshape_replicate.
Qed.

Lemma setitem_indexes_spec (flat : list A) (l : list nat) (v : A) :
  Forall (λ i, i < length flat) l →
  ∃ flat', setitem_indexes flat l v = Ok flat' ∧
           length flat' = length flat ∧
           ∀ i, flat' !! i = if bool_decide (i ∈ l)
                             then Some v else flat !! i.
Proof.
  revert flat. induction l as [|a l IH]; intros flat Hall.
  - exists flat. repeat split. 
  - apply Forall_cons in Hall as [Ha Hall]. cbn [setitem_indexes].
    rewrite (proj2 (Nat.ltb_lt _ _) Ha).
    destruct (IH (<[a:=v]> flat)) as (flat' & Hf & Hlen & Hget).
    { eapply Forall_impl; [exact Hall|]. intros i Hi.
      now rewrite length_insert. }
    exists flat'. split; [exact Hf|]. rewrite length_insert in Hlen.
    split; [exact Hlen|]. intros i. rewrite Hget.
    destruct (decide (i ∈ l)) as [Hin|Hnin].
    + rewrite !bool_decide_eq_true_2; [reflexivity | now right | exact Hin].
    + rewrite (bool_decide_eq_false_2 (i ∈ l)) by exact Hnin.
      destruct (decide (i = a)) as [->|Hne].
      * rewrite bool_decide_eq_true_2 by left.
        now apply list_lookup_insert_eq.
      * rewrite bool_decide_eq_false_2.
        -- apply list_lookup_insert_ne. congruence.
        -- intros Hin. apply elem_of_cons in Hin as [?|?]; contradiction.
Qed.

End Reshape.

Lemma concat_replicates {A} (n : nat) (x : A) (ls : list (list A)) :
  Forall (λ c, c = replicate n x) ls →
  concat ls = replicate (length ls * n) x.
Proof.
  induction 1 as [|c ls -> _ IH]; cbn; [reflexivity|].
  now rewrite IH, replicate_add.
Qed.

Lemma concat_concat {A} (lls : list (list (list A))) :
  concat (concat lls) = concat (map (@concat A) lls).
Proof.
  induction lls as [|ls lls IH]; cbn; [reflexivity|].
  now rewrite concat_app, IH.
Qed.

Lemma flatten_zeros_like (d : ndarray3 Q) :
  wf3 d → np_flatten (np_zeros_like d) = replicate (np_size d) 0%Q.
Proof.
  destruct d as [t [[n0 n1] n2] cells]. unfold wf3, np_size, np_flatten.
  cbn [shape3 cells3 np_zeros_like]. intros [Hlen Hall].
  rewrite concat_concat, map_map.
  rewrite (concat_replicates (n1 * n2) 0%Q).
  - rewrite length_map, Hlen. f_equal. lia.
  - apply Forall_fmap. eapply Forall_impl; [exact Hall|].
    intros plane [Hp Hlines]. cbn [compose].
    rewrite (concat_replicates n2 0%Q).
    + now rewrite length_map, Hp.
    + apply Forall_fmap. eapply Forall_impl; [exact Hlines|].
      intros line Hl. cbn in Hl |- *. rewrite <- Hl. clear.
      induction line; cbn; [reflexivity|]. now f_equal.
Qed.

Lemma nonzero_from_spec (s : nat) (flat : list Q) (i : nat) :
  i ∈ nonzero_from s flat ↔
  ∃ j x, i = s + j ∧ flat !! j = Some x ∧ ¬ (x == 0)%Q.
Proof.
  revert s. induction flat as [|y flat IH]; intros s; cbn.
  - split; [intros H; now apply elem_of_nil in H|].
    intros (j & x & _ & Hj & _). now rewrite lookup_nil in Hj.
  - destruct (Qeq_bool y 0) eqn:E.
    + rewrite IH. split.
      * intros (j & x & -> & Hj & Hx). exists (S j), x.
        split; [lia|]. split; assumption.
      * intros (j & x & -> & Hj & Hx). destruct j as [|j].
        -- cbn in Hj. injection Hj as ->. apply Qeq_bool_iff in E.
           contradiction.
        -- exists j, x. split; [lia|]. split; assumption.
    + rewrite elem_of_cons, IH. split.
      * intros [->|(j & x & -> & Hj & Hx)].
        -- exists 0, y. split; [lia|]. split; [reflexivity|].
           now apply Qeq_bool_neq.
        -- exists (S j), x. split; [lia|]. split; assumption.
      * intros (j & x & -> & Hj & Hx). destruct j as [|j].
        -- left. lia.
        -- right. exists j, x. split; [lia|]. split; assumption.
Qed.

Lemma nonzero_from_sorted (s : nat) (flat : list Q) :
  StronglySorted lt (nonzero_from s flat).
Proof.
  revert s. induction flat as [|y flat IH]; intros s; cbn; [constructor|].
  destruct (Qeq_bool y 0); [apply IH|].
  constructor; [apply IH|]. apply Forall_forall. intros i Hi.
  apply nonzero_from_spec in Hi as (j & x & -> & _). lia.
Qed.

Lemma strictly_ascending_unique (l l' : list nat) :
  StronglySorted lt l → StronglySorted lt l' →
  (∀ i, i ∈ l ↔ i ∈ l') → l = l'.
Proof.
  intros Hs. revert l'. induction Hs as [|a l Hs IH Ha]; intros l' Hs' Heq.
  - destruct l' as [|b l']; [reflexivity|].
    exfalso. apply (elem_of_nil b). apply Heq. left.
  - destruct Hs' as [|b l' Hs' Hb].
    + exfalso. apply (elem_of_nil a). apply Heq. left.
    + rewrite Forall_forall in Ha. rewrite Forall_forall in Hb.
      assert (a = b) as <-.
      { assert (Hin : a ∈ b :: l') by (apply Heq; left).
        assert (Hin' : b ∈ a :: l) by (apply Heq; left).
        apply elem_of_cons in Hin as [E|Hin]; [exact E|].
        apply elem_of_cons in Hin' as [E|Hin']; [now symmetry|].
        specialize (Ha _ Hin'). specialize (Hb _ Hin). lia. }
      f_equal. apply IH; [exact Hs'|]. intros i. split; intros Hi.
      * assert (Hin : i ∈ a :: l') by (apply Heq; now right).
        apply elem_of_cons in Hin as [->|Hin]; [|exact Hin].
        specialize (Ha _ Hi). lia.
      * assert (Hin : i ∈ a :: l) by (apply Heq; now right).
        apply elem_of_cons in Hin as [->|Hin]; [|exact Hin].
        specialize (Hb _ Hi). lia.
Qed.

Lemma dict_get_set_ROI (self : ROI) (h : heap) (key : Z) (v : value) :
  is_Some (h !! indexes self) →
  get_indexes self (Some key) (update_indexes self (Some key) v h) = Ok v.
Proof.
  intros [d Hd]. unfold get_indexes, update_indexes, dict_get, dict_set.
  rewrite list_lookup_alter_eq, Hd. cbn [fmap option_fmap option_map].
  rewrite bool_decide_eq_false_2 by apply insert_non_empty.
  rewrite bool_decide_eq_false_2 by discriminate.
  cbn [orb]. now rewrite lookup_insert_eq.
Qed.

(** C7.  Let the volume hold a well-formed data array and let the index
    list l, all of whose entries lie below the voxel count, be stored under
    an integer key.  Then get_ROI_from_indexes succeeds, the mask has the
    shape of the volume, and the non-zero flat indices of the mask are
    exactly the members of l, in ascending order without repetition; if l
    itself is strictly ascending (as np.nonzero delivers it), re-extraction
    returns l itself. *)
Theorem roi_mask_round_trip (self : scan) (h : heap) (key : Z)
  (d : ndarray3 Q) (l : list nat) :
  data (scan_volume self) = Some d → wf3 d →
  is_Some (h !! indexes (scan_ROI self)) →
  Forall (λ i, i < np_size d) l →
  let h' := update_indexes (scan_ROI self) (Some key) (VIndexes l) h in
  ∃ roi, get_ROI_from_indexes self (Some key) h' = Ok roi ∧
         shape3 roi = shape3 d ∧ wf3 roi ∧
         (∀ i, i ∈ extract_indexes roi ↔ i ∈ l) ∧
         StronglySorted lt (extract_indexes roi) ∧
         (StronglySorted lt l → extract_indexes roi = l).
Proof.
  intros Hd Hwf Hsome Hall h'. subst h'.
  unfold get_ROI_from_indexes. rewrite Hd.
  rewrite dict_get_set_ROI by exact Hsome. cbn [mbind result_bind].
  rewrite flatten_zeros_like by exact Hwf.
  destruct (setitem_indexes_spec (replicate (np_size d) 0%Q) l 1%Q)
    as (flat & Hflat & Hlen & Hget).
  { now rewrite length_replicate. }
  rewrite Hflat. cbn [mbind result_bind]. rewrite length_replicate in Hlen.
  destruct d as [t [[n0 n1] n2] cells]. cbn [dtype3 shape3 np_size] in *.
  destruct (np_reshape_flatten t flat n0 n1 n2 Hlen)
    as (roi & Hroi & _ & Hsh & Hwfr & Hfl).
  exists roi. split; [exact Hroi|]. split; [exact Hsh|]. split; [exact Hwfr|].
  assert (Hmem : ∀ i, i ∈ extract_indexes roi ↔ i ∈ l).
  { intros i. unfold extract_indexes, np_nonzero. rewrite Hfl.
    rewrite nonzero_from_spec. split.
    - intros (j & x & -> & Hj & Hx). cbn. rewrite Hget in Hj.
      destruct (decide (j ∈ l)) as [Hin|Hnin]; [exact Hin|].
      rewrite bool_decide_eq_false_2 in Hj by exact Hnin.
      apply lookup_replicate in Hj as [-> _]. exfalso. now apply Hx.
    - intros Hin. exists i, 1%Q. split; [reflexivity|].
      split; [|discriminate].
      rewrite Hget. now rewrite bool_decide_eq_true_2 by exact Hin. }
  split; [exact Hmem|].
  assert (Hsorted : StronglySorted lt (extract_indexes roi))
    by apply nonzero_from_sorted.
  split; [exact Hsorted|].
  intros Hl. now apply strictly_ascending_unique.
Qed.

Lemma roi_mask_round_trip_witness :
  ∃ roi, get_ROI_from_indexes sample_scan (Some 0%Z)
           (update_indexes (scan_ROI sample_scan) (Some 0%Z)
              (VIndexes [4; 1; 4]) [∅; ∅; ∅; ∅]) = Ok roi ∧
         extract_indexes roi = [1; 4].
Proof.
  assert (Hwf : wf3 (Nd3 float64 (2, 1, 3) [[[5; 6; 7]]; [[8; 9; 10]]]%Q))
    by (repeat constructor).
  assert (Hall : Forall (λ i, i < 6) [4; 1; 4]) by (repeat constructor; lia).
  destruct (roi_mask_round_trip sample_scan [∅; ∅; ∅; ∅] 0%Z _ [4; 1; 4]
              eq_refl Hwf (mk_is_Some _ _ eq_refl) Hall)
    as (roi & Hroi & _ & _ & Hmem & Hsorted & _).
  exists roi. split; [exact Hroi|].
  apply strictly_ascending_unique;
    [exact Hsorted | repeat constructor; lia |].
  intros i. rewrite Hmem. rewrite !elem_of_cons.
  split; [intros [->|[->|[->|H]]] | intros [->|[->|H]]]; auto;
    now apply elem_of_nil in H.
Defined.

(** The same scan, evaluated: indices 1 and 4 of the 2 x 1 x 3 grid. *)
Lemma roi_mask_sample :
  get_ROI_from_indexes sample_scan (Some 0%Z)
    (update_indexes (scan_ROI sample_scan) (Some 0%Z)
       (VIndexes [4; 1; 4]) [∅; ∅; ∅; ∅])
  = Ok (Nd3 float64 (2, 1, 3) [[[0; 1; 0]]; [[0; 1; 0]]]%Q).
Proof. vm_compute. reflexivity. Qed.

(** *** Updates and gets *)

Lemma str_inj (k k' : Z) : str (Some k) = str (Some k') → k = k'.
Proof. cbn. apply pretty_Z_inj. Qed.

Lemma dict_update_get (h : heap) (l : loc) (d : pydict) (k k' : Z)
  (v v' : value) :
  h !! l = Some d →
  dict_get (dict_set h l (Some k) v) l (Some k) = Ok v ∧
  dict_get (dict_set (dict_set h l (Some k) v) l (Some k) v') l (Some k)
  = Ok v' ∧
  (k ≠ k' →
   ∀ w, d !! str (Some k') = Some w →
     dict_get (dict_set h l (Some k) v) l (Some k') = Ok w) ∧
  (k ≠ k' → d !! str (Some k') = None →
   dict_get (dict_set h l (Some k) v) l (Some k')
   = Raise (KeyError (str (Some k')))).
Proof.
  intros Hd.
  assert (Hset : dict_set h l (Some k) v !! l
                 = Some (<[str (Some k) := v]> d)).
  { unfold dict_set. now rewrite list_lookup_alter_eq, Hd. }
  split; [apply dict_get_set; eauto|].
  split; [apply dict_get_set; rewrite Hset; eauto|].
  assert (Hne : ∀ x : value, <[str (Some k) := x]> d ≠ ∅)
    by (intros x; apply insert_non_empty).
  split; intros Hk.
  - intros w Hw.
    destruct (dict_get_cases _ l _ (Some k') Hset) as (_ & H2 & _).
    apply H2; [apply Hne | discriminate|].
    rewrite lookup_insert_ne; [exact Hw|].
    intros E. apply Hk. now apply str_inj.
  - intros Hw.
    destruct (dict_get_cases _ l _ (Some k') Hset) as (_ & _ & H3).
    apply H3; [apply Hne | discriminate|].
    rewrite lookup_insert_ne; [exact Hw|].
    intros E. apply Hk. now apply str_inj.
Qed.

(** X12.  For each of the four dicts of the ROI store and integer keys:
    after update(k, v), get(k) returns v; of two updates under the same key
    the second wins; an entry under another key is read back unchanged; and
    a get for another key that has no entry raises KeyError, also when the
    dict was empty before the update (when the same get answered the empty
    result). *)
Theorem roi_store_update_get :
  update_get_laws get_indexes update_indexes indexes ∧
  update_get_laws get_ROIname update_ROIname roi_names ∧
  update_get_laws get_nameSet update_nameSet nameSet ∧
  update_get_laws get_nameSetInfo update_nameSetInfo nameSetInfo.
Proof.
  split; [|split; [|split]]; intros self h d k k' v v' Hd;
    unfold get_indexes, update_indexes, get_ROIname, update_ROIname,
      get_nameSet, update_nameSet, get_nameSetInfo, update_nameSetInfo;
    exact (dict_update_get h _ d k k' v v' Hd).
Qed.

(** *** A store built without names *)

Lemma truthy_false_app (h : heap) (arg : option loc) :
  truthy h arg = false → truthy (h ++ [∅]) arg = false.
Proof.
  unfold truthy. destruct arg as [l|]; [|reflexivity].
  destruct (h !! l) as [d|] eqn:E.
  - now rewrite (lookup_app_l_Some _ _ _ _ E).
  - intros _. apply lookup_ge_None in E.
    destruct (decide (l = length h)) as [->|Hne].
    + rewrite list_lookup_middle by reflexivity.
      now rewrite bool_decide_eq_false_2 by (intros H; now apply H).
    + rewrite lookup_ge_None_2; [reflexivity|].
      rewrite length_app. cbn. lia.
Qed.

Lemma arg_or_empty_falsy (h : heap) (arg : option loc) :
  truthy h arg = false → arg_or_empty arg h = (length h, h ++ [∅]).
Proof.
  intros Ht. unfold arg_or_empty. destruct arg as [l|]; [|reflexivity].
  now rewrite Ht.
Qed.

Lemma arg_or_empty_extends (h : heap) (arg : option loc) :
  ∃ l ext, arg_or_empty arg h = (l, h ++ ext) ∧ l < length (h ++ ext) ∧
           (ext = [] ∨ ext = [∅]).
Proof.
  unfold arg_or_empty, alloc. destruct arg as [l|].
  - destruct (truthy h (Some l)) eqn:Et.
    + exists l, []. rewrite app_nil_r. split; [reflexivity|]. split; [|now left].
      unfold truthy in Et. destruct (h !! l) eqn:E; [|discriminate].
      now apply lookup_lt_Some in E.
    + exists (length h), [∅]. split; [reflexivity|].
      split; [rewrite length_app; cbn; lia | now right].
  - exists (length h), [∅]. split; [reflexivity|].
    split; [rewrite length_app; cbn; lia | now right].
Qed.

(** X13.  ROI.__init__ with roi_names absent or an empty dict, whatever
    indexes is: the dicts alive before are untouched, roi_names, nameSet and
    nameSetInfo are three new empty dicts, different from one another and
    from the indexes dict, and an update through nameSet shows through
    get_nameSet only: get_ROIname and get_nameSetInfo still answer the empty
    result and get_indexes answers as before. *)
Theorem names_are_separate_when_not_given
  (indexes_arg roi_names_arg : option loc) (h : heap) :
  truthy h roi_names_arg = false →
  ∃ roi h', ROI_init indexes_arg roi_names_arg h = (roi, h') ∧
    (∀ l d, h !! l = Some d → h' !! l = Some d) ∧
    h' !! roi_names roi = Some ∅ ∧
    h' !! nameSet roi = Some ∅ ∧
    h' !! nameSetInfo roi = Some ∅ ∧
    roi_names roi ≠ nameSet roi ∧
    roi_names roi ≠ nameSetInfo roi ∧
    nameSet roi ≠ nameSetInfo roi ∧
    indexes roi ≠ roi_names roi ∧
    indexes roi ≠ nameSet roi ∧
    indexes roi ≠ nameSetInfo roi ∧
    ∀ (k : Z) (v : value),
      let h'' := update_nameSet roi (Some k) v h' in
      get_nameSet roi (Some k) h'' = Ok v ∧
      get_ROIname roi (Some k) h'' = Ok VEmptyDict ∧
      get_nameSetInfo roi (Some k) h'' = Ok VEmptyDict ∧
      get_indexes roi (Some k) h'' = get_indexes roi (Some k) h'.
Proof.
  intros Ht. unfold ROI_init.
  destruct (arg_or_empty_extends h indexes_arg) as (li & ext & -> & Hli & Hext).
  set (h1 := h ++ ext) in *.
  assert (Ht1 : truthy h1 roi_names_arg = false).
  { subst h1. destruct Hext as [-> | ->];
      [now rewrite app_nil_r | now apply truthy_false_app]. }
  rewrite (arg_or_empty_falsy h1 _ Ht1).
  assert (Ht2 : truthy (h1 ++ [∅]) roi_names_arg = false)
    by now apply truthy_false_app.
  rewrite (arg_or_empty_falsy _ _ Ht2).
  assert (Ht3 : truthy ((h1 ++ [∅]) ++ [∅]) roi_names_arg = false)
    by now apply truthy_false_app.
  rewrite (arg_or_empty_falsy _ _ Ht3).
  eexists _, _. split; [reflexivity|].
  cbn [indexes roi_names nameSet nameSetInfo].
  rewrite !length_app. cbn [length].
  set (n := length h1) in *.
  assert (H1 : (((h1 ++ [∅]) ++ [∅]) ++ [∅]) !! n = Some (∅ : pydict)).
  { rewrite <- !app_assoc. now apply list_lookup_middle. }
  assert (H2 : (((h1 ++ [∅]) ++ [∅]) ++ [∅]) !! (n + 1) = Some (∅ : pydict)).
  { rewrite <- (app_assoc (h1 ++ [∅])). apply list_lookup_middle.
    rewrite length_app. reflexivity. }
  assert (H3 : (((h1 ++ [∅]) ++ [∅]) ++ [∅]) !! (n + 1 + 1)
               = Some (∅ : pydict)).
  { apply list_lookup_middle. rewrite !length_app. reflexivity. }
  split.
  { intros l d Hl. rewrite <- !app_assoc. subst h1.
    rewrite <- app_assoc. now apply lookup_app_l_Some. }
  split; [exact H1|]. split; [exact H2|]. split; [exact H3|].
  split; [lia|]. split; [lia|]. split; [lia|].
  split; [lia|]. split; [lia|]. split; [lia|].
  intros k v.
  unfold get_nameSet, get_ROIname, get_nameSetInfo, get_indexes, update_nameSet.
  cbn [indexes roi_names nameSet nameSetInfo].
  split; [apply dict_get_set; rewrite H2; eauto|].
  split; [rewrite dict_get_set_other by lia; now apply dict_get_empty|].
  split; [rewrite dict_get_set_other by lia; now apply dict_get_empty|].
  apply dict_get_set_other. lia.
Qed.

Lemma names_are_separate_when_not_given_witness :
  ∃ roi h', ROI_init (Some 0%nat) None [{["0" := VIndexes [1; 2]]}]
            = (roi, h') ∧
    get_ROIname roi (Some 0%Z) (update_nameSet roi (Some 0%Z) (VStr "a") h')
    = Ok VEmptyDict.
Proof.
  destruct (names_are_separate_when_not_given (Some 0%nat) None
              [{["0" := VIndexes [1; 2]]}] eq_refl)
    as (roi & h' & Hinit & _ & _ & _ & _ & _ & _ & _ & _ & _ & _ & Hall).
  exists roi, h'. split; [exact Hinit|].
  exact (proj1 (proj2 (Hall 0%Z (VStr "a")))).
Defined.

(** *** What [get_ROI_from_indexes] refuses *)

Lemma setitem_indexes_out_of_range {A} (flat : list A) (l : list nat) (v : A)
  (i : nat) :
  i ∈ l → length flat ≤ i → setitem_indexes flat l v = Raise IndexError.
Proof.
  revert flat. induction l as [|a l IH]; intros flat Hi Hlen.
  - now apply elem_of_nil in Hi.
  - cbn [setitem_indexes]. destruct (a <? length flat) eqn:E; [|reflexivity].
    apply elem_of_cons in Hi as [->|Hi].
    + apply Nat.ltb_lt in E. lia.
    + apply IH; [exact Hi | now rewrite length_insert].
Qed.

(** X14.  get_ROI_from_indexes builds no mask from bad input: if the index
    list stored under the key holds an index at or beyond the number of
    voxels, the call raises IndexError; if the index store is empty, the
    getter's empty result is used as an index and the call raises
    IndexError; if the store holds other keys only, it raises KeyError. *)
Theorem mask_needs_valid_indexes (self : scan) (h : heap) (key : Z)
  (d : ndarray3 Q) :
  data (scan_volume self) = Some d → wf3 d →
  (∀ l i, is_Some (h !! indexes (scan_ROI self)) →
     i ∈ l → np_size d ≤ i →
     get_ROI_from_indexes self (Some key)
       (update_indexes (scan_ROI self) (Some key) (VIndexes l) h)
     = Raise IndexError) ∧
  (h !! indexes (scan_ROI self) = Some ∅ →
   get_ROI_from_indexes self (Some key) h = Raise IndexError) ∧
  (∀ store, h !! indexes (scan_ROI self) = Some store → store ≠ ∅ →
     store !! str (Some key) = None →
     get_ROI_from_indexes self (Some key) h
     = Raise (KeyError (str (Some key)))).
Proof.
  intros Hd Hwf. unfold get_ROI_from_indexes. rewrite Hd.
  split; [|split].
  - intros l i Hsome Hi Hlen.
    rewrite dict_get_set_ROI by exact Hsome. cbn [mbind result_bind].
    rewrite flatten_zeros_like by exact Hwf.
    rewrite (setitem_indexes_out_of_range _ l 1%Q i Hi)
      by now rewrite length_replicate.
    reflexivity.
  - intros Hempty. unfold get_indexes.
    now rewrite dict_get_empty by exact Hempty.
  - intros store Hs Hne Hk. unfold get_indexes.
    now rewrite (dict_get_unset h _ store key Hs Hne Hk).
Qed.

Lemma mask_needs_valid_indexes_witness :
  get_ROI_from_indexes sample_scan (Some 0%Z)
    (update_indexes (scan_ROI sample_scan) (Some 0%Z)
       (VIndexes [4; 6]) [∅; ∅; ∅; ∅])
  = Raise IndexError.
Proof.
  assert (Hwf : wf3 (Nd3 float64 (2, 1, 3) [[[5; 6; 7]]; [[8; 9; 10]]]%Q))
    by (repeat constructor).
  refine (proj1 (mask_needs_valid_indexes sample_scan [∅; ∅; ∅; ∅] 0%Z _
                   eq_refl Hwf) [4; 6] 6 _ _ _).
  - eexists. reflexivity.
  - right. left.
  - cbn. lia.
Defined.

Lemma roi_store_update_get_witness :
  get_nameSet {| indexes := 0; roi_names := 1; nameSet := 2; nameSetInfo := 3 |}
    (Some 3%Z)
    (update_nameSet
       {| indexes := 0; roi_names := 1; nameSet := 2; nameSetInfo := 3 |}
       (Some 2%Z) (VStr "b") [∅; ∅; {["3" := VStr "a"]}; ∅])
  = Ok (VStr "a").
Proof.
  refine (proj1 (proj2 (proj2
            (proj1 (proj2 (proj2 roi_store_update_get))
               {| indexes := 0; roi_names := 1; nameSet := 2;
                  nameSetInfo := 3 |}
               [∅; ∅; {["3" := VStr "a"]}; ∅] {["3" := VStr "a"]}
               2%Z 3%Z (VStr "b") (VStr "b") eq_refl))) _ (VStr "a") _).
  - lia.
  - vm_compute. reflexivity.
Defined.

(** *** Where the conversion to LPS puts a voxel *)

Lemma rev_lookup {A} (l : list A) (i : nat) :
  i < length l → rev l !! i = l !! (length l - S i).
Proof. intros Hi. rewrite rev_alt. now apply reverse_lookup. Qed.

Lemma flip_at3 {A} (d : ndarray3 A) (n0 n1 n2 i j k : nat) :
  shape3 d = (n0, n1, n2) → wf3 d → i < n0 → j < n1 →
  at3 (np_flip1 (np_flip0 d)) i j k = at3 d (n0 - S i) (n1 - S j) k.
Proof.
  intros Hsh Hwf Hi Hj. unfold wf3 in Hwf. rewrite Hsh in Hwf.
  destruct Hwf as [Hlen Hall].
  unfold at3, np_flip1, np_flip0. cbn [cells3].
  rewrite list_lookup_fmap, rev_lookup by lia. rewrite Hlen.
  destruct (lookup_lt_is_Some_2 (cells3 d) (n0 - S i)) as [plane Hp]; [lia|].
  rewrite Hp. cbn.
  assert (Hpl : length plane = n1).
  { rewrite Forall_forall in Hall.
    apply (Hall plane). apply list_elem_of_lookup. eauto. }
  rewrite rev_lookup by lia. now rewrite Hpl.
Qed.

Lemma flip_wf3 {A} (d : ndarray3 A) :
  wf3 d → wf3 (np_flip1 (np_flip0 d)).
Proof.
  unfold wf3, np_flip1, np_flip0. cbn [shape3 cells3].
  destruct (shape3 d) as [[n0 n1] n2]. intros [Hlen Hall]. split.
  - now rewrite length_map, length_rev.
  - apply Forall_fmap. apply Forall_forall. intros plane Hp.
    rewrite Forall_forall in Hall.
    assert (Hin : plane ∈ cells3 d).
    { apply list_elem_of_In. apply in_rev. now apply list_elem_of_In. }
    destruct (Hall plane Hin) as [Hl Hlines]. cbn. split.
    + now rewrite length_rev.
    + apply Forall_forall. intros line Hline. rewrite Forall_forall in Hlines.
      apply Hlines. apply list_elem_of_In. apply in_rev.
      now apply list_elem_of_In.
Qed.

(** X15.  volume.convert_to_LPS on a well-formed array of shape (n0, n1,
    n2): the result has the same dtype and shape, the spatial reference and
    the rotation are untouched, and voxel (i, j, k) of the result is voxel
    (n0-1-i, n1-1-j, k) of the input.  ROI.convert_to_LPS does the same to a
    mask, so a mask and its volume stay aligned. *)
Theorem convert_to_LPS_mirrors (v : volume) (d : ndarray3 Q)
  (n0 n1 n2 : nat) :
  data v = Some d → shape3 d = (n0, n1, n2) → wf3 d →
  ∃ v' d', convert_to_LPS v = Ok v' ∧ data v' = Some d' ∧
    spatialRef v' = spatialRef v ∧ scan_rot v' = scan_rot v ∧
    dtype3 d' = dtype3 d ∧ shape3 d' = shape3 d ∧ wf3 d' ∧
    d' = ROI_convert_to_LPS d ∧
    ∀ i j k, i < n0 → j < n1 →
      at3 d' i j k = at3 d (n0 - 1 - i) (n1 - 1 - j) k.
Proof.
  intros Hd Hsh Hwf. unfold convert_to_LPS. rewrite Hd.
  eexists _, _. split; [reflexivity|]. cbn [data update_data spatialRef scan_rot].
  split; [reflexivity|]. split; [reflexivity|]. split; [reflexivity|].
  split; [reflexivity|]. split; [reflexivity|].
  split; [now apply flip_wf3|]. split; [reflexivity|].
  intros i j k Hi Hj.
  rewrite (flip_at3 d n0 n1 n2 i j k Hsh Hwf Hi Hj).
  f_equal; lia.
Qed.

Lemma convert_to_LPS_mirrors_witness :
  ∃ v' d', convert_to_LPS sample_volume = Ok v' ∧ data v' = Some d' ∧
           at3 d' 0 0 2 = Some 10%Q.
Proof.
  assert (Hwf : wf3 (Nd3 float64 (2, 1, 3) [[[5; 6; 7]]; [[8; 9; 10]]]%Q))
    by (repeat constructor).
  destruct (convert_to_LPS_mirrors sample_volume _ 2 1 3 eq_refl eq_refl Hwf)
    as (v' & d' & Hc & Hd' & _ & _ & _ & _ & _ & _ & Hat).
  exists v', d'. split; [exact Hc|]. split; [exact Hd'|].
  rewrite (Hat 0 0 2) by lia. reflexivity.
Defined.

End MEDimageFacts.

(** ** DataManager.py *)

Module DataManagerFacts.

Import DataManager.

(** *** Accumulator *)
Section AccumulatorFacts.
Context {I : Type}.
Implicit Types m : manager I.

Lemma nifti_step_keeps m (inst : I) :
  keep_instances m = true →
  instances (nifti_step m inst) = instances m ++ [inst] ∧
  keep_instances (nifti_step m inst) = true.
Proof.
  intros Hk. unfold nifti_step.
  destruct ((10 <? length (instances m)) && negb (warned m)); cbn;
    rewrite Hk; cbn; split; first [reflexivity | exact Hk].
Qed.

Lemma process_all_niftis_keeps_all m (reconstructed : list I) :
  keep_instances m = true →
  instances (process_all_niftis m reconstructed)
  = instances m ++ reconstructed.
Proof.
  unfold process_all_niftis. revert m.
  induction reconstructed as [|inst rest IH]; intros m Hk; cbn.
  - now rewrite app_nil_r.
  - destruct (nifti_step_keeps m inst Hk) as [Hi Hk'].
    rewrite IH by exact Hk'. rewrite Hi, <- app_assoc. reflexivity.
Qed.

Lemma collect_first_after_warning m (batch : list I) :
  warned m = true → keep_instances m = true →
  instances (collect_first m batch) = instances m ++ batch.
Proof.
  intros Hw Hk. unfold collect_first. rewrite Hw, Hk.
  rewrite andb_false_r. reflexivity.
Qed.

Lemma collect_last_after_warning m (batch : list I) :
  warned m = true →
  instances (collect_last m batch) = instances m ++ batch.
Proof.
  intros Hw. unfold collect_last. rewrite Hw.
  rewrite andb_false_r. reflexivity.
Qed.

Lemma collect_first_drops_once m (batch : list I) :
  10 < length (instances m) → warned m = false →
  instances (collect_first m batch) = instances m ∧
  warned (collect_first m batch) = true.
Proof.
  intros Hlen Hw. unfold collect_first.
  rewrite (proj2 (Nat.ltb_lt _ _) Hlen), Hw. cbn. split; reflexivity.
Qed.

End AccumulatorFacts.

(** C9 (code defect).  The claim promises that beyond ten held instances
    every further one is dropped.  [process_all_niftis] appends every
    instance whatever the count: from a fresh manager that keeps instances,
    n image files leave n instances, for every n. *)
Theorem accumulator_is_unbounded (n : nat) :
  length (instances (process_all_niftis (manager_init true) (seq 0 n))) = n.
Proof.
  rewrite process_all_niftis_keeps_all by reflexivity.
  cbn. apply length_seq.
Qed.

(** Thirteen files: all thirteen are held, after one warning. *)
Lemma thirteen_niftis_all_retained :
  let m := process_all_niftis (manager_init true) (seq 0 13) in
  instances m = seq 0 13 ∧ warned m = true ∧ warnings_issued m = 1.
Proof. vm_compute. repeat split. Qed.

(** [process_all_dicoms] drops one batch, the one that meets the warning;
    once [__warned] is set the next batch is kept again. *)
Lemma dicoms_retained_after_warning :
  let m0 := process_all_niftis (manager_init true) (seq 0 11) in
  let m1 := process_all_dicoms m0 [100; 101] [] in
  let m2 := process_all_dicoms m1 [200; 201] [] in
  length (instances m0) = 11 ∧ warned m0 = false ∧
  instances m1 = instances m0 ∧ warned m1 = true ∧
  instances m2 = instances m0 ++ [200; 201].
Proof. vm_compute. repeat split. Qed.

(** *** Association *)

Lemma matching_from_spec (s : nat) (uid : string) (cell : list string)
  (n : nat) :
  n ∈ matching_from s uid cell ↔ ∃ j, n = s + j ∧ cell !! j = Some uid.
Proof.
  revert s. induction cell as [|e cell IH]; intros s; cbn.
  - split; [intros H; now apply elem_of_nil in H|].
    intros (j & _ & Hj). now rewrite lookup_nil in Hj.
  - destruct (String.eqb e uid) eqn:E.
    + apply String.eqb_eq in E as ->. rewrite elem_of_cons, IH. split.
      * intros [->|(j & -> & Hj)]; [exists 0; split; [lia|reflexivity]|].
        exists (S j). split; [lia | exact Hj].
      * intros (j & -> & Hj). destruct j as [|j]; [left; lia|].
        right. exists j. split; [lia | exact Hj].
    + apply String.eqb_neq in E. rewrite IH. split.
      * intros (j & -> & Hj). exists (S j). split; [lia | exact Hj].
      * intros (j & -> & Hj). destruct j as [|j].
        -- cbn in Hj. congruence.
        -- exists j. split; [lia | exact Hj].
Qed.

Lemma matching_from_NoDup (s : nat) (uid : string) (cell : list string) :
  NoDup (matching_from s uid cell).
Proof.
  revert s. induction cell as [|e cell IH]; intros s; cbn; [constructor|].
  destruct (String.eqb e uid); [|apply IH].
  constructor; [|apply IH].
  intros Hin. apply matching_from_spec in Hin as (j & Hj & _). lia.
Qed.

Lemma append_to_cells_spec (cells : list (list string)) (ind : list nat)
  (path : string) :
  NoDup ind → Forall (λ n, n < length cells) ind →
  ∃ cells', append_to_cells cells ind path = (cells', Ok tt) ∧
            length cells' = length cells ∧
            ∀ n, cells' !! n = if bool_decide (n ∈ ind)
                               then (λ l, l ++ [path]) <$> cells !! n
                               else cells !! n.
Proof.
  revert cells. induction ind as [|a ind IH]; intros cells Hnd Hall.
  - exists cells. repeat split.
  - apply NoDup_cons in Hnd as [Ha Hnd].
    apply Forall_cons in Hall as [Hlt Hall].
    destruct (lookup_lt_is_Some_2 cells a Hlt) as [l Hl].
    cbn [append_to_cells]. rewrite Hl.
    destruct (IH (<[a:=l ++ [path]]> cells) Hnd)
      as (cells' & Happ & Hlen & Hget).
    { eapply Forall_impl; [exact Hall|]. intros n Hn.
      now rewrite length_insert. }
    exists cells'. split; [exact Happ|]. rewrite length_insert in Hlen.
    split; [exact Hlen|]. intros n. rewrite Hget.
    destruct (decide (n = a)) as [->|Hne].
    + rewrite (bool_decide_eq_false_2 (a ∈ ind)) by exact Ha.
      rewrite bool_decide_eq_true_2 by left.
      rewrite list_lookup_insert_eq by exact Hlt. now rewrite Hl.
    + rewrite list_lookup_insert_ne by congruence.
      destruct (decide (n ∈ ind)) as [Hin|Hnin].
      * rewrite !bool_decide_eq_true_2; [reflexivity | now right | exact Hin].
      * rewrite !bool_decide_eq_false_2; [reflexivity | | exact Hnin].
        intros Hin. apply elem_of_cons in Hin as [?|?]; contradiction.
Qed.

Lemma append_to_cells_out_of_range (cells : list (list string)) (n : nat)
  (path : string) :
  length cells ≤ n →
  append_to_cells cells [n] path = (cells, Raise IndexError).
Proof.
  intros Hn. cbn. now rewrite (lookup_ge_None_2 cells n Hn).
Qed.

Lemma append_matching (ids : list string) (uid path : string)
  (cells : list (list string)) :
  length ids ≤ length cells →
  ∃ cells', append_to_cells cells (matching_from 0 uid ids) path
            = (cells', Ok tt) ∧
            appended_where ids uid path cells cells'.
Proof.
  intros Hlen.
  destruct (append_to_cells_spec cells (matching_from 0 uid ids) path)
    as (cells' & Happ & Hl & Hget).
  - apply matching_from_NoDup.
  - apply Forall_forall. intros n Hn.
    apply matching_from_spec in Hn as (j & -> & Hj).
    apply lookup_lt_Some in Hj. lia.
  - exists cells'. split; [exact Happ|]. split; [exact Hl|].
    intros n. rewrite Hget.
    rewrite (bool_decide_ext (n ∈ matching_from 0 uid ids)
                             (ids !! n = Some uid)); [reflexivity|].
    rewrite matching_from_spec. split.
    + intros (j & -> & Hj). exact Hj.
    + intros Hn. exists n. split; [reflexivity | exact Hn].
Qed.

Lemma set_cell_path_rs_id (st : DICOM) :
  set_cell_path_rs st (cell_path_rs st) = st.
Proof. now destruct st. Qed.

(** A structure set whose series UID is known is linked to every slot of
    that series, and to no other. *)
Lemma associate_by_series (st : DICOM) (i : nat) (path uid : string) :
  stack_series_rs st !! i = Some uid →
  uid ∈ cell_series_id st →
  length (cell_series_id st) ≤ length (cell_path_rs st) →
  ∃ cells', associate_one st i path = (set_cell_path_rs st cells', Ok tt) ∧
            appended_where (cell_series_id st) uid path
                           (cell_path_rs st) cells'.
Proof.
  intros Hs Hin Hlen. unfold associate_one, __find_uid_cell_index.
  rewrite Hs, bool_decide_eq_true_2 by exact Hin.
  destruct (append_matching (cell_series_id st) uid path (cell_path_rs st) Hlen)
    as (cells' & -> & Hw).
  exists cells'. split; [reflexivity | exact Hw].
Qed.

(** A structure set whose series UID is unknown falls back to its frame of
    reference and is linked to every slot with that frame UID: with several
    series in one frame of reference, to all of them. *)
Lemma associate_by_frame (st : DICOM) (i : nat) (path uid frame : string) :
  stack_series_rs st !! i = Some uid →
  uid ∉ cell_series_id st →
  length (cell_path_rs st) ≤ length (cell_series_id st) →
  stack_frame_rs st !! i = Some frame →
  frame ∈ cell_frame_id st →
  length (cell_frame_id st) ≤ length (cell_path_rs st) →
  ∃ cells', associate_one st i path = (set_cell_path_rs st cells', Ok tt) ∧
            appended_where (cell_frame_id st) frame path
                           (cell_path_rs st) cells'.
Proof.
  intros Hs Hnin Hlen Hf Hin Hlenf. unfold associate_one, __find_uid_cell_index.
  rewrite Hs, bool_decide_eq_false_2 by exact Hnin.
  rewrite append_to_cells_out_of_range by exact Hlen.
  rewrite Hf, bool_decide_eq_true_2 by exact Hin.
  destruct (append_matching (cell_frame_id st) frame path (cell_path_rs st) Hlenf)
    as (cells' & -> & Hw).
  exists cells'. split; [reflexivity | exact Hw].
Qed.

(** When neither lookup finds the UID, the [except] block itself indexes
    [cell_path_rs] out of range, and nothing catches that. *)
Theorem unmatched_structure_set_raises (st : DICOM) (i : nat)
  (path uid frame : string) :
  stack_series_rs st !! i = Some uid →
  uid ∉ cell_series_id st →
  length (cell_path_rs st) ≤ length (cell_series_id st) →
  stack_frame_rs st !! i = Some frame →
  frame ∉ cell_frame_id st →
  length (cell_path_rs st) ≤ length (cell_frame_id st) →
  associate_one st i path = (st, Raise IndexError).
Proof.
  intros Hs Hnin Hlen Hf Hninf Hlenf. unfold associate_one, __find_uid_cell_index.
  rewrite Hs, bool_decide_eq_false_2 by exact Hnin.
  rewrite append_to_cells_out_of_range by exact Hlen.
  rewrite Hf, bool_decide_eq_false_2 by exact Hninf.
  rewrite append_to_cells_out_of_range by exact Hlenf.
  now rewrite set_cell_path_rs_id.
Qed.

(** C3 (code defect).  The claim promises that a structure set whose series
    UID and frame UID both match nothing yields zero associations and is not
    raised.  Two series (S1, S2) in frame F1 and a structure set rs_a with
    series UID NotFound and frame UID F9: [__associate_rt_stuct] ends with
    IndexError, and the structure set rs_b behind it, which does match S2, is
    never linked. *)
Lemma unmatched_sample :
  let st := sample_dicom ["S1"; "S2"] ["F1"; "F1"]
              [("rs_a.dcm", "NotFound", "F9"); ("rs_b.dcm", "S2", "F1")] in
  __associate_rt_stuct st = (st, Raise IndexError).
Proof. vm_compute. reflexivity. Qed.

(** Series match, frame fallback and fan-out on a run that ends normally:
    rs_a goes to its series S2; rs_b, of unknown series, goes to both series
    of frame F1. *)
Lemma matched_sample :
  let st := sample_dicom ["S1"; "S2"; "S3"] ["F1"; "F2"; "F1"]
              [("rs_a.dcm", "S2", "F2"); ("rs_b.dcm", "NotFound", "F1")] in
  ∃ st', __associate_rt_stuct st = (st', Ok tt) ∧
         cell_path_rs st' = [["rs_b.dcm"]; ["rs_a.dcm"]; ["rs_b.dcm"]] ∧
         associated_slots st' "rs_b.dcm" = [0; 2].
Proof. eexists. vm_compute. repeat split. Qed.

(** *** [__find_uid_cell_index] *)

Lemma matching_from_sorted (s : nat) (uid : string) (cell : list string) :
  StronglySorted lt (matching_from s uid cell).
Proof.
  revert s. induction cell as [|e cell IH]; intros s; cbn; [constructor|].
  destruct (String.eqb e uid); [|apply IH].
  constructor; [apply IH|]. apply Forall_forall. intros n Hn.
  apply matching_from_spec in Hn as (j & -> & _). lia.
Qed.

Lemma find_uid_cell_index_in (uid : string) (cell : list string) :
  uid ∈ cell →
  ∀ n, n ∈ __find_uid_cell_index uid cell ↔ cell !! n = Some uid.
Proof.
  intros Hin n. unfold __find_uid_cell_index.
  rewrite bool_decide_eq_true_2 by exact Hin.
  rewrite matching_from_spec. split.
  - intros (j & -> & Hj). exact Hj.
  - intros Hn. exists n. split; [reflexivity | exact Hn].
Qed.

Lemma find_uid_cell_index_sorted (uid : string) (cell : list string) :
  StronglySorted lt (__find_uid_cell_index uid cell).
Proof.
  unfold __find_uid_cell_index. destruct (bool_decide (uid ∈ cell)).
  - apply matching_from_sorted.
  - repeat constructor.
Qed.

Lemma find_uid_cell_index_new (uid : string) (cell : list string) :
  uid ∉ cell → __find_uid_cell_index uid cell = [length cell].
Proof.
  intros Hnin. unfold __find_uid_cell_index.
  now rewrite bool_decide_eq_false_2 by exact Hnin.
Qed.

(** X16.  __find_uid_cell_index never returns the empty list and its result
    ascends strictly.  When the UID occurs in the cell, the result holds
    exactly the positions where it occurs; when it does not, the result is
    the single index len(cell), which is not a position of the cell. *)
Theorem find_uid_cell_index_spec (uid : string) (cell : list string) :
  __find_uid_cell_index uid cell ≠ [] ∧
  StronglySorted lt (__find_uid_cell_index uid cell) ∧
  (uid ∈ cell →
   ∀ n, n ∈ __find_uid_cell_index uid cell ↔ cell !! n = Some uid) ∧
  (uid ∉ cell →
   __find_uid_cell_index uid cell = [length cell] ∧
   cell !! length cell = None).
Proof.
  split; [|split; [apply find_uid_cell_index_sorted|split]].
  - destruct (decide (uid ∈ cell)) as [Hin|Hnin].
    + pose proof (find_uid_cell_index_in uid cell Hin) as Hspec.
      apply list_elem_of_lookup in Hin as [n Hn]. apply Hspec in Hn.
      intros E. rewrite E in Hn. now apply elem_of_nil in Hn.
    + now rewrite find_uid_cell_index_new by exact Hnin.
  - apply find_uid_cell_index_in.
  - intros Hnin. split; [now apply find_uid_cell_index_new|].
    apply lookup_ge_None_2. lia.
Qed.

(** *** [__associate_rt_stuct] never takes anything away *)

Lemma append_to_cells_grows (cells : list (list string)) (ind : list nat)
  (path : string) :
  length (fst (append_to_cells cells ind path)) = length cells ∧
  ∀ n l, cells !! n = Some l →
    ∃ k, fst (append_to_cells cells ind path) !! n
         = Some (l ++ replicate k path).
Proof.
  revert cells. induction ind as [|a ind IH]; intros cells.
  - cbn. split; [reflexivity|]. intros n l Hl. exists 0.
    now rewrite app_nil_r.
  - cbn [append_to_cells]. destruct (cells !! a) as [la|] eqn:Ea.
    + destruct (IH (<[a:=la ++ [path]]> cells)) as [Hlen Hget].
      rewrite length_insert in Hlen. split; [exact Hlen|].
      intros n l Hl. destruct (decide (n = a)) as [->|Hne].
      * assert (l = la) as -> by congruence.
        destruct (Hget a (la ++ [path])) as [k Hk].
        { apply list_lookup_insert_eq. now apply lookup_lt_Some in Ea. }
        exists (S k). rewrite Hk, <- app_assoc. reflexivity.
      * destruct (Hget n l) as [k Hk].
        { now rewrite list_lookup_insert_ne by congruence. }
        exists k. exact Hk.
    + cbn. split; [reflexivity|]. intros n l Hl. exists 0.
      now rewrite app_nil_r.
Qed.

(** The fields that a state shares with another, all but [cell_path_rs]. *)
Lemma associate_one_grows (st : DICOM) (i : nat) (path : string) :
  ∃ cells', fst (associate_one st i path) = set_cell_path_rs st cells' ∧
    length cells' = length (cell_path_rs st) ∧
    ∀ n l, cell_path_rs st !! n = Some l →
      ∃ k, cells' !! n = Some (l ++ replicate k path).
Proof.
  unfold associate_one.
  set (attempt := match stack_series_rs st !! i with
                  | Some uid => _ | None => _ end).
  assert (Ha : length (fst attempt) = length (cell_path_rs st) ∧
               ∀ n l, cell_path_rs st !! n = Some l →
                 ∃ k, fst attempt !! n = Some (l ++ replicate k path)).
  { subst attempt. destruct (stack_series_rs st !! i) as [uid|].
    - apply append_to_cells_grows.
    - cbn. split; [reflexivity|]. intros n l Hl. exists 0.
      now rewrite app_nil_r. }
  destruct attempt as [cells [[]|e]]; cbn [fst] in Ha.
  - exists cells. split; [reflexivity|]. exact Ha.
  - destruct (stack_frame_rs st !! i) as [frame|].
    + destruct (append_to_cells_grows cells
                  (__find_uid_cell_index frame (cell_frame_id st)) path)
        as [Hlen Hget].
      destruct (append_to_cells cells _ path) as [cells' r]. cbn [fst] in *.
      exists cells'. split; [reflexivity|].
      destruct Ha as [Hla Hga]. split; [congruence|].
      intros n l Hl. destruct (Hga n l Hl) as [k Hk].
      destruct (Hget n _ Hk) as [k' Hk']. exists (k + k').
      rewrite Hk', <- app_assoc, replicate_add. reflexivity.
    + exists cells. split; [reflexivity|]. exact Ha.
Qed.

Lemma associate_from_grows (st : DICOM) (i : nat) (paths : list string) :
  ∃ cells', fst (associate_from st i paths) = set_cell_path_rs st cells' ∧
    length cells' = length (cell_path_rs st) ∧
    ∀ n l, cell_path_rs st !! n = Some l →
      ∃ added, cells' !! n = Some (l ++ added) ∧
               Forall (λ p, p ∈ paths) added.
Proof.
  revert st i. induction paths as [|path paths IH]; intros st i.
  - exists (cell_path_rs st). cbn. split; [now rewrite set_cell_path_rs_id|].
    split; [reflexivity|]. intros n l Hl. exists [].
    split; [now rewrite app_nil_r | constructor].
  - cbn [associate_from].
    destruct (associate_one_grows st i path) as (cells1 & E1 & Hlen1 & Hget1).
    destruct (associate_one st i path) as [st1 [[]|e]]; cbn [fst] in E1.
    + destruct (IH st1 (S i)) as (cells' & E' & Hlen' & Hget').
      exists cells'. subst st1. cbn [cell_path_rs set_cell_path_rs] in *.
      split; [rewrite E'; now destruct st|]. split; [congruence|].
      intros n l Hl. destruct (Hget1 n l Hl) as [k Hk].
      destruct (Hget' n _ Hk) as (added & Ha & Hall).
      exists (replicate k path ++ added). split; [now rewrite app_assoc|].
      apply Forall_app. split.
      * apply Forall_forall. intros p Hp. apply elem_of_replicate in Hp as [-> _].
        left.
      * eapply Forall_impl; [exact Hall|]. intros p Hp. now right.
    + exists cells1. cbn [fst]. split; [exact E1|]. split; [exact Hlen1|].
      intros n l Hl. destruct (Hget1 n l Hl) as [k Hk].
      exists (replicate k path). split; [exact Hk|].
      apply Forall_forall. intros p Hp. apply elem_of_replicate in Hp as [-> _].
      left.
Qed.

(** X17.  Whatever the state and however the call ends, normally or with an
    exception, __associate_rt_stuct changes nothing but cell_path_rs: the
    seven other lists are as before, cell_path_rs has as many slots as
    before, and every slot holds what it held, followed by paths taken from
    stack_path_rs. *)
Theorem associate_only_appends (st : DICOM) :
  let st' := fst (__associate_rt_stuct st) in
  stack_series_rs st' = stack_series_rs st ∧
  stack_path_rs st' = stack_path_rs st ∧
  stack_frame_rs st' = stack_frame_rs st ∧
  cell_series_id st' = cell_series_id st ∧
  cell_path_images st' = cell_path_images st ∧
  cell_frame_rs st' = cell_frame_rs st ∧
  cell_frame_id st' = cell_frame_id st ∧
  length (cell_path_rs st') = length (cell_path_rs st) ∧
  ∀ n l, cell_path_rs st !! n = Some l →
    ∃ added, cell_path_rs st' !! n = Some (l ++ added) ∧
             Forall (λ p, p ∈ stack_path_rs st) added.
Proof.
  intros st'. subst st'. unfold __associate_rt_stuct.
  destruct (associate_from_grows st 0 (stack_path_rs st))
    as (cells' & -> & Hlen & Hget).
  cbn. repeat (split; [reflexivity|]). split; [exact Hlen | exact Hget].
Qed.

(** *** [__associate_rt_stuct] when every series UID is known *)

Lemma associate_from_known (st : DICOM) (i : nat) (paths uids : list string) :
  length uids = length paths →
  (∀ j uid, uids !! j = Some uid → stack_series_rs st !! (i + j) = Some uid) →
  Forall (λ uid, uid ∈ cell_series_id st) uids →
  length (cell_series_id st) ≤ length (cell_path_rs st) →
  ∃ cells', associate_from st i paths = (set_cell_path_rs st cells', Ok tt) ∧
    length cells' = length (cell_path_rs st) ∧
    ∀ n, cells' !! n
         = (λ l, l ++ match cell_series_id st !! n with
                      | Some u =>
                          map fst (List.filter (λ pu, String.eqb (snd pu) u)
                                               (zip paths uids))
                      | None => []
                      end) <$> cell_path_rs st !! n.
Proof.
  revert st i uids. induction paths as [|path paths IH];
    intros st i uids Hlen Hstack Hknown Hcells.
  - exists (cell_path_rs st). cbn. rewrite set_cell_path_rs_id.
    split; [reflexivity|]. split; [reflexivity|]. intros n.
    destruct (cell_path_rs st !! n) as [l|]; cbn; [|reflexivity].
    destruct (cell_series_id st !! n); now rewrite app_nil_r.
  - destruct uids as [|uid uids]; [discriminate|].
    cbn in Hlen. apply Nat.succ_inj in Hlen.
    apply Forall_cons in Hknown as [Hin Hknown].
    assert (Hi : stack_series_rs st !! i = Some uid).
    { specialize (Hstack 0 uid eq_refl). now rewrite Nat.add_0_r in Hstack. }
    destruct (associate_by_series st i path uid Hi Hin Hcells)
      as (cells1 & E1 & Hl1 & Hget1).
    cbn [associate_from]. rewrite E1.
    destruct (IH (set_cell_path_rs st cells1) (S i) uids)
      as (cells' & E' & Hl' & Hget'); try assumption.
    { intros j u Hj. cbn. specialize (Hstack (S j) u Hj).
      now replace (i + S j) with (S (i + j)) in Hstack by lia. }
    { cbn. lia. }
    exists cells'. cbn [cell_path_rs cell_series_id set_cell_path_rs] in *.
    split; [rewrite E'; now destruct st|]. split; [congruence|].
    intros n. rewrite Hget', Hget1. cbn [zip zip_with List.filter snd].
    destruct (cell_series_id st !! n) as [u|] eqn:En.
    + destruct (decide (u = uid)) as [->|Hne].
      * rewrite bool_decide_eq_true_2 by reflexivity.
        rewrite String.eqb_refl. cbn [map fst].
        destruct (cell_path_rs st !! n) as [l|]; cbn; [|reflexivity].
        now rewrite <- app_assoc.
      * rewrite bool_decide_eq_false_2 by congruence.
        assert (String.eqb uid u = false) as ->
            by (apply String.eqb_neq; congruence).
        reflexivity.
    + rewrite bool_decide_eq_false_2 by discriminate. reflexivity.
Qed.

(** *** [__associate_rt_stuct]: series UID first, then frame UID *)

Lemma associate_from_resolves (st : DICOM) (i : nat)
  (paths uids frames : list string) :
  length uids = length paths → length frames = length paths →
  (∀ j u, uids !! j = Some u → stack_series_rs st !! (i + j) = Some u) →
  (∀ j f, frames !! j = Some f → stack_frame_rs st !! (i + j) = Some f) →
  Forall2 (λ u f, u ∈ cell_series_id st ∨ f ∈ cell_frame_id st) uids frames →
  length (cell_path_rs st) = length (cell_series_id st) →
  length (cell_frame_id st) = length (cell_series_id st) →
  ∃ cells', associate_from st i paths = (set_cell_path_rs st cells', Ok tt) ∧
    length cells' = length (cell_path_rs st) ∧
    ∀ n, cells' !! n
         = (λ l, l ++ map (λ t, fst (fst t))
                        (List.filter
                           (λ t, resolves_to st (snd (fst t)) (snd t) n)
                           (zip (zip paths uids) frames)))
           <$> cell_path_rs st !! n.
Proof.
  revert st i uids frames. induction paths as [|path paths IH];
    intros st i uids frames Hlu Hlf Hsu Hsf Hres Hlc Hlfr.
  - exists (cell_path_rs st). cbn. rewrite set_cell_path_rs_id.
    split; [reflexivity|]. split; [reflexivity|]. intros n.
    destruct (cell_path_rs st !! n) as [l|]; cbn; [|reflexivity].
    now rewrite app_nil_r.
  - destruct uids as [|uid uids]; [discriminate|].
    destruct frames as [|frame frames]; [discriminate|].
    cbn in Hlu, Hlf. apply Nat.succ_inj in Hlu, Hlf.
    apply Forall2_cons in Hres as [Hr Hres].
    assert (Hi : stack_series_rs st !! i = Some uid).
    { specialize (Hsu 0 uid eq_refl). now rewrite Nat.add_0_r in Hsu. }
    assert (Hfi : stack_frame_rs st !! i = Some frame).
    { specialize (Hsf 0 frame eq_refl). now rewrite Nat.add_0_r in Hsf. }
    assert (Hone : ∃ cells1,
              associate_one st i path = (set_cell_path_rs st cells1, Ok tt) ∧
              length cells1 = length (cell_path_rs st) ∧
              ∀ n, cells1 !! n
                   = if resolves_to st uid frame n
                     then (λ l, l ++ [path]) <$> cell_path_rs st !! n
                     else cell_path_rs st !! n).
    { unfold resolves_to.
      destruct (decide (uid ∈ cell_series_id st)) as [Hin|Hnin].
      - rewrite bool_decide_eq_true_2 by exact Hin.
        destruct (associate_by_series st i path uid Hi Hin)
          as (cells1 & E1 & Hl1 & Hg1); [lia|]. eauto.
      - rewrite bool_decide_eq_false_2 by exact Hnin.
        destruct Hr as [Hr|Hr]; [contradiction|].
        destruct (associate_by_frame st i path uid frame Hi Hnin)
          as (cells1 & E1 & Hl1 & Hg1); [lia | exact Hfi | exact Hr | lia|].
        eauto. }
    destruct Hone as (cells1 & E1 & Hl1 & Hget1).
    cbn [associate_from]. rewrite E1.
    destruct (IH (set_cell_path_rs st cells1) (S i) uids frames)
      as (cells' & E' & Hl' & Hget'); try assumption.
    { intros j u Hj. cbn. specialize (Hsu (S j) u Hj).
      now replace (i + S j) with (S (i + j)) in Hsu by lia. }
    { intros j f Hj. cbn. specialize (Hsf (S j) f Hj).
      now replace (i + S j) with (S (i + j)) in Hsf by lia. }
    { cbn. lia. }
    exists cells'. cbn [cell_path_rs set_cell_path_rs] in *.
    split; [rewrite E'; now destruct st|]. split; [congruence|].
    intros n. rewrite Hget', Hget1.
    cbn [zip zip_with List.filter fst snd].
    change (resolves_to (set_cell_path_rs st cells1))
      with (resolves_to st).
    destruct (resolves_to st uid frame n).
    + cbn [map fst]. destruct (cell_path_rs st !! n) as [l|]; cbn;
        [|reflexivity]. now rewrite <- app_assoc.
    + reflexivity.
Qed.

(** X18.  When the three stacks have the same length, the cell lists are
    aligned, and every stacked structure set has a series UID that some slot
    carries or else a frame UID that some slot carries, __associate_rt_stuct
    returns normally and slot n gains exactly the paths of the structure
    sets that resolve to n, in stack order: a structure set whose series UID
    is listed goes to the slots with that UID and its frame UID is not
    consulted; one whose series UID is not listed goes to every slot with
    its frame UID.  No slot is added. *)
Theorem associate_by_series_then_frame (st : DICOM) :
  length (stack_series_rs st) = length (stack_path_rs st) →
  length (stack_frame_rs st) = length (stack_path_rs st) →
  length (cell_path_rs st) = length (cell_series_id st) →
  length (cell_frame_id st) = length (cell_series_id st) →
  Forall2 (λ series_uid frame_uid,
             series_uid ∈ cell_series_id st ∨ frame_uid ∈ cell_frame_id st)
          (stack_series_rs st) (stack_frame_rs st) →
  ∃ st', __associate_rt_stuct st = (st', Ok tt) ∧
    length (cell_path_rs st') = length (cell_path_rs st) ∧
    ∀ n, cell_path_rs st' !! n
         = (λ l, l ++ linked st n) <$> cell_path_rs st !! n.
Proof.
  intros Hlu Hlf Hlc Hlfr Hres. unfold __associate_rt_stuct.
  destruct (associate_from_resolves st 0 (stack_path_rs st)
              (stack_series_rs st) (stack_frame_rs st))
    as (cells' & E & Hl & Hget); try assumption.
  { intros j u Hj. exact Hj. }
  { intros j f Hj. exact Hj. }
  exists (set_cell_path_rs st cells'). split; [exact E|].
  split; [exact Hl|]. intros n. cbn. rewrite Hget. reflexivity.
Qed.

Lemma associate_by_series_then_frame_witness :
  ∃ st', __associate_rt_stuct
           (sample_dicom ["S1"; "S2"; "S3"] ["F1"; "F2"; "F1"]
              [("rs_a.dcm", "S2", "F2"); ("rs_b.dcm", "NotFound", "F1")])
         = (st', Ok tt) ∧
         cell_path_rs st' !! 2 = Some ["rs_b.dcm"].
Proof.
  destruct (associate_by_series_then_frame
              (sample_dicom ["S1"; "S2"; "S3"] ["F1"; "F2"; "F1"]
                 [("rs_a.dcm", "S2", "F2"); ("rs_b.dcm", "NotFound", "F1")]))
    as (st' & E & _ & Hget).
  - reflexivity.
  - reflexivity.
  - reflexivity.
  - reflexivity.
  - cbn. constructor; [left; right; left|].
    constructor; [right; left | constructor].
  - exists st'. split; [exact E|]. rewrite (Hget 2). reflexivity.
Defined.

(** *** The directory scan *)

Lemma read_file_image (st : DICOM) (f : file) (info : FileDataset) :
  image_of f = Some info → read_file st f = read_image st (path f) info.
Proof.
  unfold image_of, read_file. destruct (is_dicom f); [|discriminate].
  destruct (dcmread f) as [i|]; [|discriminate]. cbn.
  destruct (Modality i) as [m|]; [|discriminate]. cbn.
  destruct (bool_decide _); [|discriminate]. now intros [= ->].
Qed.

Lemma read_file_rtstruct (st : DICOM) (f : file) (info : FileDataset) :
  rtstruct_of f = Some info → read_file st f = read_rtstruct st (path f) info.
Proof.
  unfold rtstruct_of, read_file. destruct (is_dicom f); [|discriminate].
  destruct (dcmread f) as [i|]; [|discriminate]. cbn.
  destruct (Modality i) as [m|]; [|discriminate]. cbn.
  destruct (bool_decide _); [discriminate|].
  destruct (String.eqb m "RTSTRUCT"); [|discriminate]. now intros [= ->].
Qed.

Lemma read_file_other (st : DICOM) (f : file) :
  image_of f = None → rtstruct_of f = None → fst (read_file st f) = st.
Proof.
  unfold image_of, rtstruct_of, read_file.
  destruct (is_dicom f); [|reflexivity].
  destruct (dcmread f) as [i|]; [|reflexivity]. cbn.
  destruct (Modality i) as [m|]; [|reflexivity]. cbn.
  destruct (bool_decide _); [discriminate|].
  destruct (String.eqb m "RTSTRUCT"); [discriminate|]. reflexivity.
Qed.

Lemma image_not_rtstruct (f : file) (info : FileDataset) :
  image_of f = Some info → rtstruct_of f = None.
Proof.
  unfold image_of, rtstruct_of. destruct (is_dicom f); [|reflexivity].
  destruct (dcmread f) as [i|]; [|reflexivity]. cbn.
  destruct (Modality i) as [m|]; [|reflexivity]. cbn.
  destruct (bool_decide _); [reflexivity | discriminate].
Qed.

Lemma rtstruct_not_image (f : file) (info : FileDataset) :
  rtstruct_of f = Some info → image_of f = None.
Proof.
  intros Hr. destruct (image_of f) as [i|] eqn:E; [|reflexivity].
  apply image_not_rtstruct in E. congruence.
Qed.

Lemma images_of_series_snoc (uid : string) (seen : list file) (f : file) :
  images_of_series uid (seen ++ [f])
  = images_of_series uid seen ++
    (if bool_decide (image_series f = Some uid) then [path f] else []).
Proof.
  unfold images_of_series. rewrite List.filter_app, map_app. cbn.
  now destruct (bool_decide _).
Qed.

Lemma images_of_series_none (uid : string) (seen : list file) :
  (∀ f, f ∈ seen → image_series f ≠ Some uid) → images_of_series uid seen = [].
Proof.
  unfold images_of_series. induction seen as [|g seen IH]; intros Hn;
    [reflexivity|]. cbn.
  rewrite bool_decide_eq_false_2 by (apply Hn; left).
  apply IH. intros f Hf. apply Hn. now right.
Qed.

Lemma find_snoc {A} (p : A → bool) (l : list A) (x : A) :
  List.find p (l ++ [x])
  = match List.find p l with
    | Some y => Some y
    | None => if p x then Some x else None
    end.
Proof.
  induction l as [|a l IH]; cbn; [reflexivity|].
  destruct (p a); [reflexivity | exact IH].
Qed.

Lemma find_none_iff {A} (p : A → bool) (l : list A) :
  (∀ x, x ∈ l → p x = false) → List.find p l = None.
Proof.
  induction l as [|a l IH]; intros Hn; [reflexivity|]. cbn.
  rewrite (Hn a) by left. apply IH. intros x Hx. apply Hn. now right.
Qed.

Lemma find_uid_known (uid : string) (cell : list string) (n : nat) :
  NoDup cell → cell !! n = Some uid → __find_uid_cell_index uid cell = [n].
Proof.
  intros Hnd Hn.
  pose proof (find_uid_cell_index_sorted uid cell) as Hs.
  assert (Huid : uid ∈ cell) by (apply list_elem_of_lookup; eauto).
  pose proof (find_uid_cell_index_in uid cell Huid) as Hin.
  assert (Hall : ∀ m, m ∈ __find_uid_cell_index uid cell → m = n).
  { intros m Hm. apply Hin in Hm. eapply NoDup_lookup; eauto. }
  apply Hin in Hn.
  destruct (__find_uid_cell_index uid cell) as [|a [|b l]].
  - now apply elem_of_nil in Hn.
  - f_equal. apply Hall. left.
  - exfalso. apply StronglySorted_inv in Hs as [_ Hlt].
    apply Forall_cons in Hlt as [Hlt _].
    rewrite (Hall a), (Hall b) in Hlt; [lia | right; left | left].
Qed.

Lemma omap_snoc {A B} (g : A → option B) (l : list A) (x : A) :
  omap g (l ++ [x]) = omap g l ++ match g x with Some y => [y] | None => [] end.
Proof. rewrite omap_app. cbn. now destruct (g x). Qed.

Lemma scanned_init : scanned DICOM_init [].
Proof.
  unfold scanned, aligned. cbn.
  split; [auto|]. split; [constructor|]. split.
  { intros uid. split.
    - intros H. now apply elem_of_nil in H.
    - intros (f & Hf & _). now apply elem_of_nil in Hf. }
  split; [|auto]. intros n uid Hn. now rewrite lookup_nil in Hn.
Qed.

Lemma read_rtstruct_complete (st : DICOM) (p : string) (info : FileDataset)
  (frame_uid : string) :
  match ReferencedFrameOfReferenceUID info with
  | Some u => Some u
  | None => FrameOfReferenceUID info
  end = Some frame_uid →
  read_rtstruct st p info
  = ({| stack_series_rs := stack_series_rs st ++
          [default "NotFound" (ReferencedSeriesInstanceUID info)];
        stack_path_rs := stack_path_rs st ++ [p];
        stack_frame_rs := stack_frame_rs st ++ [frame_uid];
        cell_series_id := cell_series_id st;
        cell_path_rs := cell_path_rs st;
        cell_path_images := cell_path_images st;
        cell_frame_rs := cell_frame_rs st;
        cell_frame_id := cell_frame_id st |}, Ok tt).
Proof.
  unfold read_rtstruct.
  destruct (ReferencedFrameOfReferenceUID info) as [u|].
  - now intros [= ->].
  - intros ->. reflexivity.
Qed.

Lemma scanned_step (st : DICOM) (seen : list file) (f : file) :
  scanned st seen → complete f → scanned (fst (read_file st f)) (seen ++ [f]).
Proof.
  intros (Hal & Hnd & Hmem & Hslot & Hfr & Hsp & Hss & Hsf) [Hci Hcr].
  destruct Hal as (Hlf & Hli & Hlr).
  destruct (image_of f) as [info|] eqn:Ei.
  - (* an image *)
    pose proof (image_not_rtstruct f info Ei) as Er.
    destruct (Hci info eq_refl) as [[uid Hu] [frame Hf]].
    assert (His : image_series f = Some uid).
    { unfold image_series. rewrite Ei. exact Hu. }
    rewrite (read_file_image st f info Ei). unfold read_image. rewrite Hu.
    assert (Hstacks :
      ∀ st', stack_path_rs st' = stack_path_rs st →
             stack_series_rs st' = stack_series_rs st →
             stack_frame_rs st' = stack_frame_rs st →
             stack_path_rs st'
             = omap (λ f, _ ← rtstruct_of f; Some (path f)) (seen ++ [f]) ∧
             stack_series_rs st' = omap rtstruct_series (seen ++ [f]) ∧
             stack_frame_rs st' = omap rtstruct_frame (seen ++ [f])).
    { intros st' -> -> ->. rewrite !omap_snoc.
      unfold rtstruct_series, rtstruct_frame. rewrite Er. cbn.
      rewrite !app_nil_r. auto. }
    destruct (decide (uid ∈ cell_series_id st)) as [Hin|Hnin].
    + (* of a series seen before *)
      apply list_elem_of_lookup in Hin as [i Hi].
      rewrite (find_uid_known uid _ i Hnd Hi).
      pose proof (lookup_lt_Some _ _ _ Hi) as Hilt.
      rewrite (proj2 (Nat.eqb_neq _ _)) by lia.
      destruct (Hslot i uid Hi) as (Himg & Hrs & Hfirst).
      unfold add_image. rewrite Himg. cbn [fst].
      unfold scanned, aligned.
      cbn [cell_frame_id cell_series_id cell_path_images cell_path_rs
           cell_frame_rs stack_path_rs stack_series_rs stack_frame_rs].
      rewrite length_insert.
      split; [auto|]. split; [exact Hnd|]. split.
      { intros u. rewrite Hmem. split.
        - intros (g & Hg & Hgs). exists g. split; [|exact Hgs].
          apply elem_of_app. now left.
        - intros (g & Hg & Hgs). apply elem_of_app in Hg as [Hg|Hg].
          + eauto.
          + apply list_elem_of_singleton in Hg as ->.
            assert (u = uid) as -> by congruence.
            apply Hmem. apply list_elem_of_lookup. eauto. }
      split.
      { intros n u Hn. destruct (Hslot n u Hn) as (Himg' & Hrs' & g & ig & Hg & Hig & Hgf).
        rewrite images_of_series_snoc. split; [|split; [exact Hrs'|]].
        - destruct (decide (n = i)) as [->|Hne].
          + assert (u = uid) as -> by congruence.
            rewrite list_lookup_insert_eq by lia.
            now rewrite bool_decide_eq_true_2 by exact His.
          + rewrite list_lookup_insert_ne by congruence.
            rewrite bool_decide_eq_false_2.
            * now rewrite app_nil_r.
            * rewrite His. intros [= <-]. apply Hne.
              eapply NoDup_lookup; eauto.
        - exists g, ig. rewrite find_snoc, Hg. auto. }
      split; [exact Hfr|]. now apply Hstacks.
    + (* of a new series *)
      rewrite (find_uid_cell_index_new uid _ Hnin).
      rewrite Nat.eqb_refl. unfold new_volume. rewrite Hf.
      unfold add_image.
      cbn [cell_frame_id cell_series_id cell_path_images cell_path_rs
           cell_frame_rs stack_path_rs stack_series_rs stack_frame_rs].
      rewrite <- Hli.
      rewrite lookup_app_r by lia. rewrite Nat.sub_diag. cbn [lookup list_lookup].
      cbn [fst app].
      unfold scanned, aligned.
      cbn [cell_frame_id cell_series_id cell_path_images cell_path_rs
           cell_frame_rs stack_path_rs stack_series_rs stack_frame_rs].
      rewrite length_insert, !length_app. cbn [length].
      split; [lia|]. split.
      { apply NoDup_app. split; [exact Hnd|]. split; [|apply NoDup_singleton].
        intros u Hu' Hu''. apply list_elem_of_singleton in Hu''. congruence. }
      assert (Hnone : ∀ g, g ∈ seen → image_series g ≠ Some uid).
      { intros g Hg Hgs. apply Hnin. apply Hmem. eauto. }
      split.
      { intros u. rewrite elem_of_app, Hmem, list_elem_of_singleton. split.
        - intros [(g & Hg & Hgs)| ->].
          + exists g. split; [apply elem_of_app; now left | exact Hgs].
          + exists f. split; [apply elem_of_app; right; left | exact His].
        - intros (g & Hg & Hgs). apply elem_of_app in Hg as [Hg|Hg].
          + left. eauto.
          + apply list_elem_of_singleton in Hg as ->. right. congruence. }
      split.
      { intros n u Hn. rewrite images_of_series_snoc, find_snoc.
        destruct (decide (n < length (cell_series_id st))) as [Hlt|Hge].
        - rewrite lookup_app_l in Hn by exact Hlt.
          destruct (Hslot n u Hn) as (Himg' & Hrs' & g & ig & Hg & Hig & Hgf).
          assert (u ≠ uid).
          { intros ->. apply Hnin. apply list_elem_of_lookup. eauto. }
          rewrite list_lookup_insert_ne by lia.
          rewrite !lookup_app_l by lia.
          rewrite bool_decide_eq_false_2 by congruence.
          rewrite app_nil_r. split; [exact Himg'|]. split; [exact Hrs'|].
          exists g, ig. rewrite Hg. auto.
        - assert (n = length (cell_series_id st)) as ->.
          { apply lookup_lt_Some in Hn. rewrite length_app in Hn.
            cbn in Hn. lia. }
          rewrite lookup_app_r in Hn by lia.
          rewrite Nat.sub_diag in Hn. cbn in Hn. injection Hn as <-.
          rewrite Hli.
          rewrite list_lookup_insert_eq
            by (rewrite length_app; cbn; lia).
          rewrite (images_of_series_none uid seen Hnone).
          rewrite bool_decide_eq_true_2 by exact His.
          split; [reflexivity|]. split.
          + rewrite lookup_app_r by lia. rewrite Hlr, Nat.sub_diag. reflexivity.
          + exists f, info. rewrite find_none_iff.
            * split; [reflexivity|]. split; [exact Ei|].
              rewrite lookup_app_r by lia. rewrite Hlf, Nat.sub_diag.
              cbn. now rewrite Hf.
            * intros g Hg. apply bool_decide_eq_false_2. now apply Hnone. }
      split; [exact Hfr|]. now apply Hstacks.
  - destruct (rtstruct_of f) as [info|] eqn:Er.
    + (* a structure set *)
      rewrite (read_file_rtstruct st f info Er).
      assert (Hfs : ∃ frame_uid, rtstruct_frame f = Some frame_uid).
      { unfold rtstruct_frame. rewrite Er. cbn.
        destruct (ReferencedFrameOfReferenceUID info) as [u|] eqn:Eref;
          [eauto|].
        destruct (Hcr info eq_refl) as [[u Hu]|[u Hu]]; [congruence|].
        rewrite Hu. eauto. }
      destruct Hfs as (frame_uid & Hframe).
      rewrite (read_rtstruct_complete st (path f) info frame_uid)
        by (unfold rtstruct_frame in Hframe; now rewrite Er in Hframe).
      cbn [fst].
      assert (Hs0 : image_series f = None).
      { unfold image_series. now rewrite Ei. }
      unfold scanned, aligned.
      cbn [cell_frame_id cell_series_id cell_path_images cell_path_rs
           cell_frame_rs stack_path_rs stack_series_rs stack_frame_rs].
      split; [auto|]. split; [exact Hnd|]. split.
      { intros u. rewrite Hmem. split.
        - intros (g & Hg & Hgs). exists g. split; [|exact Hgs].
          apply elem_of_app. now left.
        - intros (g & Hg & Hgs). apply elem_of_app in Hg as [Hg|Hg]; [eauto|].
          apply list_elem_of_singleton in Hg as ->. congruence. }
      split.
      { intros n u Hn. destruct (Hslot n u Hn) as (Himg' & Hrs' & g & ig & Hg & Hig & Hgf).
        rewrite images_of_series_snoc, find_snoc, Hg.
        rewrite bool_decide_eq_false_2 by congruence. rewrite app_nil_r.
        split; [exact Himg'|]. split; [exact Hrs'|]. eauto. }
      split; [exact Hfr|].
      rewrite !omap_snoc. unfold rtstruct_series at 2. rewrite Hframe, Er. cbn.
      rewrite Hsp, Hss, Hsf. auto.
    + (* neither *)
      rewrite (read_file_other st f Ei Er).
      assert (Hs0 : image_series f = None).
      { unfold image_series. now rewrite Ei. }
      unfold scanned, aligned. split; [auto|]. split; [exact Hnd|]. split.
      { intros u. rewrite Hmem. split.
        - intros (g & Hg & Hgs). exists g. split; [|exact Hgs].
          apply elem_of_app. now left.
        - intros (g & Hg & Hgs). apply elem_of_app in Hg as [Hg|Hg]; [eauto|].
          apply list_elem_of_singleton in Hg as ->. congruence. }
      split.
      { intros n u Hn. destruct (Hslot n u Hn) as (Himg' & Hrs' & g & ig & Hg & Hig & Hgf).
        rewrite images_of_series_snoc, find_snoc, Hg.
        rewrite bool_decide_eq_false_2 by congruence. rewrite app_nil_r.
        split; [exact Himg'|]. split; [exact Hrs'|]. eauto. }
      split; [exact Hfr|].
      rewrite !omap_snoc. unfold rtstruct_series, rtstruct_frame. rewrite Er.
      cbn. rewrite !app_nil_r. auto.
Qed.

Lemma scan_files_scanned (st : DICOM) (seen stack_folder : list file) :
  scanned st seen → Forall complete stack_folder →
  scanned (scan_files st stack_folder) (seen ++ stack_folder).
Proof.
  revert st seen. induction stack_folder as [|f rest IH]; intros st seen Hs Hc.
  - now rewrite app_nil_r.
  - apply Forall_cons in Hc as [Hf Hc]. cbn [scan_files foldl].
    replace (seen ++ f :: rest) with ((seen ++ [f]) ++ rest)
      by now rewrite <- app_assoc.
    apply IH; [|exact Hc]. now apply scanned_step.
Qed.

(** X19.  The directory scan of __read_all_dicoms, started on the empty
    state with files that carry every attribute it reads: the four cell
    lists have one entry per series, no series UID is listed twice, the
    listed UIDs are exactly those of the image files (MR, PT, CT), the slot
    of a series holds the paths of its image files in scan order and no
    structure set yet, and the three stacks have the same length. *)
Theorem scan_groups_by_series (stack_folder : list file) :
  Forall complete stack_folder →
  let st := scan_files DICOM_init stack_folder in
  aligned st ∧
  NoDup (cell_series_id st) ∧
  (∀ uid, uid ∈ cell_series_id st ↔
          ∃ f, f ∈ stack_folder ∧ image_series f = Some uid) ∧
  (∀ n uid, cell_series_id st !! n = Some uid →
     cell_path_images st !! n = Some (images_of_series uid stack_folder) ∧
     cell_path_rs st !! n = Some []) ∧
  length (stack_series_rs st) = length (stack_path_rs st) ∧
  length (stack_frame_rs st) = length (stack_path_rs st).
Proof.
  intros Hc st.
  pose proof (scan_files_scanned DICOM_init [] stack_folder scanned_init Hc)
    as (Hal & Hnd & Hmem & Hslot & _ & Hsp & Hss & Hsf).
  fold st in Hal, Hnd, Hmem, Hslot, Hsp, Hss, Hsf. cbn [app] in *.
  split; [exact Hal|]. split; [exact Hnd|]. split; [exact Hmem|]. split.
  { intros n uid Hn. destruct (Hslot n uid Hn) as (Hi & Hr & _). auto. }
  rewrite Hsp, Hss, Hsf. clear -Hc.
  induction Hc as [|f rest [_ Hf] _ [IH1 IH2]]; [auto|].
  cbn [omap list_omap]. unfold rtstruct_series at 1, rtstruct_frame at 1.
  destruct (rtstruct_of f) as [info|] eqn:Er; cbn; [|auto].
  destruct (ReferencedFrameOfReferenceUID info) as [u|] eqn:Eref; cbn.
  - split; congruence.
  - destruct (Hf info eq_refl) as [[u Hu]|[u Hu]]; [congruence|].
    rewrite Hu. cbn. split; congruence.
Qed.

Lemma complete_image_file (p modality uid frame : string) :
  complete (image_file p modality uid (Some frame)).
Proof.
  split; intros info; unfold image_of, rtstruct_of; cbn.
  - destruct (bool_decide _); [|discriminate]. intros [= <-]. cbn. eauto.
  - destruct (bool_decide _); [discriminate|].
    destruct (String.eqb modality "RTSTRUCT"); [|discriminate].
    intros [= <-]. cbn. eauto.
Qed.

Lemma complete_rtstruct_file (p : string) (series : option string)
  (frame : string) :
  complete (rtstruct_file p series (Some frame)).
Proof.
  split; intros info; unfold image_of, rtstruct_of; cbn.
  - discriminate.
  - intros [= <-]. cbn. eauto.
Qed.

Lemma complete_not_dicom (p : string) (d : option FileDataset) :
  complete {| path := p; is_dicom := false; dcmread := d |}.
Proof. split; intros info; unfold image_of, rtstruct_of; cbn; discriminate. Qed.

Lemma complete_sample_folder : Forall complete sample_folder.
Proof.
  unfold sample_folder.
  repeat apply Forall_cons_2; try apply Forall_nil_2;
    first [apply complete_image_file | apply complete_rtstruct_file
          | apply complete_not_dicom].
Qed.

Lemma scan_groups_by_series_witness :
  cell_path_images (scan_files DICOM_init sample_folder) !! 0
  = Some ["a1.dcm"; "a2.dcm"].
Proof.
  pose proof complete_sample_folder as Hc.
  destruct (scan_groups_by_series sample_folder Hc) as (_ & _ & _ & Hslot & _).
  exact (proj1 (Hslot 0 "S1" eq_refl)).
Defined.

(** *** The scan followed by the association *)

Lemma linked_structure_sets (uid : string) (l : list file) :
  map fst (List.filter (λ pu, String.eqb (snd pu) uid)
             (zip (omap (λ f, _ ← rtstruct_of f; Some (path f)) l)
                  (omap rtstruct_series l)))
  = structure_sets_of_series uid l.
Proof.
  unfold structure_sets_of_series.
  induction l as [|f l IH]; [reflexivity|].
  cbn [omap list_omap List.filter].
  destruct (rtstruct_of f) as [info|] eqn:Er.
  - assert (Hs : rtstruct_series f
                 = Some (default "NotFound" (ReferencedSeriesInstanceUID info)))
      by (unfold rtstruct_series; now rewrite Er).
    rewrite Hs. cbn.
    destruct (decide (default "NotFound" (ReferencedSeriesInstanceUID info)
                      = uid)) as [E|E].
    + rewrite (proj2 (String.eqb_eq _ _) E).
      rewrite bool_decide_eq_true_2 by congruence. cbn. now rewrite IH.
    + rewrite (proj2 (String.eqb_neq _ _) E).
      rewrite bool_decide_eq_false_2 by congruence. exact IH.
  - assert (Hs : rtstruct_series f = None)
      by (unfold rtstruct_series; now rewrite Er).
    rewrite Hs. cbn. exact IH.
Qed.

(** X20.  __read_all_dicoms on the empty state, with files that carry every
    attribute it reads and structure sets that each reference a series with
    an image file in the directory (before or after the structure set in
    scan order): the call returns normally, the series and their image lists
    are those of the scan, and the slot of each series holds exactly the
    paths of the structure sets that reference it, in scan order. *)
Theorem read_all_dicoms_links_structure_sets (stack_folder : list file) :
  Forall complete stack_folder →
  (∀ f uid, f ∈ stack_folder → rtstruct_series f = Some uid →
            ∃ g, g ∈ stack_folder ∧ image_series g = Some uid) →
  ∃ st, __read_all_dicoms DICOM_init stack_folder = (st, Ok tt) ∧
    cell_series_id st = cell_series_id (scan_files DICOM_init stack_folder) ∧
    cell_path_images st
    = cell_path_images (scan_files DICOM_init stack_folder) ∧
    ∀ n uid, cell_series_id st !! n = Some uid →
      cell_path_rs st !! n = Some (structure_sets_of_series uid stack_folder).
Proof.
  intros Hc Href. unfold __read_all_dicoms, __associate_rt_stuct.
  pose proof (scan_files_scanned DICOM_init [] stack_folder scanned_init Hc)
    as (Hal & Hnd & Hmem & Hslot & _ & Hsp & Hss & Hsf).
  cbn [app] in *.
  set (st0 := scan_files DICOM_init stack_folder) in *.
  destruct Hal as (_ & _ & Hlr).
  destruct (associate_from_known st0 0 (stack_path_rs st0) (stack_series_rs st0))
    as (cells' & E & Hl & Hget).
  - rewrite Hsp, Hss. clear. induction stack_folder as [|f l IH]; [reflexivity|].
    cbn [omap list_omap]. unfold rtstruct_series at 1.
    destruct (rtstruct_of f); cbn; congruence.
  - intros j uid Hj. exact Hj.
  - rewrite Hss. apply Forall_forall. intros uid Hu.
    apply list_elem_of_omap in Hu as (f & Hf & Hfs).
    apply Hmem. exact (Href f uid Hf Hfs).
  - lia.
  - exists (set_cell_path_rs st0 cells'). split; [exact E|].
    split; [reflexivity|]. split; [reflexivity|].
    intros n uid Hn. cbn in Hn |- *. rewrite Hget, Hn.
    destruct (Hslot n uid Hn) as (_ & -> & _). cbn.
    rewrite Hsp, Hss. now rewrite linked_structure_sets.
Qed.

Lemma read_all_dicoms_links_structure_sets_witness :
  ∃ st, __read_all_dicoms DICOM_init sample_folder = (st, Ok tt) ∧
        cell_path_rs st !! 1 = Some ["rs1.dcm"].
Proof.
  pose proof complete_sample_folder as Hc.
  destruct (read_all_dicoms_links_structure_sets sample_folder Hc)
    as (st & E & Hid & _ & Hrs).
  - intros f uid Hf Hs. unfold sample_folder in Hf.
    repeat (apply elem_of_cons in Hf as [->|Hf]); try discriminate.
    + injection Hs as <-.
      exists (image_file "b1.dcm" "MR" "S2" (Some "F1")).
      split; [do 2 right; left | reflexivity].
    + injection Hs as <-.
      exists (image_file "a1.dcm" "CT" "S1" (Some "F1")).
      split; [left | reflexivity].
    + now apply elem_of_nil in Hf.
  - exists st. split; [exact E|].
    apply (Hrs 1 "S2"). rewrite Hid. reflexivity.
Defined.

(** *** A series opened by a file without FrameOfReferenceUID *)

Lemma add_image_cells (st : DICOM) (i : nat) (p : string) :
  cell_series_id (fst (add_image st i p)) = cell_series_id st ∧
  length (cell_path_images (fst (add_image st i p)))
  = length (cell_path_images st).
Proof.
  unfold add_image. destruct (cell_path_images st !! i); cbn; [|auto].
  now rewrite length_insert.
Qed.

Lemma read_file_cells (st : DICOM) (f : file) :
  let st' := fst (read_file st f) in
  (cell_series_id st' = cell_series_id st ∧
   length (cell_path_images st') = length (cell_path_images st)) ∨
  (∃ uid, cell_series_id st' = cell_series_id st ++ [uid] ∧
          length (cell_path_images st') ≤ S (length (cell_path_images st))).
Proof.
  cbv zeta. unfold read_file.
  destruct (is_dicom f); [|left; auto].
  destruct (dcmread f) as [info|]; [|left; auto].
  destruct (Modality info) as [m|]; [|left; auto].
  destruct (bool_decide _).
  - unfold read_image. destruct (SeriesInstanceUID info) as [uid|]; [|left; auto].
    destruct (__find_uid_cell_index uid (cell_series_id st)) as [|i l];
      [left; auto|].
    destruct (i =? length (cell_series_id st)).
    + right. exists uid. unfold new_volume.
      destruct (FrameOfReferenceUID info) as [frame|]; cbn [fst].
      * match goal with |- context [add_image ?s i (path f)] =>
          destruct (add_image_cells s i (path f)) as [-> ->] end.
        cbn. rewrite length_app. cbn. split; [reflexivity | lia].
      * cbn. split; [reflexivity | lia].
    + left. apply add_image_cells.
  - destruct (String.eqb m "RTSTRUCT"); [|left; auto].
    left. unfold read_rtstruct.
    destruct (ReferencedFrameOfReferenceUID info); [cbn; auto|].
    destruct (FrameOfReferenceUID info); cbn; auto.
Qed.

Lemma scan_files_cells (st : DICOM) (stack_folder : list file) :
  let st' := scan_files st stack_folder in
  (∃ ext, cell_series_id st' = cell_series_id st ++ ext) ∧
  (length (cell_path_images st) < length (cell_series_id st) →
   length (cell_path_images st') < length (cell_series_id st')).
Proof.
  revert st. induction stack_folder as [|f rest IH]; intros st; cbn.
  - split; [exists []; now rewrite app_nil_r | auto].
  - destruct (IH (fst (read_file st f))) as [[ext Hext] Hgap].
    fold (scan_files (fst (read_file st f)) rest) in *.
    destruct (read_file_cells st f) as [[Hid Hlen]|(uid & Hid & Hlen)].
    + split.
      * exists ext. now rewrite Hext, Hid.
      * intros Hlt. apply Hgap. rewrite Hid, Hlen. exact Hlt.
    + split.
      * exists ([uid] ++ ext). now rewrite Hext, Hid, <- app_assoc.
      * intros Hlt. apply Hgap. rewrite Hid, length_app. cbn. lia.
Qed.

(** X21.  An image file that opens a new series and has no
    FrameOfReferenceUID: its series UID is appended to cell_series_id, then
    reading the attribute raises, so the file is skipped with nothing pushed
    on cell_frame_id and cell_path_images.  Whatever files follow, the UID
    stays at that index and cell_path_images stays shorter than
    cell_series_id: the lists are out of step for the rest of the scan. *)
Theorem missing_frame_uid_breaks_alignment (st : DICOM) (f : file)
  (info : FileDataset) (uid : string) (later : list file) :
  length (cell_path_images st) = length (cell_series_id st) →
  image_of f = Some info →
  SeriesInstanceUID info = Some uid →
  uid ∉ cell_series_id st →
  FrameOfReferenceUID info = None →
  snd (read_file st f) = Raise AttributeError ∧
  cell_path_images (fst (read_file st f)) = cell_path_images st ∧
  cell_frame_id (fst (read_file st f)) = cell_frame_id st ∧
  let st' := scan_files (fst (read_file st f)) later in
  cell_series_id st' !! length (cell_series_id st) = Some uid ∧
  length (cell_path_images st') < length (cell_series_id st').
Proof.
  intros Hal Hi Hu Hnin Hf.
  assert (E : read_file st f
              = ({| stack_series_rs := stack_series_rs st;
                    stack_path_rs := stack_path_rs st;
                    stack_frame_rs := stack_frame_rs st;
                    cell_series_id := cell_series_id st ++ [uid];
                    cell_path_rs := cell_path_rs st;
                    cell_path_images := cell_path_images st;
                    cell_frame_rs := cell_frame_rs st;
                    cell_frame_id := cell_frame_id st |},
                 Raise AttributeError)).
  { rewrite (read_file_image st f info Hi). unfold read_image.
    rewrite Hu, (find_uid_cell_index_new uid _ Hnin), Nat.eqb_refl.
    unfold new_volume. now rewrite Hf. }
  destruct (scan_files_cells (fst (read_file st f)) later) as [[ext Hext] Hgap].
  cbv zeta. rewrite E in *. cbn [fst snd cell_series_id cell_path_images
                                  cell_frame_id] in *.
  repeat (split; [reflexivity|]). split.
  - rewrite Hext, <- app_assoc. rewrite lookup_app_r by lia.
    now rewrite Nat.sub_diag.
  - apply Hgap. rewrite length_app. cbn. lia.
Qed.

Lemma missing_frame_uid_breaks_alignment_witness :
  let st := scan_files DICOM_init
              [image_file "a1.dcm" "CT" "S1" None;
               image_file "b1.dcm" "MR" "S2" (Some "F2");
               image_file "a2.dcm" "CT" "S1" None] in
  cell_series_id st !! 0 = Some "S1" ∧
  length (cell_path_images st) < length (cell_series_id st).
Proof.
  refine (proj2 (proj2 (proj2
    (missing_frame_uid_breaks_alignment DICOM_init
       (image_file "a1.dcm" "CT" "S1" None) _ "S1"
       [image_file "b1.dcm" "MR" "S2" (Some "F2");
        image_file "a2.dcm" "CT" "S1" None] _ _ _ _ _)))).
  - reflexivity.
  - reflexivity.
  - reflexivity.
  - intros H. now apply elem_of_nil in H.
  - reflexivity.
Defined.

(** The same three files, evaluated: the second series opens a slot whose
    frame UID is its own, and that slot then receives the second file of
    the first series; the image of the second series is stored nowhere. *)
Lemma missing_frame_uid_sample :
  let st := scan_files DICOM_init
              [image_file "a1.dcm" "CT" "S1" None;
               image_file "b1.dcm" "MR" "S2" (Some "F2");
               image_file "a2.dcm" "CT" "S1" None] in
  cell_series_id st = ["S1"; "S2"] ∧
  cell_frame_id st = ["F2"] ∧
  cell_path_images st = [["a2.dcm"]].
Proof. vm_compute. repeat split. Qed.

(** *** The task schedule of [process_all_dicoms] *)

Lemma submit_ok (st : DICOM) (i : nat) :
  i < length (cell_path_images st) →
  length (cell_path_images st) ≤ length (cell_path_rs st) →
  ∃ t, submit st i = Ok t.
Proof.
  intros Hi Hrs. unfold submit.
  destruct (lookup_lt_is_Some_2 (cell_path_images st) i Hi) as [images ->].
  destruct (lookup_lt_is_Some_2 (cell_path_rs st) i) as [rs ->]; [lia|].
  eauto.
Qed.

Lemma submit_range_ok (st : DICOM) (i n : nat) :
  i + n ≤ length (cell_path_images st) →
  length (cell_path_images st) ≤ length (cell_path_rs st) →
  ∃ ts, submit_range st i n = Ok ts ∧ length ts = n.
Proof.
  revert i. induction n as [|n IH]; intros i Hi Hrs.
  - exists []. split; reflexivity.
  - destruct (submit_ok st i) as [t Ht]; [lia | exact Hrs|].
    destruct (IH (S i)) as (ts & Hts & Hlen); [lia | exact Hrs|].
    exists (t :: ts). cbn [submit_range]. rewrite Ht. cbn. rewrite Hts. cbn.
    split; [reflexivity | now rewrite Hlen].
Qed.

Section ScheduleFacts.

Context {I : Type}.
Variable pdsf : task → I.
Variable ray_wait : list task → result (list task).

(** [ray.wait(ids, num_returns=1)] on a non-empty list hands back the list
    without one of its entries, the one that is ready. *)
Hypothesis ray_wait_spec :
  ∀ ids, ids ≠ [] → ∃ i, i < length ids ∧ ray_wait ids = Ok (delete i ids).

Lemma schedule_drains (st : DICOM) (turns : nat) :
  1 ≤ length (cell_path_images st) →
  length (cell_path_images st) ≤ length (cell_path_rs st) →
  ∀ ids nb_job_left,
    turns = length ids + nb_job_left →
    (0 < nb_job_left → ids ≠ []) →
    ∃ nb_job_left',
      schedule ray_wait st (length (cell_path_images st)) turns
               (ids, nb_job_left) = Ok ([], nb_job_left').
Proof.
  intros Hn Hrs. induction turns as [|turns IH]; intros ids left Ht Hne.
  - destruct ids; [|discriminate]. cbn. eauto.
  - assert (Hids : ids ≠ []).
    { destruct (decide (0 < left)) as [Hl|Hl]; [auto|].
      intros ->. cbn in Ht. lia. }
    destruct (ray_wait_spec ids Hids) as (i & Hi & Hw).
    cbn [schedule]. unfold schedule_step at 1. rewrite Hw.
    cbn [mbind result_bind].
    destruct (0 <? left) eqn:El.
    + apply Nat.ltb_lt in El.
      destruct (submit_ok st (length (cell_path_images st) - left))
        as [t Hs]; [lia | exact Hrs|].
      rewrite Hs. cbn [mbind result_bind].
      apply IH.
      * rewrite length_app, length_delete by
          (apply lookup_lt_is_Some_2; exact Hi). cbn. lia.
      * intros _ E. now apply app_eq_nil in E as [_ ?].
    + apply Nat.ltb_ge in El. cbn [mbind result_bind]. apply IH.
      * rewrite length_delete by (apply lookup_lt_is_Some_2; exact Hi). lia.
      * lia.
Qed.

(** X22.  The task loop of process_all_dicoms, for any ray scheduler
    (ray.wait hands back the list without the one reference that is ready):
    with at least one scan and a batch count other than 0, the first batch
    has min(n_batch, n_scans) tasks (one when n_batch is None), every later
    task is submitted, and after n_scans turns the list of references is
    empty.  So the second collection receives nothing: the accumulator ends
    with what the first collection left, at most n_batch instances more than
    before however many scans there are, and none more when keep_instances
    is False. *)
Theorem later_batches_are_not_collected (m : manager I) (st : DICOM)
  (n_batch : option nat) :
  let n_scans := length (cell_path_images st) in
  n_batch ≠ Some 0 → 1 ≤ n_scans →
  length (cell_path_images st) ≤ length (cell_path_rs st) →
  ∃ first m',
    submit_range st 0 (effective_n_batch n_batch n_scans) = Ok first ∧
    length first = effective_n_batch n_batch n_scans ∧
    length first ≤ default 1 n_batch ∧
    process_all_dicoms_tasks pdsf ray_wait m st n_batch = Ok m' ∧
    instances m' = instances (collect_first m (map pdsf first)) ∧
    length (instances m') ≤ length (instances m) + length first ∧
    (keep_instances m = false → instances m' = instances m).
Proof.
  intros n_scans Hb Hn Hrs.
  assert (Hrange : 1 ≤ effective_n_batch n_batch n_scans ≤ n_scans ∧
                   effective_n_batch n_batch n_scans ≤ default 1 n_batch).
  { unfold effective_n_batch. destruct n_batch as [[|b]|].
    - congruence.
    - change (default 1 (Some (S b))) with (S b).
      destruct (Nat.ltb_spec n_scans (S b)); lia.
    - cbn. lia. }
  destruct Hrange as [[Hb1 Hb2] Hb3].
  destruct (submit_range_ok st 0 (effective_n_batch n_batch n_scans))
    as (first & Hfirst & Hlen); [exact Hb2 | exact Hrs|].
  destruct (schedule_drains st n_scans Hn Hrs first
              (n_scans - effective_n_batch n_batch n_scans))
    as (left' & Hsched).
  { rewrite Hlen. lia. }
  { intros _ ->. cbn in Hlen. lia. }
  exists first. eexists. split; [exact Hfirst|]. split; [exact Hlen|].
  split; [lia|]. split.
  { unfold process_all_dicoms_tasks. subst n_scans. cbv zeta.
    rewrite Hfirst. cbn [mbind result_bind]. rewrite Hsched.
    cbn [mbind result_bind fst map]. reflexivity. }
  assert (Hi : instances (collect_last (collect_first m (map pdsf first)) [])
               = instances (collect_first m (map pdsf first))).
  { unfold collect_last. destruct (_ && _); cbn; [reflexivity|].
    now rewrite app_nil_r. }
  split; [exact Hi|]. rewrite Hi. unfold collect_first.
  destruct (_ && _); cbn; [split; [lia | reflexivity]|].
  destruct (keep_instances m); cbn.
  - rewrite length_app, length_map. split; [lia | discriminate].
  - split; [lia | reflexivity].
Qed.

End ScheduleFacts.

Lemma later_batches_are_not_collected_witness :
  ∃ m', process_all_dicoms_tasks (λ t, fst t) (λ ids, Ok (tail ids))
          (manager_init true)
          (scan_files DICOM_init
             [image_file "a1.dcm" "CT" "S1" (Some "F1");
              image_file "b1.dcm" "MR" "S2" (Some "F1");
              image_file "c1.dcm" "PT" "S3" (Some "F1")]) (Some 2) = Ok m' ∧
        length (instances m') ≤ 2.
Proof.
  destruct (later_batches_are_not_collected (λ t, fst t) (λ ids, Ok (tail ids))
              (λ ids Hne, match ids as l return l ≠ [] → ∃ i, i < length l ∧
                                   Ok (tail l) = Ok (delete i l) with
                          | [] => λ H, match H eq_refl with end
                          | x :: l => λ _, ex_intro _ 0
                                             (conj (Nat.lt_0_succ _) eq_refl)
                          end Hne)
              (manager_init true)
              (scan_files DICOM_init
                 [image_file "a1.dcm" "CT" "S1" (Some "F1");
                  image_file "b1.dcm" "MR" "S2" (Some "F1");
                  image_file "c1.dcm" "PT" "S3" (Some "F1")]) (Some 2))
    as (first & m' & _ & _ & Hle & Hm & _ & Hlen & _).
  - discriminate.
  - vm_compute. lia.
  - vm_compute. lia.
  - exists m'. split; [exact Hm|]. cbn in Hle, Hlen. lia.
Defined.

(** *** The warning *)

Section WarningFacts.
Context {I : Type}.
Implicit Types m : manager I.

Lemma warn_once m : warned m = false → warned_once m → warned_once (warn m).
Proof. unfold warned_once. intros ->. cbn. lia. Qed.

Lemma extend_warned_once m (new : list I) :
  warned_once m → warned_once (extend m new).
Proof. trivial. Qed.

Lemma nifti_step_warned_once m (inst : I) :
  warned_once m →
  warned_once (nifti_step m inst) ∧
  (warned m = true → warned (nifti_step m inst) = true).
Proof.
  intros Hw. unfold nifti_step.
  destruct (warned m) eqn:Ew; rewrite ?andb_false_r; cbn [negb].
  - destruct (keep_instances m); cbn; rewrite ?Ew; auto.
  - rewrite andb_true_r. destruct (10 <? length (instances m)).
    + assert (warned_once (warn m)) by (now apply warn_once).
      destruct (keep_instances (warn m)); split; auto; discriminate.
    + destruct (keep_instances m); split; auto; discriminate.
Qed.

Lemma process_all_niftis_warned_once m (reconstructed : list I) :
  warned_once m →
  warned_once (process_all_niftis m reconstructed) ∧
  (warned m = true → warned (process_all_niftis m reconstructed) = true).
Proof.
  unfold process_all_niftis. revert m.
  induction reconstructed as [|inst rest IH]; intros m Hw; cbn; [auto|].
  destruct (nifti_step_warned_once m inst Hw) as [H1 H2].
  destruct (IH _ H1) as [H3 H4]. auto.
Qed.

Lemma collect_warned_once m (batch : list I) :
  warned_once m →
  warned_once (collect_first m batch) ∧ warned_once (collect_last m batch) ∧
  (warned m = true →
   warned (collect_first m batch) = true ∧
   warned (collect_last m batch) = true).
Proof.
  intros Hw. unfold collect_first, collect_last.
  destruct (warned m) eqn:Ew; rewrite ?andb_false_r, ?andb_true_r; cbn [negb].
  - destruct (keep_instances m); cbn; rewrite ?Ew; auto.
  - destruct (10 <? length (instances m)).
    + assert (warned_once (warn m)) by (now apply warn_once).
      repeat split; auto; discriminate.
    + destruct (keep_instances m); repeat split; auto; discriminate.
Qed.

Lemma nifti_step_keep m (inst : I) :
  keep_instances (nifti_step m inst) = keep_instances m.
Proof.
  destruct m as [k i w n]. unfold nifti_step. cbn.
  destruct (_ && _), k; reflexivity.
Qed.

Lemma process_all_niftis_keep m (reconstructed : list I) :
  keep_instances (process_all_niftis m reconstructed) = keep_instances m.
Proof.
  unfold process_all_niftis. revert m.
  induction reconstructed as [|x l IH]; intros m; cbn; [reflexivity|].
  now rewrite IH, nifti_step_keep.
Qed.

Lemma collect_first_keep m (batch : list I) :
  keep_instances (collect_first m batch) = keep_instances m.
Proof.
  destruct m as [k i w n]. unfold collect_first. cbn.
  destruct (_ && _), k; reflexivity.
Qed.

Lemma collect_last_keep m (batch : list I) :
  keep_instances (collect_last m batch) = keep_instances m.
Proof.
  destruct m as [k i w n]. unfold collect_last. cbn.
  destruct (_ && _); reflexivity.
Qed.

(** X23.  process_all keeps the warning counter and the flag __warned in
    agreement: if at most one warning was issued before, consistently with
    the flag, the same holds afterwards; once the flag is set no further
    warning is issued; keep_instances is never changed. *)
Theorem warning_is_issued_at_most_once m
  (first last reconstructed : list I) :
  warned_once m →
  let m' := process_all m first last reconstructed in
  warned_once m' ∧
  warnings_issued m ≤ warnings_issued m' ≤ 1 ∧
  (warned m = true → warned m' = true ∧ warnings_issued m' = warnings_issued m) ∧
  keep_instances m' = keep_instances m.
Proof.
  intros Hw m'. subst m'. unfold process_all, process_all_dicoms.
  destruct (collect_warned_once m first Hw) as (H1 & _ & H1').
  destruct (collect_warned_once (collect_first m first) last H1)
    as (_ & H2 & H2').
  destruct (process_all_niftis_warned_once
              (collect_last (collect_first m first) last) reconstructed H2)
    as [H3 H3'].
  set (m' := process_all_niftis _ reconstructed) in *.
  split; [exact H3|].
  assert (Hmono : warned m = true → warned m' = true).
  { intros Ht. apply H3'. apply H2'; apply H1'; exact Ht. }
  assert (Hk : keep_instances m' = keep_instances m).
  { subst m'. rewrite process_all_niftis_keep, collect_last_keep.
    apply collect_first_keep. }
  unfold warned_once in Hw, H3.
  destruct (warned m) eqn:Ew.
  - rewrite (Hmono eq_refl) in H3. repeat split; try lia; auto.
  - destruct (warned m'); repeat split; try lia; try discriminate; auto.
Qed.

End WarningFacts.

Lemma warning_is_issued_at_most_once_witness :
  warnings_issued
    (process_all (manager_init true) (seq 0 11) [11; 12] (seq 20 5)) ≤ 1.
Proof.
  destruct (warning_is_issued_at_most_once (manager_init true)
              (seq 0 11) [11; 12] (seq 20 5)) as (_ & Hle & _).
  - reflexivity.
  - exact (proj2 Hle).
Defined.

(** *** File names of NIfTI files *)

Import (notations) Stdlib.Strings.Ascii.

Lemma split_nonempty (sep : Ascii.ascii) (s : string) : split sep s ≠ [].
Proof.
  destruct s as [|c s]; cbn; [discriminate|].
  destruct (Ascii.eqb c sep); [discriminate|].
  destruct (split sep s); discriminate.
Qed.

Lemma split_length (sep : Ascii.ascii) (s : string) :
  length (split sep s) = S (count sep s).
Proof.
  induction s as [|c s IH]; cbn; [reflexivity|].
  destruct (Ascii.eqb c sep); cbn; [now rewrite IH|].
  destruct (split sep s) as [|f fs] eqn:E; [now apply split_nonempty in E|].
  exact IH.
Qed.

Lemma split_free (sep : Ascii.ascii) (s : string) :
  count sep s = 0 → split sep s = [s].
Proof.
  induction s as [|c s IH]; cbn; [reflexivity|].
  destruct (Ascii.eqb c sep); cbn; [discriminate|].
  intros H. now rewrite IH.
Qed.

Lemma split_app (sep : Ascii.ascii) (a b : string) :
  split sep (a +:+ String sep b) = split sep a ++ split sep b.
Proof.
  induction a as [|c a IH].
  - change (EmptyString +:+ String sep b) with (String sep b). cbn.
    now rewrite Ascii.eqb_refl.
  - change (String c a +:+ String sep b) with (String c (a +:+ String sep b)).
    cbn. destruct (Ascii.eqb c sep); [now rewrite IH|].
    rewrite IH. destruct (split sep a) as [|f fs] eqn:E;
      [now apply split_nonempty in E|]. reflexivity.
Qed.

Lemma split_fields_free (sep : Ascii.ascii) (s f : string) :
  f ∈ split sep s → count sep f = 0.
Proof.
  revert f. induction s as [|c s IH]; cbn; intros f Hf.
  - apply list_elem_of_singleton in Hf. now subst.
  - destruct (Ascii.eqb c sep) eqn:Ec.
    + apply elem_of_cons in Hf as [->|Hf]; [reflexivity | now apply IH].
    + destruct (split sep s) as [|g gs] eqn:E.
      * apply list_elem_of_singleton in Hf. subst. cbn. now rewrite Ec.
      * apply elem_of_cons in Hf as [->|Hf].
        -- cbn. rewrite Ec. apply IH. now left.
        -- apply IH. now right.
Qed.

Lemma split_single (sep : Ascii.ascii) (s f : string) :
  split sep s = [f] → s = f.
Proof.
  revert f. induction s as [|c s IH]; cbn; intros f Hf.
  - congruence.
  - destruct (Ascii.eqb c sep).
    + injection Hf as _ Hf. now apply split_nonempty in Hf.
    + destruct (split sep s) as [|g gs] eqn:E;
        [now apply split_nonempty in E|].
      injection Hf as <- ->. now rewrite (IH g eq_refl).
Qed.

Lemma split_snoc (sep : Ascii.ascii) (s f : string) (fs : list string) :
  fs ≠ [] → split sep s = fs ++ [f] →
  ∃ p, s = p +:+ String sep f ∧ split sep p = fs.
Proof.
  revert fs. induction s as [|c s IH]; cbn; intros fs Hne Hs.
  - destruct fs as [|g [|g' fs]]; [contradiction|discriminate..].
  - destruct (Ascii.eqb_spec c sep) as [->|Hc].
    + destruct fs as [|g fs]; [contradiction|]. cbn in Hs.
      injection Hs as <- Hs. destruct fs as [|g' fs].
      * cbn in Hs. apply split_single in Hs as ->. now exists EmptyString.
      * destruct (IH (g' :: fs)) as (p & -> & Hp); [discriminate|exact Hs|].
        exists (String sep p). cbn. rewrite Ascii.eqb_refl.
        split; [reflexivity | now rewrite Hp].
    + destruct (split sep s) as [|g gs] eqn:E;
        [now apply split_nonempty in E|].
      destruct fs as [|h fs]; [contradiction|]. cbn in Hs.
      injection Hs as <- Hs. destruct fs as [|h' fs].
      * cbn in Hs. subst gs.
        destruct (IH [g]) as (p & -> & Hp); [discriminate|reflexivity|].
        exists (String c p). cbn.
        apply Ascii.eqb_neq in Hc. rewrite Hc, Hp.
        split; reflexivity.
      * destruct (IH (g :: h' :: fs)) as (p & -> & Hp);
          [discriminate | now rewrite Hs|].
        exists (String c p). cbn.
        apply Ascii.eqb_neq in Hc. rewrite Hc, Hp.
        split; reflexivity.
Qed.

Lemma string_app_assoc (a b c : string) :
  (a +:+ b) +:+ c = a +:+ (b +:+ c).
Proof.
  induction a as [|x a IH]; [reflexivity|].
  change (String x ((a +:+ b) +:+ c) = String x (a +:+ (b +:+ c))).
  now rewrite IH.
Qed.

Lemma basename_spec (file : string) :
  count "/"%char (basename file) = 0 ∧
  (file = basename file ∨
   ∃ dir, file = dir +:+ String "/"%char (basename file)).
Proof.
  unfold basename.
  destruct (split "/"%char file) as [|f fs] eqn:E using rev_ind;
    [now apply split_nonempty in E|]. clear IHfs.
  rewrite last_last. split.
  - apply (split_fields_free "/"%char file). rewrite E.
    apply elem_of_app. right. now left.
  - destruct fs as [|g fs].
    + left. now apply (split_single "/"%char).
    + right. destruct (split_snoc "/"%char file f (g :: fs))
        as (dir & -> & _); [discriminate | exact E|]. now exists dir.
Qed.

Lemma getitem_from_end_app {A} (l : list A) (x y z : A) :
  getitem_from_end (l ++ [x; y; z]) 3 = Ok x.
Proof.
  unfold getitem_from_end. rewrite length_app. cbn [length].
  destruct (Nat.ltb_spec (length l + 3) 3) as [H|H]; [lia|].
  replace (length l + 3 - 3) with (length l) by lia.
  now rewrite list_lookup_middle.
Qed.

Lemma getitem_from_end_inv {A} (l : list A) (x : A) :
  getitem_from_end l 3 = Ok x → ∃ l' y z, l = l' ++ [x; y; z].
Proof.
  unfold getitem_from_end.
  destruct (Nat.ltb_spec (length l) 3) as [H|H]; [discriminate|].
  destruct (l !! (length l - 3)) as [x'|] eqn:E; [|discriminate].
  intros [= ->].
  exists (take (length l - 3) l).
  pose proof (take_drop (length l - 3) l) as Htd.
  destruct (drop (length l - 3) l) as [|a [|b [|c [|d r]]]] eqn:Ed.
  1-3,5: apply (f_equal length) in Ed; rewrite length_drop in Ed;
    cbn in Ed; lia.
  exists b, c. rewrite <- Htd at 1. f_equal.
  assert (l !! (length l - 3) = Some a) as Ha.
  { rewrite <- (Nat.add_0_r (length l - 3)), <- lookup_drop, Ed.
    reflexivity. }
  congruence.
Qed.

Lemma getitem_from_end_raises {A} (l : list A) (e : exn) :
  getitem_from_end l 3 = Raise e ↔ e = IndexError ∧ length l < 3.
Proof.
  unfold getitem_from_end.
  destruct (Nat.ltb_spec (length l) 3) as [H|H].
  - split; [intros [= <-]; now split | now intros [-> _]].
  - destruct (lookup_lt_is_Some_2 l (length l - 3)) as [x ->]; [lia|].
    split; [discriminate | lia].
Qed.

(** X24.  The type that process_all_niftis reads off a file name is the
    third dot-separated field from the end of the base name (what follows
    the last slash of the path).  The expression raises IndexError, and
    nothing else, exactly when the base name has fewer than two dots; it
    yields t exactly when the base name is t.x.y or p.t.x.y with t, x and y
    free of dots, so for name.T.nii.gz the type is T and for name.T.nii it
    is the field before T.  A file that __read_all_niftis did not take for a
    mask never gets the type ROI. *)
Theorem nifti_type_is_third_field_from_the_end (file : string) :
  let name := basename file in
  (count "/"%char name = 0 ∧
   (file = name ∨ ∃ dir, file = dir +:+ String "/"%char name)) ∧
  (∀ e, nifti_type file = Raise e ↔
     e = IndexError ∧ count "."%char name < 2) ∧
  (∀ t, nifti_type file = Ok t ↔
     count "."%char t = 0 ∧
     ∃ x y, count "."%char x = 0 ∧ count "."%char y = 0 ∧
       (name = t +:+ String "."%char (x +:+ String "."%char y) ∨
        ∃ p, name = p +:+ String "."%char
                      (t +:+ String "."%char (x +:+ String "."%char y)))) ∧
  (is_roi_file file = false → nifti_type file ≠ Ok "ROI").
Proof.
  intros name. split; [apply basename_spec|].
  unfold nifti_type, is_roi_file. fold name. generalize name. clear.
  intros name. split; [|split].
  - intros e. rewrite getitem_from_end_raises, split_length.
    split; intros [-> H]; (split; [reflexivity | lia]).
  - intros t. split.
    + intros Hok.
      destruct (getitem_from_end_inv _ _ Hok) as (fs & x & y & Hs).
      assert (Hfree : ∀ f, f ∈ [t; x; y] → count "."%char f = 0).
      { intros f Hf. apply (split_fields_free "."%char name). rewrite Hs.
        apply elem_of_app. now right. }
      split; [apply Hfree; now left|].
      exists x, y.
      split; [apply Hfree; right; now left|].
      split; [apply Hfree; right; right; now left|].
      destruct (split_snoc "."%char name y (fs ++ [t; x]))
        as (p2 & -> & Hp2).
      { now destruct fs. }
      { rewrite Hs, <- app_assoc. reflexivity. }
      destruct (split_snoc "."%char p2 x (fs ++ [t])) as (p1 & -> & Hp1).
      { now destruct fs. }
      { rewrite Hp2, <- app_assoc. reflexivity. }
      destruct fs as [|f fs].
      * cbn in Hp1. apply split_single in Hp1 as ->. left.
        now rewrite string_app_assoc.
      * destruct (split_snoc "."%char p1 t (f :: fs)) as (p0 & -> & Hp0);
          [discriminate | exact Hp1|].
        right. exists p0. now rewrite !string_app_assoc.
    + intros (Ht & x & y & Hx & Hy & [-> | (p & ->)]).
      * rewrite split_app, split_app, (split_free _ _ Ht),
          (split_free _ _ Hx), (split_free _ _ Hy).
        exact (getitem_from_end_app [] t x y).
      * rewrite split_app, split_app, split_app, (split_free _ _ Ht),
          (split_free _ _ Hx), (split_free _ _ Hy).
        exact (getitem_from_end_app (split "."%char p) t x y).
  - intros Hroi Hok. apply bool_decide_eq_false in Hroi. apply Hroi.
    destruct (getitem_from_end_inv _ _ Hok) as (fs & x & y & ->).
    apply elem_of_app. right. now left.
Qed.

(** X25.  The patient ID that process_all_niftis reads off a file name
    always exists: it is the part of the base name before its first
    underscore, and the whole base name when there is no underscore. *)
Theorem nifti_patientID_is_prefix_before_underscore (file : string) :
  let name := basename file in
  ∃ id, nifti_patientID file = Ok id ∧
    count "_"%char id = 0 ∧
    (name = id ∨ ∃ rest, name = id +:+ String "_"%char rest).
Proof.
  intros name. unfold nifti_patientID, list_getitem. fold name.
  generalize name. clear.
  intros name. induction name as [|c s IH]; cbn.
  - exists EmptyString. repeat split. now left.
  - destruct (Ascii.eqb_spec c "_"%char) as [->|Hc].
    + exists EmptyString. split; [reflexivity|]. split; [reflexivity|].
      right. now exists s.
    + destruct (split "_"%char s) as [|f fs] eqn:E;
        [now apply split_nonempty in E|].
      destruct IH as (id & [= <-] & Hid & Hs).
      exists (String c f). split; [reflexivity|].
      apply Ascii.eqb_neq in Hc. split; [cbn; now rewrite Hc|].
      destruct Hs as [-> | (rest & ->)]; [now left|].
      right. now exists rest.
Qed.

(** Three names in a directory: the compressed file with a type field, the
    same file uncompressed, and a file without a type field. *)
Lemma nifti_names_sample :
  nifti_type "data/STS-001__T1.MRscan.nii.gz" = Ok "MRscan" ∧
  nifti_type "data/STS-001__T1.MRscan.nii" = Ok "STS-001__T1" ∧
  nifti_type "data/STS-001__T1.nii" = Raise IndexError ∧
  nifti_patientID "data/STS-001__T1.MRscan.nii.gz" = Ok "STS-001" ∧
  is_roi_file "data/STS-001__T1(GTV).ROI.nii.gz" = true ∧
  is_roi_file "data/STS-001__T1(GTV).roi.nii.gz" = false.
Proof. vm_compute. repeat split. Qed.

(** *** The processing summary *)

Lemma count_app (c : Ascii.ascii) (a b : string) :
  count c (a +:+ b) = count c a + count c b.
Proof.
  induction a as [|x a IH]; [reflexivity|].
  change (String x a +:+ b) with (String x (a +:+ b)). cbn.
  rewrite IH. lia.
Qed.

Lemma split_head (sep : Ascii.ascii) (s f : string) (fs : list string) :
  split sep s = f :: fs →
  count sep f = 0 ∧ (s = f ∨ ∃ r, s = f +:+ String sep r).
Proof.
  intros Hs. split.
  { apply (split_fields_free sep s). rewrite Hs. now left. }
  revert f fs Hs. induction s as [|c s IH]; cbn; intros f fs Hs.
  - injection Hs as <- _. now left.
  - destruct (Ascii.eqb_spec c sep) as [->|Hc].
    + injection Hs as <- _. right. now exists s.
    + destruct (split sep s) as [|g gs] eqn:E;
        [now apply split_nonempty in E|].
      injection Hs as <- _.
      destruct (IH g gs eq_refl) as [-> | (r & ->)]; [now left|].
      right. now exists r.
Qed.

Lemma split_of_head (sep : Ascii.ascii) (s f : string) :
  count sep f = 0 → (s = f ∨ ∃ r, s = f +:+ String sep r) →
  ∃ fs, split sep s = f :: fs.
Proof.
  intros Hf [-> | (r & ->)].
  - exists []. now apply split_free.
  - exists (split sep r). now rewrite split_app, (split_free _ _ Hf).
Qed.

Lemma guard_gives_fields (name_save patient : string) (fs : list string) :
  split "_"%char name_save = patient :: fs →
  2 ≤ count "-"%char patient →
  ∃ study institution rest,
    split "-"%char name_save = study :: institution :: rest.
Proof.
  intros Hs Hc.
  assert (2 ≤ count "-"%char name_save) as Hn.
  { destruct (split_head _ _ _ _ Hs) as [_ [-> | (r & ->)]]; [exact Hc|].
    rewrite count_app. lia. }
  pose proof (split_length "-"%char name_save) as Hl.
  destruct (split "-"%char name_save) as [|a [|b rest]]; cbn in Hl;
    [lia | lia | eauto].
Qed.

Lemma name_keys_None (name_save : string) :
  name_keys name_save = None ↔
  ∃ patient, count "_"%char patient = 0 ∧
    (name_save = patient ∨ ∃ r, name_save = patient +:+ String "_"%char r) ∧
    count "-"%char patient < 2.
Proof.
  unfold name_keys.
  destruct (split "_"%char name_save) as [|patient fs] eqn:Es;
    [now apply split_nonempty in Es|].
  destruct (split_head _ _ _ _ Es) as [Hfree Hshape].
  destruct (Nat.leb_spec 2 (count "-"%char patient)) as [Hc|Hc].
  - destruct (guard_gives_fields _ _ _ Es Hc) as (a & b & rest & ->).
    split; [discriminate|].
    intros (p & Hp & Hsh & Hlt).
    destruct (split_of_head _ _ _ Hp Hsh) as (fs' & Es').
    rewrite Es in Es'. injection Es' as -> _. lia.
  - split; [|reflexivity]. intros _. exists patient. auto.
Qed.

Lemma update_summary_logs (name_save : string) (self : Summary) :
  name_keys name_save = None →
  update_summary name_save self = Ok (self, [name_save]).
Proof.
  unfold name_keys, update_summary, list_getitem.
  destruct (split "_"%char name_save) as [|patient fs] eqn:Es;
    [now apply split_nonempty in Es|].
  cbn [lookup list_lookup mbind result_bind].
  destruct (Nat.leb_spec 2 (count "-"%char patient)) as [Hc|Hc];
    [|reflexivity].
  destruct (guard_gives_fields _ _ _ Es Hc) as (a & b & rest & ->).
  discriminate.
Qed.

Lemma if_absent_lookup {V} (k k' : string) (v : V) (d : gmap string V) :
  if_absent k v d !! k'
  = if decide (k = k') then Some (default v (d !! k)) else d !! k'.
Proof.
  unfold if_absent. destruct (decide (k = k')) as [<-|Hne].
  - destruct (d !! k) as [w|] eqn:E; cbn; [exact E|].
    apply lookup_insert_eq.
  - destruct (d !! k); [reflexivity|]. now apply lookup_insert_ne.
Qed.

Lemma dict_getitem_if_absent {V} (k : string) (v : V) (d : gmap string V) :
  dict_getitem (if_absent k v d) k = Ok (default v (d !! k)).
Proof.
  unfold dict_getitem. rewrite if_absent_lookup.
  now rewrite decide_True by reflexivity.
Qed.

Lemma append_new_elem (x y : string) (l : list string) :
  y ∈ append_new x l ↔ y ∈ l ∨ y = x.
Proof.
  unfold append_new. destruct (bool_decide_reflect (x ∈ l)) as [Hin|Hnin].
  - split; [now left | intros [H | ->]; assumption].
  - rewrite elem_of_app, list_elem_of_singleton. reflexivity.
Qed.

Lemma append_new_NoDup (x : string) (l : list string) :
  NoDup l → NoDup (append_new x l).
Proof.
  intros Hl. unfold append_new.
  destruct (bool_decide_reflect (x ∈ l)) as [Hin|Hnin]; [exact Hl|].
  apply NoDup_app. split; [exact Hl|]. split; [|apply NoDup_singleton].
  intros y Hy Hy'. apply list_elem_of_singleton in Hy'. now subst.
Qed.

Lemma append_new_prefix (x : string) (l : list string) :
  l `prefix_of` append_new x l.
Proof.
  unfold append_new. destruct (bool_decide (x ∈ l)); [reflexivity|].
  now apply prefix_app_r.
Qed.

Lemma update_summary_files (name_save : string) (self : Summary)
  (study institution scan_type : string) :
  name_keys name_save = Some (study, institution, scan_type) →
  ∃ self', update_summary name_save self = Ok (self', []) ∧
    __studies self' = append_new study (__studies self) ∧
    __institutions self' = append_new institution (__institutions self) ∧
    __scans self' = append_new scan_type (__scans self) ∧
    ∀ a b c, names_at self' a b c
             = names_at self a b c
               ++ (if bool_decide ((study, institution, scan_type) = (a, b, c))
                   then [name_save] else []).
Proof.
  unfold name_keys, update_summary, list_getitem.
  destruct (split "_"%char name_save) as [|patient fs] eqn:Es;
    [discriminate|]. cbn [lookup list_lookup mbind result_bind].
  destruct (2 <=? count "-"%char patient); [|discriminate].
  destruct (split "-"%char name_save) as [|a [|b rest]];
    [discriminate..|].
  intros [= <- <- <-]. cbn [lookup list_lookup mbind result_bind].
  set (scan_type := slice _ _ _).
  rewrite dict_getitem_if_absent. cbn [mbind result_bind].
  rewrite dict_getitem_if_absent. cbn [mbind result_bind].
  rewrite dict_getitem_if_absent. cbn [mbind result_bind].
  eexists. split; [reflexivity|]. cbn [__studies __institutions __scans].
  split; [reflexivity|]. split; [reflexivity|]. split; [reflexivity|].
  intros a' b' c'. unfold names_at. cbn [summary].
  destruct (decide (a = a')) as [<-|Ha].
  2: { rewrite lookup_insert_ne by exact Ha. rewrite if_absent_lookup.
       rewrite decide_False by exact Ha.
       rewrite bool_decide_eq_false_2 by congruence.
       now rewrite app_nil_r. }
  rewrite lookup_insert_eq. cbn [mbind option_bind].
  destruct (decide (b = b')) as [<-|Hb].
  2: { rewrite lookup_insert_ne by exact Hb. rewrite if_absent_lookup.
       rewrite decide_False by exact Hb.
       rewrite bool_decide_eq_false_2 by congruence. rewrite app_nil_r.
       destruct (summary self !! a) as [d|]; cbn; [reflexivity|].
       now rewrite lookup_empty. }
  rewrite lookup_insert_eq. cbn [mbind option_bind].
  destruct (decide (scan_type = c')) as [<-|Hc].
  2: { rewrite lookup_insert_ne by exact Hc. rewrite if_absent_lookup.
       rewrite decide_False by exact Hc.
       rewrite bool_decide_eq_false_2 by congruence. rewrite app_nil_r.
       destruct (summary self !! a) as [d|]; cbn;
         [|now rewrite !lookup_empty].
       destruct (d !! b) as [d'|]; cbn; [reflexivity|].
       now rewrite lookup_empty. }
  rewrite lookup_insert_eq. rewrite bool_decide_eq_true_2 by reflexivity.
  cbn [default]. f_equal.
  destruct (summary self !! a) as [d|]; cbn; [|now rewrite !lookup_empty].
  destruct (d !! b) as [d'|]; cbn; [reflexivity|].
  now rewrite lookup_empty.
Qed.

Lemma prefix_find (c : Ascii.ascii) (p r : string) :
  count c p = 0 →
  find (String c EmptyString) (p +:+ String c r)
  = Z.of_nat (String.length p).
Proof.
  induction p as [|a p IH]; intros Hp.
  - change (EmptyString +:+ String c r) with (String c r). cbn.
    destruct (Ascii.ascii_dec c c) as [_|Hne]; [|contradiction].
    now destruct r.
  - change (String a p +:+ String c r) with (String a (p +:+ String c r)).
    cbn in Hp. destruct (Ascii.eqb_spec a c) as [->|Hac]; [discriminate|].
    cbn [find String.prefix].
    destruct (Ascii.ascii_dec c a) as [->|_]; [contradiction|].
    rewrite (IH Hp).
    destruct (Z.ltb_spec (Z.of_nat (String.length p)) 0) as [H|H]; [lia|].
    cbn [String.length]. lia.
Qed.

Lemma prefix_find2 (c : Ascii.ascii) (p r : string) :
  count c p = 0 →
  find (String c (String c EmptyString)) (p +:+ String c (String c r))
  = Z.of_nat (String.length p).
Proof.
  induction p as [|a p IH]; intros Hp.
  - change (EmptyString +:+ String c (String c r))
      with (String c (String c r)). cbn.
    destruct (Ascii.ascii_dec c c) as [_|Hne]; [|contradiction].
    now destruct r.
  - change (String a p +:+ String c (String c r))
      with (String a (p +:+ String c (String c r))).
    cbn in Hp. destruct (Ascii.eqb_spec a c) as [->|Hac]; [discriminate|].
    cbn [find String.prefix].
    destruct (Ascii.ascii_dec c a) as [->|_]; [contradiction|].
    rewrite (IH Hp).
    destruct (Z.ltb_spec (Z.of_nat (String.length p)) 0) as [H|H]; [lia|].
    cbn [String.length]. lia.
Qed.

Lemma string_length_app (a b : string) :
  String.length (a +:+ b) = String.length a + String.length b.
Proof.
  induction a as [|x a IH]; [reflexivity|].
  change (String x a +:+ b) with (String x (a +:+ b)). cbn. now rewrite IH.
Qed.

Lemma substring_middle (p m r : string) :
  String.substring (String.length p) (String.length m) (p +:+ m +:+ r) = m.
Proof.
  induction p as [|x p IH].
  - change (EmptyString +:+ m +:+ r) with (m +:+ r). cbn [String.length].
    induction m as [|y m IHm].
    + cbn. now destruct r.
    + change (String y m +:+ r) with (String y (m +:+ r)). cbn.
      now rewrite IHm.
  - change (String x p +:+ m +:+ r) with (String x (p +:+ m +:+ r)).
    cbn. exact IH.
Qed.

Lemma slice_middle (p m r : string) :
  slice (p +:+ m +:+ r) (Z.of_nat (String.length p))
        (Z.of_nat (String.length p + String.length m)) = m.
Proof.
  unfold slice. rewrite !string_length_app.
  destruct (Z.ltb_spec (Z.of_nat (String.length p)) 0) as [H|_]; [lia|].
  destruct (Z.ltb_spec (Z.of_nat (String.length p + String.length m)) 0)
    as [H|_]; [lia|].
  rewrite !Z.min_l by lia.
  replace (Z.to_nat (Z.of_nat (String.length p + String.length m)
                     - Z.of_nat (String.length p)))
    with (String.length m) by lia.
  rewrite Nat2Z.id. apply substring_middle.
Qed.

Lemma extended_by_refl (l : list string) (added : string → Prop) :
  (∀ x, ¬ added x) → extended_by l l added.
Proof.
  intros Hn. split; [reflexivity|]. split; [auto|].
  intros x. split; [now left | intros [H|H]; [exact H | now apply Hn in H]].
Qed.

Lemma extended_by_same (old new : list string) (P Q : string → Prop) :
  extended_by old new P → (∀ y, Q y ↔ P y) → extended_by old new Q.
Proof.
  intros (Hp & Hd & Hm) HQ. split; [exact Hp|]. split; [exact Hd|].
  intros x. rewrite Hm, HQ. reflexivity.
Qed.

Lemma extended_by_step (old new : list string) (x : string)
  (P Q : string → Prop) :
  extended_by (append_new x old) new P → (∀ y, Q y ↔ y = x ∨ P y) →
  extended_by old new Q.
Proof.
  intros (Hp & Hd & Hm) HQ. split; [|split].
  - etransitivity; [apply append_new_prefix | exact Hp].
  - intros H. apply Hd. now apply append_new_NoDup.
  - intros y. rewrite Hm, append_new_elem, HQ. tauto.
Qed.

(** X26.  The summary block that process_all_dicoms and process_all_niftis
    run for the save name of every instance, over any list of names and from
    any state: it never raises; the names it logs a warning for are exactly
    those whose part before the first underscore holds fewer than two
    dashes, and they are filed nowhere; every other name is appended to
    summary[study][institution][scan_type] for its own three keys, so each
    list gains exactly the names with those keys, in processing order, and
    earlier entries are kept; the lists of studies, institutions and scan
    types keep what they held in front, gain exactly the keys of the filed
    names, and get no duplicate. *)
Theorem summary_files_names_by_their_keys (names : list string)
  (self : Summary) :
  ∃ self',
    update_summaries names self
    = Ok (self', List.filter (λ n, bool_decide (name_keys n = None)) names) ∧
    (∀ study institution scan_type,
       names_at self' study institution scan_type
       = names_at self study institution scan_type
         ++ filed_under study institution scan_type names) ∧
    extended_by (__studies self) (__studies self')
      (λ x, ∃ n i s, n ∈ names ∧ name_keys n = Some (x, i, s)) ∧
    extended_by (__institutions self) (__institutions self')
      (λ x, ∃ n t s, n ∈ names ∧ name_keys n = Some (t, x, s)) ∧
    extended_by (__scans self) (__scans self')
      (λ x, ∃ n t i, n ∈ names ∧ name_keys n = Some (t, i, x)) ∧
    ∀ n, name_keys n = None ↔
         ∃ patient, count "_"%char patient = 0 ∧
           (n = patient ∨ ∃ r, n = patient +:+ String "_"%char r) ∧
           count "-"%char patient < 2.
Proof.
  assert (Hmain : ∃ self',
    update_summaries names self
    = Ok (self', List.filter (λ n, bool_decide (name_keys n = None)) names) ∧
    (∀ study institution scan_type,
       names_at self' study institution scan_type
       = names_at self study institution scan_type
         ++ filed_under study institution scan_type names) ∧
    extended_by (__studies self) (__studies self')
      (λ x, ∃ n i s, n ∈ names ∧ name_keys n = Some (x, i, s)) ∧
    extended_by (__institutions self) (__institutions self')
      (λ x, ∃ n t s, n ∈ names ∧ name_keys n = Some (t, x, s)) ∧
    extended_by (__scans self) (__scans self')
      (λ x, ∃ n t i, n ∈ names ∧ name_keys n = Some (t, i, x))).
  2: { destruct Hmain as (self' & H1 & H2 & H3 & H4 & H5).
       exists self'. repeat (split; [assumption|]). apply name_keys_None. }
  revert self. induction names as [|n names IH]; intros self.
  - exists self. split; [reflexivity|]. split.
    { intros a b c. unfold filed_under. cbn. now rewrite app_nil_r. }
    repeat split; try reflexivity; try tauto;
      try (intros [H | (m & ? & ? & Hm & _)];
           [exact H | now apply elem_of_nil in Hm]).
  - cbn [update_summaries List.filter].
    destruct (name_keys n) as [[[a b] c]|] eqn:Ek.
    + destruct (update_summary_files n self a b c Ek)
        as (self1 & E1 & Hst & Hin & Hsc & Hat).
      rewrite E1. cbn [mbind result_bind fst snd].
      destruct (IH self1) as (self' & E' & Hat' & Hst' & Hin' & Hsc').
      rewrite E'. cbn [mbind result_bind fst snd app].
      rewrite bool_decide_eq_false_2 by discriminate.
      exists self'. split; [reflexivity|]. split; [|split; [|split]].
      * intros a' b' c'. rewrite Hat', Hat, <- app_assoc. f_equal.
        unfold filed_under. cbn [List.filter]. rewrite Ek.
        destruct (decide ((a, b, c) = (a', b', c'))) as [Heq|Hne].
        -- rewrite !bool_decide_eq_true_2 by congruence. reflexivity.
        -- rewrite !bool_decide_eq_false_2 by congruence. reflexivity.
      * rewrite Hst in Hst'. apply (extended_by_step _ _ a _ _ Hst').
        intros y. split.
        -- intros (m & i & s & Hm & Hk). apply elem_of_cons in Hm as [->|Hm].
           ++ left. congruence.
           ++ right. eauto.
        -- intros [-> | (m & i & s & Hm & Hk)].
           ++ exists n, b, c. split; [now left | exact Ek].
           ++ exists m, i, s. split; [now right | exact Hk].
      * rewrite Hin in Hin'. apply (extended_by_step _ _ b _ _ Hin').
        intros y. split.
        -- intros (m & i & s & Hm & Hk). apply elem_of_cons in Hm as [->|Hm].
           ++ left. congruence.
           ++ right. eauto.
        -- intros [-> | (m & i & s & Hm & Hk)].
           ++ exists n, a, c. split; [now left | exact Ek].
           ++ exists m, i, s. split; [now right | exact Hk].
      * rewrite Hsc in Hsc'. apply (extended_by_step _ _ c _ _ Hsc').
        intros y. split.
        -- intros (m & i & s & Hm & Hk). apply elem_of_cons in Hm as [->|Hm].
           ++ left. congruence.
           ++ right. eauto.
        -- intros [-> | (m & i & s & Hm & Hk)].
           ++ exists n, a, b. split; [now left | exact Ek].
           ++ exists m, i, s. split; [now right | exact Hk].
    + rewrite (update_summary_logs n self Ek).
      cbn [mbind result_bind fst snd].
      destruct (IH self) as (self' & E' & Hat' & Hst' & Hin' & Hsc').
      rewrite E'. cbn [mbind result_bind fst snd app].
      rewrite bool_decide_eq_true_2 by reflexivity.
      exists self'. split; [reflexivity|]. split; [|split; [|split]].
      * intros a' b' c'. rewrite Hat'. f_equal.
        unfold filed_under. cbn [List.filter]. rewrite Ek.
        now rewrite bool_decide_eq_false_2 by discriminate.
      * apply (extended_by_same _ _ _ _ Hst'). intros y. split.
        -- intros (m & i & s & Hm & Hk). apply elem_of_cons in Hm as [->|Hm];
             [congruence | eauto].
        -- intros (m & i & s & Hm & Hk). exists m, i, s.
           split; [now right | exact Hk].
      * apply (extended_by_same _ _ _ _ Hin'). intros y. split.
        -- intros (m & i & s & Hm & Hk). apply elem_of_cons in Hm as [->|Hm];
             [congruence | eauto].
        -- intros (m & i & s & Hm & Hk). exists m, i, s.
           split; [now right | exact Hk].
      * apply (extended_by_same _ _ _ _ Hsc'). intros y. split.
        -- intros (m & i & s & Hm & Hk). apply elem_of_cons in Hm as [->|Hm];
             [congruence | eauto].
        -- intros (m & i & s & Hm & Hk). exists m, i, s.
           split; [now right | exact Hk].
Qed.

(** Four names, one of them without a study and an institution in front. *)
Lemma summary_sample :
  ∃ self',
    update_summaries
      ["Glioma-TCGA-001__T1.MRscan.npy"; "bad__T1.MRscan.npy";
       "Glioma-TCGA-002__T1.MRscan.npy"; "Glioma-McGill-002__CT.CTscan.npy"]
      Summary_init = Ok (self', ["bad__T1.MRscan.npy"]) ∧
    __studies self' = ["Glioma"] ∧
    __institutions self' = ["TCGA"; "McGill"] ∧
    __scans self' = ["T1"; "CT"] ∧
    names_at self' "Glioma" "TCGA" "T1"
    = ["Glioma-TCGA-001__T1.MRscan.npy"; "Glioma-TCGA-002__T1.MRscan.npy"].
Proof. eexists. vm_compute. repeat split. Qed.

(** X27.  A save name as __get_MEDimage_name_save composes it,
    name_id__series_description.type.npy, with name_id of the form
    study-institution-id: when study and institution hold no dash, name_id
    holds no underscore and no dot, and series_description holds no dot, the
    summary block files the name under study, institution and
    series_description. *)
Theorem keys_of_a_conventional_name
  (study institution id series_description type : string) :
  let name_id := study +:+ "-" +:+ institution +:+ "-" +:+ id in
  count "-"%char study = 0 → count "-"%char institution = 0 →
  count "_"%char name_id = 0 → count "."%char name_id = 0 →
  count "."%char series_description = 0 →
  name_keys (name_complete name_id series_description type)
  = Some (study, institution, series_description).
Proof.
  intros name_id Hs Hi Hu Hd Hdesc. unfold name_keys, name_complete.
  set (tail := "." +:+ type +:+ ".npy").
  change (name_id +:+ "__" +:+ series_description +:+ tail)
    with (name_id +:+ String "_"%char
            (String "_"%char (series_description +:+ tail))) at 1.
  rewrite split_app, (split_free _ _ Hu). cbn [app].
  assert (Hc : 2 ≤ count "-"%char name_id).
  { subst name_id. rewrite !count_app. cbn. lia. }
  destruct (Nat.leb_spec 2 (count "-"%char name_id)) as [_|H]; [|lia].
  assert (Hsplit : ∃ rest,
            split "-"%char (name_id +:+ "__" +:+ series_description +:+ tail)
            = study :: institution :: rest).
  { subst name_id. rewrite !string_app_assoc.
    change ("-" +:+ institution +:+ "-" +:+ id +:+ "__"
            +:+ series_description +:+ tail)
      with (String "-"%char
              (institution +:+ String "-"%char
                 (id +:+ "__" +:+ series_description +:+ tail))).
    rewrite split_app, (split_free _ _ Hs), split_app, (split_free _ _ Hi).
    eexists. reflexivity. }
  destruct Hsplit as (rest & ->).
  f_equal. f_equal.
  assert (Hf2 : find "__" (name_id +:+ "__" +:+ series_description +:+ tail)
                = Z.of_nat (String.length name_id)).
  { exact (prefix_find2 "_"%char name_id (series_description +:+ tail) Hu). }
  assert (Hf1 : find "." (name_id +:+ "__" +:+ series_description +:+ tail)
                = Z.of_nat (String.length
                              (name_id +:+ "__" +:+ series_description))).
  { replace (name_id +:+ "__" +:+ series_description +:+ tail)
      with ((name_id +:+ "__" +:+ series_description)
              +:+ String "."%char (type +:+ ".npy")).
    - apply prefix_find. rewrite !count_app, Hd, Hdesc. reflexivity.
    - rewrite !string_app_assoc. reflexivity. }
  rewrite Hf2, Hf1.
  replace (name_id +:+ "__" +:+ series_description +:+ tail)
    with ((name_id +:+ "__") +:+ series_description +:+ tail)
    by (now rewrite string_app_assoc).
  replace (Z.of_nat (String.length name_id) + 2)%Z
    with (Z.of_nat (String.length (name_id +:+ "__")))
    by (rewrite string_length_app; cbn; lia).
  assert (Hlen : String.length (name_id +:+ "__" +:+ series_description)
                 = String.length (name_id +:+ "__")
                   + String.length series_description).
  { rewrite <- (string_length_app (name_id +:+ "__") series_description).
    now rewrite string_app_assoc. }
  rewrite Hlen. apply slice_middle.
Qed.

Lemma keys_of_a_conventional_name_witness :
  name_keys (name_complete "Glioma-TCGA-001" "T1" "MRscan")
  = Some ("Glioma", "TCGA", "T1").
Proof.
  exact (keys_of_a_conventional_name "Glioma" "TCGA" "001" "T1" "MRscan"
           eq_refl eq_refl eq_refl eq_refl eq_refl).
Defined.

End DataManagerFacts.

(** ** biomarkers/utils.py *)

Module BiomarkersFacts.

Import Biomarkers.
Local Open Scope Q_scope.

Lemma first_where_spec (cond : Q → bool) (a : list Q) (s i : nat) :
  first_where cond a s = Ok i ↔
  ∃ j y, i = (s + j)%nat ∧ a !! j = Some y ∧ cond y = true ∧
         ∀ j' z, (j' < j)%nat → a !! j' = Some z → cond z = false.
Proof.
  revert s. induction a as [|y a IH]; intros s; cbn.
  - split; [discriminate|]. intros (j & z & _ & Hj & _).
    now rewrite lookup_nil in Hj.
  - destruct (cond y) eqn:Ey.
    + split.
      * intros [= <-]. exists 0%nat, y. split; [lia|].
        split; [reflexivity|]. split; [exact Ey|]. intros j' z Hlt. lia.
      * intros (j & z & -> & Hj & Hz & Hmin). destruct j as [|j].
        -- f_equal. lia.
        -- specialize (Hmin 0%nat y ltac:(lia) eq_refl). congruence.
    + rewrite IH. split.
      * intros (j & z & -> & Hj & Hz & Hmin). exists (S j), z.
        split; [lia|]. split; [exact Hj|]. split; [exact Hz|].
        intros [|j'] z' Hlt Hj'.
        -- cbn in Hj'. congruence.
        -- apply (Hmin j' z'); [lia | exact Hj'].
      * intros (j & z & -> & Hj & Hz & Hmin). destruct j as [|j].
        -- cbn in Hj. congruence.
        -- exists j, z. split; [lia|]. split; [exact Hj|].
           split; [exact Hz|]. intros j' z' Hlt Hj'.
           apply (Hmin (S j') z'); [lia | exact Hj'].
Qed.

Lemma first_where_none (cond : Q → bool) (a : list Q) (s : nat) :
  Forall (λ y, cond y = false) a ↔ first_where cond a s = Raise IndexError.
Proof.
  revert s. induction a as [|y a IH]; intros s; cbn.
  - split; [reflexivity | constructor].
  - destruct (cond y) eqn:Ey.
    + split; [|discriminate]. intros H. apply Forall_cons in H as [? _].
      congruence.
    + rewrite <- IH. split.
      * intros H. now apply Forall_cons in H as [_ ?].
      * intros H. now constructor.
Qed.

Lemma first_where_raises (cond : Q → bool) (a : list Q) (s : nat) (e : exn) :
  first_where cond a s = Raise e → e = IndexError.
Proof.
  revert s. induction a as [|y a IH]; intros s; cbn; [congruence|].
  destruct (cond y); [discriminate | apply IH].
Qed.

Lemma first_where_weaker (cond cond' : Q → bool) (a : list Q) (s i : nat) :
  (∀ y, cond y = true → cond' y = true) →
  first_where cond a s = Ok i →
  ∃ i', first_where cond' a s = Ok i' ∧ (s <= i' <= i)%nat.
Proof.
  intros Himp. revert s. induction a as [|y a IH]; intros s; cbn;
    [discriminate|].
  destruct (cond y) eqn:Ey.
  - intros [= <-]. rewrite (Himp y Ey). exists s. split; [reflexivity | lia].
  - intros Hi. destruct (cond' y).
    + exists s. split; [reflexivity|].
      apply first_where_spec in Hi as (j & z & -> & _). lia.
    + destruct (IH (S s) Hi) as (i' & Hi' & Hle). exists i'.
      split; [exact Hi' | lia].
Qed.

Lemma first_where_lt (cond : Q → bool) (a : list Q) (s i : nat) :
  first_where cond a s = Ok i → (i < s + length a)%nat.
Proof.
  intros Hi. apply first_where_spec in Hi as (j & y & -> & Hj & _).
  apply lookup_lt_Some in Hj. lia.
Qed.

Lemma sorted_lookup {A} (R : A → A → Prop) (l : list A) (i j : nat) (a b : A) :
  StronglySorted R l → (i < j)%nat → l !! i = Some a → l !! j = Some b → R a b.
Proof.
  intros Hs. revert i j. induction Hs as [|x l Hs IH Hall]; intros i j Hlt Hi Hj.
  - now rewrite lookup_nil in Hi.
  - destruct j as [|j]; [lia|]. cbn in Hj. destruct i as [|i].
    + cbn in Hi. injection Hi as <-. rewrite Forall_forall in Hall.
      apply Hall. apply list_elem_of_lookup. eauto.
    + cbn in Hi. apply (IH i j); [lia | exact Hi | exact Hj].
Qed.

(** X28.  findIX with arrays of equal length: it returns v exactly when v is
    the level at the first position whose fractional volume is at most
    x/100; it raises IndexError exactly when every fractional volume exceeds
    x/100, and it raises nothing else. *)
Theorem findIX_spec (levels fractVol : list Q) (x : Q) :
  length levels = length fractVol →
  (∀ v, findIX levels fractVol x = Ok v ↔
        ∃ i y, fractVol !! i = Some y ∧ y <= x / 100 ∧
               (∀ j z, (j < i)%nat → fractVol !! j = Some z → x / 100 < z) ∧
               levels !! i = Some v) ∧
  (findIX levels fractVol x = Raise IndexError ↔
   Forall (λ y, x / 100 < y) fractVol) ∧
  (∀ e, findIX levels fractVol x = Raise e → e = IndexError).
Proof.
  intros Hlen. unfold findIX.
  set (cond := λ y : Q, Qle_bool y (x / 100)).
  assert (Hc : ∀ y, cond y = true ↔ y <= x / 100).
  { intros y. apply Qle_bool_iff. }
  assert (Hcf : ∀ y, cond y = false ↔ x / 100 < y).
  { intros y. split; intros H.
    - apply Qnot_le_lt. intros Hle. apply Hc in Hle. congruence.
    - destruct (cond y) eqn:E; [|reflexivity]. apply Hc in E. lra. }
  split; [|split].
  - intros v. split.
    + destruct (first_where cond fractVol 0) as [i|e] eqn:Ei; [|discriminate].
      cbn. unfold getitem.
      destruct (levels !! i) as [w|] eqn:Ew; [|discriminate].
      intros [= <-].
      apply first_where_spec in Ei as (j & y & -> & Hj & Hy & Hmin).
      exists j, y. split; [exact Hj|]. split; [now apply Hc|].
      split; [|exact Ew]. intros j' z Hlt Hz. apply Hcf. eauto.
    + intros (i & y & Hi & Hy & Hmin & Hv).
      assert (E : first_where cond fractVol 0 = Ok i).
      { apply first_where_spec. exists i, y. split; [reflexivity|].
        split; [exact Hi|]. split; [now apply Hc|].
        intros j z Hlt Hz. apply Hcf. eauto. }
      rewrite E. cbn. unfold getitem. now rewrite Hv.
  - split.
    + destruct (first_where cond fractVol 0) as [i|e] eqn:Ei.
      * cbn. unfold getitem. pose proof (first_where_lt _ _ _ _ Ei) as Hlt.
        destruct (lookup_lt_is_Some_2 levels i) as [w ->]; [lia|].
        discriminate.
      * intros _. pose proof (first_where_raises _ _ _ _ Ei) as ->.
        apply first_where_none in Ei.
        eapply Forall_impl; [exact Ei|]. intros y. apply Hcf.
    + intros Hall. rewrite (proj1 (first_where_none cond fractVol 0%nat));
        [reflexivity|].
      eapply Forall_impl; [exact Hall|]. intros y. apply Hcf.
  - intros e. destruct (first_where cond fractVol 0) as [i|e'] eqn:Ei.
    + cbn. unfold getitem. destruct (levels !! i); [discriminate|].
      now intros [= <-].
    + cbn. intros [= <-]. exact (first_where_raises _ _ _ _ Ei).
Qed.

Lemma findIX_spec_witness :
  findIX [1; 2; 3; 4] [1; 7 # 10; 4 # 10; 1 # 10] 50 = Ok 3.
Proof.
  apply (proj1 (findIX_spec [1; 2; 3; 4] [1; 7 # 10; 4 # 10; 1 # 10] 50
                  eq_refl)).
  exists 2%nat, (4 # 10). split; [reflexivity|]. split; [vm_compute; discriminate|].
  split; [|reflexivity].
  intros [|[|j]] z Hlt Hz; [| |lia]; injection Hz as <-; reflexivity.
Defined.

(** X29.  With ascending levels, findIX does not increase when x grows: if
    it returns v at x and x <= x', it returns at x' too, a value that is at
    most v. *)
Theorem findIX_antitone (levels fractVol : list Q) (x x' v : Q) :
  length levels = length fractVol →
  StronglySorted Qle levels →
  x <= x' →
  findIX levels fractVol x = Ok v →
  ∃ v', findIX levels fractVol x' = Ok v' ∧ v' <= v.
Proof.
  intros Hlen Hs Hx. unfold findIX.
  destruct (first_where _ fractVol 0) as [i|e] eqn:Ei; [|discriminate].
  cbn. unfold getitem. destruct (levels !! i) as [w|] eqn:Ew; [|discriminate].
  intros [= <-].
  destruct (first_where_weaker (λ y, Qle_bool y (x / 100))
              (λ y, Qle_bool y (x' / 100)) fractVol 0 i)
    as (i' & Hi' & Hle); [|exact Ei|].
  { intros y Hy. apply Qle_bool_iff in Hy. apply Qle_bool_iff.
    assert (x / 100 <= x' / 100).
    { unfold Qdiv. apply Qmult_le_compat_r; [exact Hx | discriminate]. }
    lra. }
  rewrite Hi'. cbn.
  destruct (lookup_lt_is_Some_2 levels i') as [w' Hw'].
  { apply lookup_lt_Some in Ew. lia. }
  rewrite Hw'. exists w'. split; [reflexivity|].
  destruct (decide (i' = i)) as [->|Hne].
  - assert (w' = w) as -> by congruence. lra.
  - apply (sorted_lookup Qle levels i' i); [exact Hs | lia | exact Hw' | exact Ew].
Qed.

Lemma findIX_antitone_witness :
  ∃ v', findIX [1; 2; 3; 4] [1; 7 # 10; 4 # 10; 1 # 10] 90 = Ok v' ∧ v' <= 3.
Proof.
  apply (findIX_antitone [1; 2; 3; 4] [1; 7 # 10; 4 # 10; 1 # 10] 50 90 3).
  - reflexivity.
  - repeat constructor; discriminate.
  - discriminate.
  - reflexivity.
Defined.

(** X30.  findVX with arrays of equal length: it returns v exactly when v is
    the fractional volume at the first position whose intensity fraction is
    at least x/100, and raises IndexError exactly when every intensity
    fraction is below x/100.  With a non-increasing fractVol the result does
    not increase when x grows: if it returns v' at x' and x <= x', it
    returns at x a value of at least v'. *)
Theorem findVX_spec_and_antitone (fractInt fractVol : list Q) (x : Q) :
  length fractVol = length fractInt →
  (∀ v, findVX fractInt fractVol x = Ok v ↔
        ∃ i y, fractInt !! i = Some y ∧ x / 100 <= y ∧
               (∀ j z, (j < i)%nat → fractInt !! j = Some z → z < x / 100) ∧
               fractVol !! i = Some v) ∧
  (findVX fractInt fractVol x = Raise IndexError ↔
   Forall (λ y, y < x / 100) fractInt) ∧
  (∀ x' v', StronglySorted (λ a b, b <= a) fractVol → x <= x' →
     findVX fractInt fractVol x' = Ok v' →
     ∃ v, findVX fractInt fractVol x = Ok v ∧ v' <= v).
Proof.
  intros Hlen. unfold findVX.
  set (cond := λ y : Q, Qle_bool (x / 100) y).
  assert (Hc : ∀ y, cond y = true ↔ x / 100 <= y).
  { intros y. apply Qle_bool_iff. }
  assert (Hcf : ∀ y, cond y = false ↔ y < x / 100).
  { intros y. split; intros H.
    - apply Qnot_le_lt. intros Hle. apply Hc in Hle. congruence.
    - destruct (cond y) eqn:E; [|reflexivity]. apply Hc in E. lra. }
  split; [|split].
  - intros v. split.
    + destruct (first_where cond fractInt 0) as [i|e] eqn:Ei; [|discriminate].
      cbn. unfold getitem.
      destruct (fractVol !! i) as [w|] eqn:Ew; [|discriminate].
      intros [= <-].
      apply first_where_spec in Ei as (j & y & -> & Hj & Hy & Hmin).
      exists j, y. split; [exact Hj|]. split; [now apply Hc|].
      split; [|exact Ew]. intros j' z Hlt Hz. apply Hcf. eauto.
    + intros (i & y & Hi & Hy & Hmin & Hv).
      assert (E : first_where cond fractInt 0 = Ok i).
      { apply first_where_spec. exists i, y. split; [reflexivity|].
        split; [exact Hi|]. split; [now apply Hc|].
        intros j z Hlt Hz. apply Hcf. eauto. }
      rewrite E. cbn. unfold getitem. now rewrite Hv.
  - split.
    + destruct (first_where cond fractInt 0) as [i|e] eqn:Ei.
      * cbn. unfold getitem. pose proof (first_where_lt _ _ _ _ Ei) as Hlt.
        destruct (lookup_lt_is_Some_2 fractVol i) as [w ->]; [lia|].
        discriminate.
      * intros _. pose proof (first_where_raises _ _ _ _ Ei) as ->.
        apply first_where_none in Ei.
        eapply Forall_impl; [exact Ei|]. intros y. apply Hcf.
    + intros Hall. rewrite (proj1 (first_where_none cond fractInt 0%nat));
        [reflexivity|].
      eapply Forall_impl; [exact Hall|]. intros y. apply Hcf.
  - intros x' v' Hs Hx.
    destruct (first_where (λ y, Qle_bool (x' / 100) y) fractInt 0)
      as [i'|e] eqn:Ei'; [|discriminate].
    cbn. unfold getitem.
    destruct (fractVol !! i') as [w'|] eqn:Ew'; [|discriminate].
    intros [= <-].
    destruct (first_where_weaker (λ y, Qle_bool (x' / 100) y) cond
                fractInt 0 i') as (i & Hi & Hle); [|exact Ei'|].
    { intros y Hy. apply Qle_bool_iff in Hy. apply Hc.
      assert (x / 100 <= x' / 100).
      { unfold Qdiv. apply Qmult_le_compat_r; [exact Hx | discriminate]. }
      lra. }
    rewrite Hi. cbn.
    destruct (lookup_lt_is_Some_2 fractVol i) as [w Hw].
    { apply lookup_lt_Some in Ew'. lia. }
    rewrite Hw. exists w. split; [reflexivity|].
    destruct (decide (i = i')) as [->|Hne].
    + assert (w = w') as -> by congruence. lra.
    + apply (sorted_lookup (λ a b, b <= a) fractVol i i');
        [exact Hs | lia | exact Hw | exact Ew'].
Qed.

Lemma findVX_spec_and_antitone_witness :
  findVX [0; 3 # 10; 6 # 10; 1] [1; 7 # 10; 4 # 10; 1 # 10] 50 = Ok (4 # 10).
Proof.
  apply (proj1 (findVX_spec_and_antitone [0; 3 # 10; 6 # 10; 1]
                  [1; 7 # 10; 4 # 10; 1 # 10] 50 eq_refl)).
  exists 2%nat, (6 # 10). split; [reflexivity|].
  split; [vm_compute; discriminate|]. split; [|reflexivity].
  intros [|[|j]] z Hlt Hz; [| |lia]; injection Hz as <-; reflexivity.
Defined.

End BiomarkersFacts.
